(** * The equilibrium engine of the N-channel deception-jamming simulator

    A shallow embedding of the multi-player best-response solver of the
    simulation edge function ([runEquilibrium] and the functions it calls)
    and of the request validation in front of it, followed by the
    single-run simulation ([runSimulation] with its defender policies
    and jammer modes), the sweep over it ([runSweep]), the validators of
    both and the request handler.

    Conventions of the embedding.
    - A JavaScript [number] of the engine is a real number: [Math.max],
      [Math.min], [Math.abs] and [Math.log] are [Rmax], [Rmin], [Rabs]
      and [ln]; comparisons are decided with [Rle_dec] and friends.
      Rounding, [NaN] and signed infinities are outside the model.
    - Counts, indices and loop bounds ([N], [D], [M], [maxIter], [topK],
      [owner]) are natural numbers.
    - An array is a list. A read [a[i]] is [nth i a d]; a write [a[i] = v]
      is [<[i:=v]> a]. Every write of the engine is in range, the arrays
      being allocated with [new Array(N).fill(0)] beforehand.
    - A [Set<number>] is the list of its members in insertion order.
    - The only exception the engine can raise on a well-dimensioned
      parameter object is the [TypeError] of reading [y[mm][i]] when the
      row [y[mm]] does not exist; it is modelled with [option]. The two
      [throw] statements of [runSimulation] are the outcome [Thrown].
    - Reads of rows and entries that do not exist, and the division of
      the random start by a weight sum of [0], are outside the model.
      The statements about whole runs of the engine therefore assume
      [validParams], draws in the unit interval and [positiveWeights];
      those about a strategy call or a single run say which arrays
      they need. *)

From Stdlib Require Import Reals Lra Lia List Bool Arith QArith String Sorted.
From stdpp Require Import base list.

#[local] Open Scope R_scope.

(** ** Sums of numbers *)

(** [arr.reduce((a, b) => a + b, 0)] *)
Definition sumR (l : list R) : R := fold_left Rplus l 0.

(** ** Projection onto the budget simplex *)

Definition projectToSimplex (allocation : list R) (budget : R) : list R :=
  let projected := map (Rmax 0) allocation in
  let sum := sumR projected in
  if Rle_dec sum 0
  then map (fun _ => budget / INR (length projected)) projected
  else map (fun v => v / sum * budget) projected.


(** ** The data model *)

Inductive ChannelType := real | decoy | inactive.
Inductive JammerStrategy := J1_uniform | J2_topK | J3_optimization.
Inductive JammerObjective := deception | oracle.
Inductive AttackerMode := coordinated | independent.

#[global] Instance ChannelType_eq_dec : EqDecision ChannelType.
Proof. solve_decision. Defined.
#[global] Instance JammerStrategy_eq_dec : EqDecision JammerStrategy.
Proof. solve_decision. Defined.
#[global] Instance JammerObjective_eq_dec : EqDecision JammerObjective.
Proof. solve_decision. Defined.
#[global] Instance AttackerMode_eq_dec : EqDecision AttackerMode.
Proof. solve_decision. Defined.

Record ChannelConfig := { type : ChannelType; owner : nat }.

Record EquilibriumParams := {
  N : nat;
  D : nat;
  M : nat;
  PT : list R;
  PJ : list R;
  sigma2 : R;
  tau : R;
  h : list (list R);
  g : list (list R);
  alpha : R;
  maxIter : nat;
  epsilon : R;
  channelConfig : list ChannelConfig;
  jammerStrategy : JammerStrategy;
  jammerObjective : JammerObjective;
  attackerMode : AttackerMode;
  topK : nat;
  randomInit : bool;
  seed : option Z
}.

Record PlayerAllocation := {
  playerId : nat;
  allocation : list R;
  utility : R
}.

Record EquilibriumMetrics := {
  jammerWasteOnDecoys : R;
  dilutionFactor : R;
  oracleGap : R;
  improvementOverNoDecoys : R;
  totalRealThroughput : R;
  totalDecoyPower : R;
  activeChannelCount : nat;
  realChannelCount : nat;
  symmetricEquilibrium : bool
}.

Module Entry.
Record ConvergenceEntry := {
  iter : nat;
  maxChange : R;
  defenderUtilities : list R;
  attackerUtilities : list R;
  defenderDeltas : list R;
  attackerDeltas : list R
}.
End Entry.
Abbreviation ConvergenceEntry := Entry.ConvergenceEntry.

Module Summary.
Record ChannelSummary := {
  channel : nat;
  owner : nat;
  channelType : ChannelType;
  totalDefenderPower : R;
  totalAttackerPower : R;
  sinr : R;
  rate : R;
  h : R;
  g : R;
  isActive : bool
}.
End Summary.
Abbreviation ChannelSummary := Summary.ChannelSummary.

(** The top-level [maxChange] starts at [Infinity] and is a real number
    from the first iteration on. *)
Inductive JsNumber := Finite (r : R) | Infinity.

Record EquilibriumResult := {
  defenders : list PlayerAllocation;
  attackers : list PlayerAllocation;
  converged : bool;
  iterations : nat;
  maxChange : JsNumber;
  convergenceHistory : list ConvergenceEntry;
  channelSummary : list ChannelSummary;
  metrics : EquilibriumMetrics
}.

(** ** Array reads *)

(** [a[r][c]] on a matrix whose row [r] exists and has an entry [c]. On
    a missing row the source raises a [TypeError], and past the end of
    a row it reads [undefined]; here both read as [0]. The statements
    about whole runs carry [validParams], under which every row and
    entry that the engine reads exists. *)
Definition at2 (a : list (list R)) (r c : nat) : R := nth c (nth r a []) 0.

(** [params.channelConfig[i]] for a channel that has an entry. The source
    raises a [TypeError] when it reads the type or the owner of a
    missing entry; here a missing entry reads as an inactive channel of
    defender [0]. Under [validParams] every channel below [N] has its
    entry. *)
Definition config (params : EquilibriumParams) (i : nat) : ChannelConfig :=
  nth i (channelConfig params) {| type := inactive; owner := 0 |}.

(** [Math.log2] *)
Definition log2 (v : R) : R := ln v / ln 2.

(** ** Activation rule *)

Definition getActiveSet (x : list (list R)) (params : EquilibriumParams)
  : list nat :=
  List.filter
    (fun i =>
       let c := config params i in
       if decide (type c = inactive) then false
       else
         let ownerPower := at2 x (owner c) i in
         if Rge_dec ownerPower (tau params) then true else false)
    (seq 0 (N params)).

(** [activeSet.has(i)] *)
Definition has (activeSet : list nat) (i : nat) : bool :=
  existsb (Nat.eqb i) activeSet.

(** ** Utilities and gradients *)

(** The accumulation [totalInterference = sigma2; for m < M:
    totalInterference += y[m][i] * g[m][i]]. *)
Definition totalInterference (y : list (list R)) (params : EquilibriumParams)
  (i : nat) : R :=
  fold_left (fun acc m => acc + at2 y m i * at2 (g params) m i)
    (seq 0 (M params)) (sigma2 params).

Definition calculateDefenderUtility (d : nat) (x y : list (list R))
  (params : EquilibriumParams) (activeSet : list nat) (onlyReal : bool) : R :=
  fold_left
    (fun utility i =>
       let c := config params i in
       if negb (owner c =? d)%nat then utility
       else if onlyReal && negb (bool_decide (type c = real)) then utility
       else if negb onlyReal && bool_decide (type c = inactive) then utility
       else
         let defenderPower := at2 x d i in
         if Rle_dec defenderPower 0 then utility
         else
           let sinr :=
             defenderPower * at2 (h params) d i / totalInterference y params i in
           utility + ln (1 + sinr))
    (seq 0 (N params)) 0.

Definition calculateAttackerUtility (m : nat) (x y : list (list R))
  (params : EquilibriumParams) (activeSet : list nat) : R :=
  let totalDefenderUtility :=
    fold_left
      (fun total d =>
         if decide (jammerObjective params = oracle)
         then total + calculateDefenderUtility d x y params activeSet true
         else total + calculateDefenderUtility d x y params activeSet false)
      (seq 0 (D params)) 0 in
  - totalDefenderUtility.

Definition defenderGradient (d : nat) (x y : list (list R))
  (params : EquilibriumParams) : list R :=
  map
    (fun i =>
       let c := config params i in
       if negb (owner c =? d)%nat then 0
       else if decide (type c = inactive) then 0
       else
         let interference := totalInterference y params i in
         let currentPower := at2 x d i in
         if decide (type c = real)
         then at2 (h params) d i
              / (interference + currentPower * at2 (h params) d i)
         else if Rlt_dec currentPower (tau params) then 0.1 else 0.01)
    (seq 0 (N params)).

(** The oracle jammer skips a channel that is not real. *)
Definition skippedByObjective (params : EquilibriumParams) (i : nat) : bool :=
  bool_decide (jammerObjective params = oracle)
  && negb (bool_decide (type (config params i) = real)).

(** Reading [y[mm][i]] for every [mm < M] raises a [TypeError] as soon as
    a row [y[mm]] is missing. *)
Definition interferenceOrThrow (y : list (list R))
  (params : EquilibriumParams) (i : nat) : option R :=
  if decide (length y < M params)%nat then None
  else Some (totalInterference y params i).

Definition attackerGradient (m : nat) (x y : list (list R))
  (params : EquilibriumParams) (activeSet : list nat) : option (list R) :=
  mapM
    (fun i =>
       if negb (has activeSet i) then Some 0
       else
         let c := config params i in
         let owner := owner c in
         if skippedByObjective params i then Some 0
         else
           let defenderPower := at2 x owner i in
           if Rle_dec defenderPower 0 then Some 0
           else
             match interferenceOrThrow y params i with
             | None => None
             | Some interference =>
                 let sinr_term := defenderPower * at2 (h params) owner i in
                 Some (sinr_term * at2 (g params) m i
                       / (interference * (interference + sinr_term)))
             end)
    (seq 0 (N params)).


(** ** Jammer strategies *)

Record Scored := { index : nat; score : R }.

(** [scored.sort((a, b) => b.score - a.score)]: a stable sort, highest
    score first. *)
Fixpoint insertByScore (a : Scored) (l : list Scored) : list Scored :=
  match l with
  | [] => [a]
  | e :: l' =>
      if Rgt_dec (score e) (score a) then e :: insertByScore a l'
      else a :: e :: l'
  end.

Definition sortByScore (l : list Scored) : list Scored :=
  foldr insertByScore [] l.

Definition applyJammerStrategy (m : nat) (y x : list (list R))
  (params : EquilibriumParams) (activeSet : list nat) : option (list R) :=
  let newY := replicate (N params) 0 in
  let activeList := activeSet in
  if (length activeList =? 0)%nat then Some newY
  else
    match jammerStrategy params with
    | J1_uniform =>
        let power := nth m (PJ params) 0 / INR (length activeList) in
        let newY :=
          fold_left
            (fun newY i =>
               if skippedByObjective params i then newY
               else <[i := power]> newY)
            activeList newY in
        let sum := sumR newY in
        if Rgt_dec sum 0
        then Some (map (fun v => v / sum * nth m (PJ params) 0) newY)
        else Some newY
    | J2_topK =>
        let scored :=
          map
            (fun i =>
               {| index := i;
                  score := at2 x (owner (config params i)) i
                           * at2 (g params) m i |})
            (List.filter (fun i => negb (skippedByObjective params i))
               activeList) in
        let scored := sortByScore scored in
        let targets := take (Nat.min (topK params) (length scored)) scored in
        let totalScore := fold_left (fun s t => s + score t) targets 0 in
        Some
          (fold_left
             (fun newY t =>
                <[index t :=
                    if Rgt_dec totalScore 0
                    then score t / totalScore * nth m (PJ params) 0
                    else nth m (PJ params) 0 / INR (length targets)]> newY)
             targets newY)
    | J3_optimization =>
        match attackerGradient m x y params activeSet with
        | None => None
        | Some grad =>
            let gradSum := fold_left (fun s gi => s + Rmax 0 gi) grad 0 in
            if Rgt_dec gradSum 0
            then Some (map (fun gi => Rmax 0 gi / gradSum * nth m (PJ params) 0)
                         grad)
            else
              let validChannels :=
                List.filter (fun i => negb (skippedByObjective params i))
                  activeList in
              let power :=
                nth m (PJ params) 0
                / INR (Nat.max 1 (length validChannels)) in
              Some (fold_left (fun newY i => <[i := power]> newY)
                      validChannels newY)
        end
    end.

(** ** Derived metrics *)

Definition noPlayer : PlayerAllocation :=
  {| playerId := 0; allocation := []; utility := 0 |}.

(** [alloc.reduce((s, v, i) => s + Math.abs(v - firstDef[i]), 0)]: the
    total L1 distance between two allocation vectors. *)
Definition l1Distance (alloc firstDef : list R) : R :=
  sumR (imap (fun i v => Rabs (v - nth i firstDef 0)) alloc).

Definition checkSymmetricEquilibrium (defenders attackers : list PlayerAllocation)
  (epsilon : R) : bool :=
  if (length defenders <=? 1)%nat then false
  else
    let firstDef := allocation (nth 0 defenders noPlayer) in
    forallb
      (fun d =>
         let alloc := allocation (nth d defenders noPlayer) in
         let diff := l1Distance alloc firstDef in
         if Rgt_dec diff (epsilon * 10) then false else true)
      (seq 1 (length defenders - 1)).

Record MetricsAcc := {
  accRealThroughput : R;
  accDecoyPower : R;
  accJammerWaste : R;
  accJammerPower : R;
  accRealCount : nat
}.

Definition computeMetrics (x y : list (list R)) (params : EquilibriumParams)
  (activeSet : list nat) : EquilibriumMetrics :=
  let acc :=
    fold_left
      (fun acc i =>
         let c := config params i in
         let owner := owner c in
         let defPower := at2 x owner i in
         let jamPower :=
           fold_left (fun s m => s + at2 y m i) (seq 0 (M params)) 0 in
         let acc :=
           {| accRealThroughput := accRealThroughput acc;
              accDecoyPower := accDecoyPower acc;
              accJammerWaste := accJammerWaste acc;
              accJammerPower := accJammerPower acc + jamPower;
              accRealCount := accRealCount acc |} in
         match type c with
         | real =>
             let interference := totalInterference y params i in
             {| accRealThroughput :=
                  if Rgt_dec defPower 0
                  then accRealThroughput acc
                       + log2 (1 + defPower * at2 (h params) owner i
                                   / interference)
                  else accRealThroughput acc;
                accDecoyPower := accDecoyPower acc;
                accJammerWaste := accJammerWaste acc;
                accJammerPower := accJammerPower acc;
                accRealCount := S (accRealCount acc) |}
         | decoy =>
             {| accRealThroughput := accRealThroughput acc;
                accDecoyPower := accDecoyPower acc + defPower;
                accJammerWaste := accJammerWaste acc + jamPower;
                accJammerPower := accJammerPower acc;
                accRealCount := accRealCount acc |}
         | inactive => acc
         end)
      (seq 0 (N params))
      {| accRealThroughput := 0; accDecoyPower := 0; accJammerWaste := 0;
         accJammerPower := 0; accRealCount := 0 |} in
  let activeChannelCount := length activeSet in
  {| jammerWasteOnDecoys :=
       if Rgt_dec (accJammerPower acc) 0
       then accJammerWaste acc / accJammerPower acc else 0;
     dilutionFactor :=
       if (0 <? accRealCount acc)%nat
       then INR activeChannelCount / INR (accRealCount acc) else 1;
     oracleGap := 0;
     improvementOverNoDecoys := 0;
     totalRealThroughput := accRealThroughput acc;
     totalDecoyPower := accDecoyPower acc;
     activeChannelCount := activeChannelCount;
     realChannelCount := accRealCount acc;
     symmetricEquilibrium := false |}.


(** ** The best-response loop *)

Definition stepSize : R := 0.5.

(** The state threaded through the per-player loops of one iteration:
    the allocation matrix, the running [maxChange] and the deltas pushed
    so far. *)
Definition Sweep : Type := list (list R) * R * list R.

(** The damped row [(1 - alpha) * old[i] + alpha * proposal[i]], [i < N]. *)
Definition damp (params : EquilibriumParams) (old proposal : list R) : list R :=
  map (fun i => (1 - alpha params) * nth i old 0
                + alpha params * nth i proposal 0)
    (seq 0 (N params)).

(** [delta = Math.abs(newVal - old[i])], [i < N]. *)
Definition deltas (params : EquilibriumParams) (old new : list R) : list R :=
  map (fun i => Rabs (nth i new 0 - nth i old 0)) (seq 0 (N params)).

(** The row a defender moves towards: a gradient step of fixed size
    projected onto the budget. *)
Definition defenderCandidate (params : EquilibriumParams) (d : nat)
  (x y : list (list R)) : list R :=
  let grad := defenderGradient d x y params in
  let update := imap (fun i val => val + stepSize * nth i grad 0) (nth d x []) in
  projectToSimplex update (nth d (PT params) 0).

Definition updateDefender (params : EquilibriumParams)
  (xOld y : list (list R)) (st : Sweep) (d : nat) : Sweep :=
  let '(x, maxChange, defenderDeltas) := st in
  let projected := defenderCandidate params d x y in
  let newRow := damp params (nth d xOld []) projected in
  let ds := deltas params (nth d xOld []) newRow in
  let playerMaxChange := fold_left Rmax ds 0 in
  (<[d := newRow]> x, fold_left Rmax ds maxChange,
   defenderDeltas ++ [playerMaxChange]).

(** The row an attacker moves towards: the configured strategy, or, for
    an independent attacker under the gradient strategy, its own ascent
    step projected onto the budget. *)
Definition attackerCandidate (params : EquilibriumParams) (m : nat)
  (y x : list (list R)) (newActiveSet : list nat) : option (list R) :=
  if bool_decide (attackerMode params = coordinated)
     || negb (bool_decide (jammerStrategy params = J3_optimization))
  then applyJammerStrategy m y x params newActiveSet
  else
    match attackerGradient m x y params newActiveSet with
    | None => None
    | Some grad =>
        let update :=
          imap (fun i val => val + stepSize * nth i grad 0) (nth m y []) in
        Some (projectToSimplex update (nth m (PJ params) 0))
    end.

Definition updateAttacker (params : EquilibriumParams)
  (yOld x : list (list R)) (newActiveSet : list nat)
  (st : option Sweep) (m : nat) : option Sweep :=
  match st with
  | None => None
  | Some (y, maxChange, attackerDeltas) =>
      match attackerCandidate params m y x newActiveSet with
      | None => None
      | Some newY =>
          let newRow := damp params (nth m yOld []) newY in
          let ds := deltas params (nth m yOld []) newRow in
          let playerMaxChange := fold_left Rmax ds 0 in
          Some (<[m := newRow]> y, fold_left Rmax ds maxChange,
                attackerDeltas ++ [playerMaxChange])
      end
  end.

(** The body of the [for (iter ...)] loop up to the history record;
    [None] when a strategy raises. *)
Definition iteration (params : EquilibriumParams) (iter : nat)
  (x y : list (list R))
  : option (list (list R) * list (list R) * ConvergenceEntry) :=
  let xOld := x in
  let yOld := y in
  let '(x, maxChange, defenderDeltas) :=
    fold_left (updateDefender params xOld y) (seq 0 (D params)) (x, 0, []) in
  let newActiveSet := getActiveSet x params in
  match
    fold_left (updateAttacker params yOld x newActiveSet) (seq 0 (M params))
      (Some (y, maxChange, []))
  with
  | None => None
  | Some (y, maxChange, attackerDeltas) =>
      let defenderUtilities :=
        map (fun d => calculateDefenderUtility d x y params newActiveSet true)
          (seq 0 (D params)) in
      let attackerUtilities :=
        map (fun m => calculateAttackerUtility m x y params newActiveSet)
          (seq 0 (M params)) in
      Some (x, y,
            {| Entry.iter := iter + 1;
               Entry.maxChange := maxChange;
               Entry.defenderUtilities := defenderUtilities;
               Entry.attackerUtilities := attackerUtilities;
               Entry.defenderDeltas := defenderDeltas;
               Entry.attackerDeltas := attackerDeltas |})
  end.

(** The variables of [runEquilibrium] that survive the loop. *)
Record LoopState := {
  loop_x : list (list R);
  loop_y : list (list R);
  loop_history : list ConvergenceEntry;
  loop_converged : bool;
  loop_iterations : nat;
  loop_maxChange : JsNumber
}.

(** [for (iter; iter < maxIter; iter++)], with [remaining = maxIter - iter]. *)
Fixpoint bestResponseLoop (params : EquilibriumParams) (remaining iter : nat)
  (st : LoopState) : option LoopState :=
  match remaining with
  | O => Some st
  | S remaining' =>
      match iteration params iter (loop_x st) (loop_y st) with
      | None => None
      | Some (x, y, entry) =>
          let st' :=
            {| loop_x := x;
               loop_y := y;
               loop_history := loop_history st ++ [entry];
               loop_converged := false;
               loop_iterations := iter + 1;
               loop_maxChange := Finite (Entry.maxChange entry) |} in
          if Rlt_dec (Entry.maxChange entry) (epsilon params)
          then Some {| loop_x := x;
                       loop_y := y;
                       loop_history := loop_history st';
                       loop_converged := true;
                       loop_iterations := loop_iterations st';
                       loop_maxChange := loop_maxChange st' |}
          else bestResponseLoop params remaining' (S iter) st'
      end
  end.

(** ** Initialisation *)

Definition ownedChannels (params : EquilibriumParams) (d : nat) : list nat :=
  List.filter
    (fun i =>
       let c := config params i in
       (owner c =? d)%nat && negb (bool_decide (type c = inactive)))
    (seq 0 (length (channelConfig params))).

(** [alloc[i] = Math.min(tau, remaining / Math.max(1, decoyChannels.length));
    remaining -= alloc[i]] for every decoy channel. *)
Definition fundDecoys (params : EquilibriumParams) (decoyChannels : list nat)
  (alloc : list R) (remaining : R) : list R * R :=
  fold_left
    (fun st i =>
       let a :=
         Rmin (tau params)
           (snd st / INR (Nat.max 1 (length decoyChannels))) in
       (<[i := a]> (fst st), snd st - a))
    decoyChannels (alloc, remaining).

(** [y.push(applyJammerStrategy(m, [], x, params, activeSet))] for every
    attacker. *)
Definition initAttackers (params : EquilibriumParams) (x : list (list R))
  : option (list (list R)) :=
  let activeSet := getActiveSet x params in
  mapM (fun m => applyJammerStrategy m [] x params activeSet)
    (seq 0 (M params)).

(** ** The result object *)

Definition buildChannelSummary (params : EquilibriumParams)
  (x y : list (list R)) (finalActiveSet : list nat) : list ChannelSummary :=
  map
    (fun i =>
       let c := config params i in
       let owner := owner c in
       let totalDefenderPower := at2 x owner i in
       let totalAttackerPower :=
         fold_left (fun sum ym => sum + nth i ym 0) y 0 in
       let sinr :=
         if Rgt_dec totalDefenderPower 0
         then totalDefenderPower * at2 (h params) owner i
              / totalInterference y params i
         else 0 in
       let rate :=
         if Rgt_dec totalDefenderPower 0 then log2 (1 + sinr) else 0 in
       let avgH :=
         if Req_dec_T (at2 (h params) owner i) 0 then 1
         else at2 (h params) owner i in
       let avgG :=
         fold_left (fun s gm => s + nth i gm 0) (g params) 0
         / INR (M params) in
       {| Summary.channel := i;
          Summary.owner := owner;
          Summary.channelType := type c;
          Summary.totalDefenderPower := totalDefenderPower;
          Summary.totalAttackerPower := totalAttackerPower;
          Summary.sinr := sinr;
          Summary.rate := rate;
          Summary.h := avgH;
          Summary.g := avgG;
          Summary.isActive := has finalActiveSet i |})
    (seq 0 (N params)).

Definition buildResult (params : EquilibriumParams) (st : LoopState)
  : EquilibriumResult :=
  let x := loop_x st in
  let y := loop_y st in
  let finalActiveSet := getActiveSet x params in
  let defenders :=
    map (fun d =>
           {| playerId := d;
              allocation := nth d x [];
              utility :=
                calculateDefenderUtility d x y params finalActiveSet true |})
      (seq 0 (D params)) in
  let attackers :=
    map (fun m =>
           {| playerId := m;
              allocation := nth m y [];
              utility :=
                calculateAttackerUtility m x y params finalActiveSet |})
      (seq 0 (M params)) in
  let channelSummary := buildChannelSummary params x y finalActiveSet in
  let metrics := computeMetrics x y params finalActiveSet in
  let metrics :=
    {| jammerWasteOnDecoys := jammerWasteOnDecoys metrics;
       dilutionFactor := dilutionFactor metrics;
       oracleGap := oracleGap metrics;
       improvementOverNoDecoys := improvementOverNoDecoys metrics;
       totalRealThroughput := totalRealThroughput metrics;
       totalDecoyPower := totalDecoyPower metrics;
       activeChannelCount := activeChannelCount metrics;
       realChannelCount := realChannelCount metrics;
       symmetricEquilibrium :=
         checkSymmetricEquilibrium defenders attackers (epsilon params) |} in
  {| defenders := defenders;
     attackers := attackers;
     converged := loop_converged st;
     iterations := loop_iterations st;
     maxChange := loop_maxChange st;
     convergenceHistory := loop_history st;
     channelSummary := channelSummary;
     metrics := metrics |}.

(** The state after [k] iterations run unconditionally (the loop itself
    stops at the first one whose [maxChange] is below [epsilon]). *)
Fixpoint afterIterations (params : EquilibriumParams) (k : nat)
  (x y : list (list R)) : option (list (list R) * list (list R)) :=
  match k with
  | O => Some (x, y)
  | S k' =>
      match afterIterations params k' x y with
      | None => None
      | Some (x', y') =>
          match iteration params k' x' y' with
          | None => None
          | Some (x'', y'', _) => Some (x'', y'')
          end
      end
  end.

(** ** The entry point *)

Section Engine.

(** [random seed k] is the value returned by the [k]-th call (from 0) of
    the generator selected by [seed]: [seededRandom(seed)] when a seed
    is present, [Math.random] otherwise. Both return numbers in the
    unit interval. *)
Variable random : option Z -> nat -> R.

(** One defender's initial row; [drawn] counts the calls of the
    generator so far. The random branch divides every weight by the sum
    of the weights, as the source does without a guard. When that sum
    is [0] the source's row is [NaN], which a real number cannot
    express: the statements that cover random initialisation carry
    [positiveWeights]. *)
Definition initDefender (params : EquilibriumParams) (d drawn : nat)
  : list R * nat :=
  let alloc := replicate (N params) 0 in
  let owned := ownedChannels params d in
  if (0 <? length owned)%nat then
    if randomInit params then
      let weights :=
        map (fun k => random (seed params) (drawn + k))
          (seq 0 (length owned)) in
      let sum := sumR weights in
      (fold_left
         (fun alloc cw =>
            <[fst cw := snd cw / sum * nth d (PT params) 0]> alloc)
         (combine owned weights) alloc,
       (drawn + length owned)%nat)
    else
      let remaining := nth d (PT params) 0 in
      let realChannels :=
        List.filter (fun i => bool_decide (type (config params i) = real))
          owned in
      let decoyChannels :=
        List.filter (fun i => bool_decide (type (config params i) = decoy))
          owned in
      let '(alloc, remaining) :=
        fundDecoys params decoyChannels alloc remaining in
      if (0 <? length realChannels)%nat then
        let perReal := remaining / INR (length realChannels) in
        (fold_left (fun alloc i => <[i := perReal]> alloc) realChannels alloc,
         drawn)
      else (alloc, drawn)
  else (alloc, drawn).

Definition initDefenders (params : EquilibriumParams) : list (list R) :=
  fst (fold_left
         (fun st d =>
            let '(alloc, drawn) := initDefender params d (snd st) in
            (fst st ++ [alloc], drawn))
         (seq 0 (D params)) ([], 0%nat)).

(** The state at the loop head. *)
Definition initialState (params : EquilibriumParams) : option LoopState :=
  let x := initDefenders params in
  match initAttackers params x with
  | None => None
  | Some y =>
      Some {| loop_x := x;
              loop_y := y;
              loop_history := [];
              loop_converged := false;
              loop_iterations := 0;
              loop_maxChange := Infinity |}
  end.

(** [None] stands for the exception that leaves [runEquilibrium]. *)
Definition runEquilibrium (params : EquilibriumParams)
  : option EquilibriumResult :=
  match initialState params with
  | None => None
  | Some st0 =>
      match bestResponseLoop params (maxIter params) 0 st0 with
      | None => None
      | Some st => Some (buildResult params st)
      end
  end.

End Engine.


(** ** Request validation *)

#[local] Set Warnings "-register-all".

(** A parsed request body. The numbers of a JSON text are decimal
    fractions; a literal too large for a double parses to an infinity,
    which is the [JNotFinite] case. *)
Inductive JSON :=
| JNull
| JBool (b : bool)
| JNumber (q : Q)
| JNotFinite
| JString (s : string)
| JArray (items : list JSON)
| JObject (fields : list (string * JSON)).

Record ValidationResult := { valid : bool; error : option string }.

Definition ok : ValidationResult := {| valid := true; error := None |}.
Definition invalid (msg : string) : ValidationResult :=
  {| valid := false; error := Some msg |}.

Definition MAX_N : nat := 100.
Definition MAX_D : nat := 20.
Definition MAX_M : nat := 20.
Definition MAX_ITER : Q := 1000.
Definition MAX_POWER : Q := 10000.

Definition ofNat (n : nat) : Q := inject_Z (Z.of_nat n).

(** [params.key]: the last binding of the key, [None] for [undefined]. *)
Fixpoint lookupField (fields : list (string * JSON)) (key : string)
  : option JSON :=
  match fields with
  | [] => None
  | (k, v) :: rest =>
      match lookupField rest key with
      | Some v' => Some v'
      | None => if String.eqb k key then Some v else None
      end
  end.

Definition property (body : JSON) (key : string) : option JSON :=
  match body with
  | JObject fields => lookupField fields key
  | _ => None
  end.

(** [!body || typeof body !== 'object'] *)
Definition notAnObject (body : JSON) : bool :=
  match body with
  | JArray _ | JObject _ => false
  | _ => true
  end.

Section Validation.

#[local] Open Scope string_scope.

(** The text a template literal produces for a number. *)
Variable toString : Q -> string.

Definition validateNumber (value : option JSON) (name : string)
  (min max : Q) : ValidationResult :=
  match value with
  | Some (JNumber v) =>
      if Qlt_le_dec v min then
        invalid (name ++ " must be between " ++ toString min ++ " and "
                 ++ toString max)
      else if Qlt_le_dec max v then
        invalid (name ++ " must be between " ++ toString min ++ " and "
                 ++ toString max)
      else ok
  | _ => invalid (name ++ " must be a finite number")
  end.

Definition validateArray (arr : option JSON) (name : string)
  (maxLength : nat) : ValidationResult :=
  match arr with
  | Some (JArray items) =>
      if (maxLength <? length items)%nat then
        invalid (name ++ " exceeds maximum length of "
                 ++ toString (ofNat maxLength))
      else ok
  | _ => invalid (name ++ " must be an array")
  end.

(** [for (const check of checks) if (!check.valid) return check] *)
Fixpoint firstInvalid (checks : list ValidationResult)
  : option ValidationResult :=
  match checks with
  | [] => None
  | check :: rest => if valid check then firstInvalid rest else Some check
  end.

(** The string is one of the listed literals. *)
Definition includes (allowed : list string) (value : option JSON) : bool :=
  match value with
  | Some (JString s) => existsb (String.eqb s) allowed
  | _ => false
  end.

(** The rows of a gain matrix: [Array.isArray], the bound on the number
    of rows, then [validateArray] on every row. *)
Definition validateMatrix (value : option JSON) (name who : string)
  (maxRows : nat) : ValidationResult :=
  match value with
  | Some (JArray rows) =>
      if (maxRows <? length rows)%nat then
        invalid (name ++ " exceeds maximum of " ++ toString (ofNat maxRows)
                 ++ " " ++ who)
      else
        match
          firstInvalid
            (map (fun row => validateArray (Some row) (name ++ " row") MAX_N)
               rows)
        with
        | Some rowCheck => rowCheck
        | None => ok
        end
  | _ => invalid (name ++ " must be a 2D array")
  end.

Definition validateEquilibriumParams (body : JSON) : ValidationResult :=
  if notAnObject body then invalid "Request body must be an object"
  else
    let params := property body in
    let checks :=
      [ validateNumber (params "N") "N" 1 (ofNat MAX_N);
        validateNumber (params "D") "D" 1 (ofNat MAX_D);
        validateNumber (params "M") "M" 1 (ofNat MAX_M);
        validateNumber (params "sigma2") "sigma2" 0.0001 MAX_POWER;
        validateNumber (params "tau") "tau" 0 MAX_POWER;
        validateNumber (params "alpha") "alpha" 0.01 1;
        validateNumber (params "maxIter") "maxIter" 1 MAX_ITER;
        validateNumber (params "epsilon") "epsilon" 0.0000001 1;
        validateNumber (params "topK") "topK" 1 (ofNat MAX_N) ] in
    match firstInvalid checks with
    | Some check => check
    | None =>
        let ptCheck := validateArray (params "PT") "PT" MAX_D in
        if negb (valid ptCheck) then ptCheck
        else
          let pjCheck := validateArray (params "PJ") "PJ" MAX_M in
          if negb (valid pjCheck) then pjCheck
          else
            let hCheck := validateMatrix (params "h") "h" "defenders" MAX_D in
            if negb (valid hCheck) then hCheck
            else
              let gCheck :=
                validateMatrix (params "g") "g" "attackers" MAX_M in
              if negb (valid gCheck) then gCheck
              else
                let configCheck :=
                  validateArray (params "channelConfig") "channelConfig"
                    MAX_N in
                if negb (valid configCheck) then configCheck
                else if negb (includes
                                ["J1_uniform"; "J2_topK"; "J3_optimization"]
                                (params "jammerStrategy"))
                then invalid
                       "jammerStrategy must be J1_uniform, J2_topK, or J3_optimization"
                else if negb (includes ["deception"; "oracle"]
                                (params "jammerObjective"))
                then invalid "jammerObjective must be deception or oracle"
                else if negb (includes ["coordinated"; "independent"]
                                (params "attackerMode"))
                then invalid
                       "attackerMode must be coordinated or independent"
                else ok
    end.

(** ** The equilibrium branch of the request handler *)

Inductive ResponseBody :=
| ErrorBody (error : option string)
| ResultBody (result : EquilibriumResult).

Record Response := { status : nat; body : ResponseBody }.

(** [runEquilibrium(body as EquilibriumParams)]: the cast is unchecked,
    the engine reads the request body as it came; [None] is an
    exception, caught by the handler. *)
Variable runEquilibriumOn : JSON -> option EquilibriumResult.

Definition serveEquilibrium (body : JSON) : Response :=
  let validation := validateEquilibriumParams body in
  if negb (valid validation)
  then {| status := 400; body := ErrorBody (error validation) |}
  else
    match runEquilibriumOn body with
    | Some result => {| status := 200; body := ResultBody result |}
    | None =>
        {| status := 400;
           body :=
             ErrorBody
               (Some "Simulation failed. Please check your input parameters.") |}
    end.

End Validation.

(** ** Shapes, and a sample run *)

Definition rowsOfLength (n : nat) (a : list (list R)) : Prop :=
  Forall (fun row => length row = n) a.

(** One defender with two real and two decoy channels against one
    uniform jammer that cannot tell them apart. *)
Definition sampleParams : EquilibriumParams :=
  {| N := 4; D := 1; M := 1;
     PT := [10]; PJ := [10];
     sigma2 := 1; tau := 0.2;
     h := [[1; 1; 1; 1]]; g := [[1; 1; 1; 1]];
     alpha := 0.3; maxIter := 100; epsilon := 0.001;
     channelConfig :=
       [ {| type := real; owner := 0 |}; {| type := real; owner := 0 |};
         {| type := decoy; owner := 0 |}; {| type := decoy; owner := 0 |} ];
     jammerStrategy := J1_uniform;
     jammerObjective := deception;
     attackerMode := coordinated;
     topK := 3;
     randomInit := false;
     seed := None |}.

(** A generator that always returns one half. *)
Definition constantRandom : option Z -> nat -> R := fun _ _ => 0.5.

(** ** The vocabulary of the strategy comparison *)

(** The same parameter object with another jammer strategy. *)
Definition withStrategy (params : EquilibriumParams) (s : JammerStrategy)
  : EquilibriumParams :=
  {| N := N params; D := D params; M := M params;
     PT := PT params; PJ := PJ params;
     sigma2 := sigma2 params; tau := tau params;
     h := h params; g := g params;
     alpha := alpha params; maxIter := maxIter params;
     epsilon := epsilon params;
     channelConfig := channelConfig params;
     jammerStrategy := s;
     jammerObjective := jammerObjective params;
     attackerMode := attackerMode params;
     topK := topK params;
     randomInit := randomInit params;
     seed := seed params |}.

(** The channels a jammer may target: the active ones, only the real
    ones among them under the oracle objective. *)
Definition eligibleSet (params : EquilibriumParams) (activeSet : list nat)
  : list nat :=
  List.filter (fun i => negb (skippedByObjective params i)) activeSet.


(** The budget of attacker [m] split equally over the eligible set,
    zero elsewhere. *)
Definition equalSplit (params : EquilibriumParams) (m : nat)
  (activeSet : list nat) : list R :=
  map
    (fun i =>
       if has (eligibleSet params activeSet) i
       then nth m (PJ params) 0 / INR (length (eligibleSet params activeSet))
       else 0)
    (seq 0 (N params)).

(** ** Attacker utility as the specification words it *)

(** The defender utility of [d] summed over the owned channels selected
    by [inSum]: [log(1 + SINR_i)] per channel, nothing for a channel
    without power. *)
Definition specDefenderUtility (inSum : nat -> bool) (d : nat)
  (x y : list (list R)) (params : EquilibriumParams) : R :=
  sumR
    (map
       (fun i =>
          if (owner (config params i) =? d)%nat && inSum i
          then
            if Rle_dec (at2 x d i) 0 then 0
            else ln (1 + at2 x d i * at2 (h params) d i
                         / totalInterference y params i)
          else 0)
       (seq 0 (N params))).

(** The negative of the sum over all defenders: over real channels for
    the oracle objective, over exactly the active channels for the
    deception objective. *)
Definition specAttackerUtility (m : nat) (x y : list (list R))
  (params : EquilibriumParams) (activeSet : list nat) : R :=
  - sumR
      (map
         (fun d =>
            match jammerObjective params with
            | oracle =>
                specDefenderUtility
                  (fun i => bool_decide (type (config params i) = real))
                  d x y params
            | deception => specDefenderUtility (has activeSet) d x y params
            end)
         (seq 0 (D params))).

(** One defender whose single real channel carries less power than the
    sensing threshold, against a deception jammer. *)
Definition belowThresholdParams : EquilibriumParams :=
  {| N := 1; D := 1; M := 1;
     PT := [1]; PJ := [1];
     sigma2 := 1; tau := 2;
     h := [[1]]; g := [[1]];
     alpha := 0.5; maxIter := 10; epsilon := 0.001;
     channelConfig := [ {| type := real; owner := 0 |} ];
     jammerStrategy := J1_uniform;
     jammerObjective := deception;
     attackerMode := coordinated;
     topK := 1;
     randomInit := false;
     seed := None |}.

(** ** A request with a negative defender budget *)

Definition negativeBudgetRequest : JSON :=
  JObject
    [ ("N", JNumber 1); ("D", JNumber 1); ("M", JNumber 1);
      ("PT", JArray [JNumber (-1)]);
      ("PJ", JArray [JNumber 10]);
      ("sigma2", JNumber 1); ("tau", JNumber 0.2);
      ("h", JArray [JArray [JNumber 1]]);
      ("g", JArray [JArray [JNumber 1]]);
      ("alpha", JNumber 0.3); ("maxIter", JNumber 100);
      ("epsilon", JNumber 0.001);
      ("channelConfig",
        JArray [JObject [("type", JString "real"); ("owner", JNumber 0)]]);
      ("jammerStrategy", JString "J1_uniform");
      ("jammerObjective", JString "deception");
      ("attackerMode", JString "coordinated");
      ("topK", JNumber 1);
      ("randomInit", JBool false) ]%string.

(** ** Valid parameter objects *)

Definition nonneg (l : list R) : Prop := Forall (fun v => 0 <= v) l.

Definition nonnegMatrix (a : list (list R)) : Prop := Forall nonneg a.


(** The ranges of the input fields: positive counts, non-negative
    budgets and gains of the stated dimensions, positive noise, a
    non-negative threshold, damping in (0, 1], owners below [D]. *)
Record validParams (params : EquilibriumParams) : Prop := {
  valid_N : (1 <= N params)%nat;
  valid_D : (1 <= D params)%nat;
  valid_M : (1 <= M params)%nat;
  valid_PT_length : length (PT params) = D params;
  valid_PT : nonneg (PT params);
  valid_PJ_length : length (PJ params) = M params;
  valid_PJ : nonneg (PJ params);
  valid_sigma2 : 0 < sigma2 params;
  valid_tau : 0 <= tau params;
  valid_h_length : length (h params) = D params;
  valid_h_rows : rowsOfLength (N params) (h params);
  valid_h : nonnegMatrix (h params);
  valid_g_length : length (g params) = M params;
  valid_g_rows : rowsOfLength (N params) (g params);
  valid_g : nonnegMatrix (g params);
  valid_alpha : 0 < alpha params <= 1;
  valid_maxIter : (1 <= maxIter params)%nat;
  valid_epsilon : 0 < epsilon params;
  valid_channelConfig_length : length (channelConfig params) = N params;
  valid_owner : Forall (fun c => (owner c < D params)%nat) (channelConfig params);
  valid_topK : (1 <= topK params)%nat
}.

(** The generators return numbers of the unit interval. *)
Definition unitInterval (random : option Z -> nat -> R) : Prop :=
  forall s k, 0 <= random s k <= 1.

(** Two defenders, the first one without any power budget. *)
Definition silentDefenderParams : EquilibriumParams :=
  {| N := 2; D := 2; M := 1;
     PT := [0; 10]; PJ := [10];
     sigma2 := 1; tau := 0.2;
     h := [[1; 1]; [1; 1]]; g := [[1; 1]];
     alpha := 0.3; maxIter := 100; epsilon := 0.001;
     channelConfig :=
       [ {| type := real; owner := 0 |}; {| type := real; owner := 1 |} ];
     jammerStrategy := J2_topK;
     jammerObjective := oracle;
     attackerMode := coordinated;
     topK := 1;
     randomInit := false;
     seed := None |}.

(** One defender that owns a single decoy channel. *)
Definition decoyOnlyParams : EquilibriumParams :=
  {| N := 1; D := 1; M := 1;
     PT := [10]; PJ := [10];
     sigma2 := 1; tau := 1;
     h := [[1]]; g := [[1]];
     alpha := 0.5; maxIter := 100; epsilon := 0.001;
     channelConfig := [ {| type := decoy; owner := 0 |} ];
     jammerStrategy := J1_uniform;
     jammerObjective := deception;
     attackerMode := coordinated;
     topK := 1;
     randomInit := false;
     seed := None |}.

(** Defender [d] owns at least one real channel. *)
Definition ownsRealChannel (params : EquilibriumParams) (d : nat) : Prop :=
  exists i, (i < N params)%nat
            /\ owner (config params i) = d
            /\ type (config params i) = real.

(** ** The vocabulary of the metrics *)

(** The jamming power all attackers put on channel [i]. *)
Definition jamPower (y : list (list R)) (params : EquilibriumParams) (i : nat)
  : R :=
  fold_left (fun s m => s + at2 y m i) (seq 0 (M params)) 0.

(** Channel [i] is of type [t]. *)
Definition hasType (params : EquilibriumParams) (t : ChannelType) (i : nat)
  : bool :=
  bool_decide (type (config params i) = t).

(** The defender power on channel [i], read from its owner's row. *)
Definition ownerPower (x : list (list R)) (params : EquilibriumParams)
  (i : nat) : R :=
  at2 x (owner (config params i)) i.

(** The largest absolute change between two rows, over the first [N]
    slots; zero when [N] is zero. *)
Definition largestChange (params : EquilibriumParams) (old new : list R) : R :=
  fold_left Rmax (deltas params old new) 0.

(** ** What a validator can establish about a request *)

(** Field [key] is a finite number between [lo] and [hi]. *)
Definition numberIn (body : JSON) (key : string) (lo hi : Q) : Prop :=
  exists q, property body key = Some (JNumber q) /\ (lo <= q)%Q /\ (q <= hi)%Q.

(** Field [key] is an array of at most [maxLength] items. *)
Definition arrayUpTo (body : JSON) (key : string) (maxLength : nat) : Prop :=
  exists items, property body key = Some (JArray items)
                /\ (length items <= maxLength)%nat.

(** Field [key] is an array of at most [maxRows] arrays of at most
    [maxLength] items each. *)
Definition matrixUpTo (body : JSON) (key : string) (maxRows maxLength : nat)
  : Prop :=
  exists rows, property body key = Some (JArray rows)
               /\ (length rows <= maxRows)%nat
               /\ Forall (fun row => exists items,
                            row = JArray items
                            /\ (length items <= maxLength)%nat) rows.

(** Field [key] is one of the listed strings. *)
Definition stringIn (body : JSON) (key : string) (allowed : list string)
  : Prop :=
  exists s, property body key = Some (JString s) /\ In s allowed.

(** * The single-run simulation *)

(** ** Its data *)

Inductive DefenderPolicy := D1 | D2 | D3.
Inductive JammerMode := J1 | J2 | J3.
Inductive SweepType := SweepND | SweepTau | SweepPJ.

(** The parameter object of a run, as its interface declares it: [h]
    and [g] are present. A request body without them passes
    [validateSimulationParams], whose checks of [h] and [g] are
    conditional, and then makes [runSimulation] raise a [TypeError] at
    its first read [h[i]]; that outcome is outside this record. *)
Module Sim.
Record SimulationParams := {
  N : nat;
  NR : nat;
  ND : nat;
  PT : R;
  PJ : R;
  sigma2 : R;
  tau : R;
  h : list R;
  g : list R;
  defenderPolicy : option DefenderPolicy;
  jammerMode : option JammerMode;
  topK : option nat;
  B : option (list R);
  seed : option Z
}.

Record SingleRunResult := {
  x : list R;
  y : list R;
  channelTypes : list ChannelType;
  activeSet : list nat;
  rates : list R;
  U_real : R;
  U_jammer : R;
  sinr : list R;
  powerOnDecoys : R;
  jammingPerActive : R
}.
End Sim.
Abbreviation SimulationParams := Sim.SimulationParams.
Abbreviation SingleRunResult := Sim.SingleRunResult.

(** The two [throw new Error(...)] of [runSimulation], with the numbers
    their messages quote. *)
Inductive SimulationError :=
| InvalidND (ND : nat) (available : Z)
| InvalidConfiguration (decoyPower PT : R).

Inductive Outcome :=
| Thrown (e : SimulationError)
| Returned (result : SingleRunResult).

(** ** Rates *)

Definition calculateRate (x_i y_i h_i g_i sigma2 B_i : R) : R :=
  if Rle_dec x_i 0 then 0
  else
    let sinr := x_i * h_i / (sigma2 + y_i * g_i) in
    B_i * log2 (1 + sinr).

Definition calculateSINR (x_i y_i h_i g_i sigma2 : R) : R :=
  if Rle_dec x_i 0 then 0
  else x_i * h_i / (sigma2 + y_i * g_i).

(** ** Defender policies *)

(** [for (const i of indices) a[i] = v]. The policies are called by
    [runSimulation] only when [NR + ND <= N], so every write is in
    range. *)
Definition assignAll {A} (indices : list nat) (v : nat -> A) (a : list A)
  : list A :=
  fold_left (fun acc i => <[i := v i]> acc) indices a.

Definition defenderPolicyD1 (params : SimulationParams)
  : list R * list ChannelType :=
  let x := replicate (Sim.N params) 0 in
  let channelTypes := replicate (Sim.N params) inactive in
  let realIndices := seq 0 (Sim.NR params) in
  let decoyIndices := seq (Sim.NR params) (Sim.ND params) in
  let decoyPower := Sim.tau params in
  let totalDecoyPower := INR (Sim.ND params) * decoyPower in
  let remainingPower := Rmax 0 (Sim.PT params - totalDecoyPower) in
  let realPower :=
    if (0 <? Sim.NR params)%nat then remainingPower / INR (Sim.NR params)
    else 0 in
  let x := assignAll realIndices (fun _ => realPower) x in
  let channelTypes := assignAll realIndices (fun _ => real) channelTypes in
  let x := assignAll decoyIndices (fun _ => decoyPower) x in
  let channelTypes := assignAll decoyIndices (fun _ => decoy) channelTypes in
  (x, channelTypes).

Definition defenderPolicyD2 (params : SimulationParams)
  : list R * list ChannelType :=
  let x := replicate (Sim.N params) 0 in
  let channelTypes := replicate (Sim.N params) inactive in
  let totalActive := (Sim.NR params + Sim.ND params)%nat in
  let powerPerChannel :=
    if (0 <? totalActive)%nat then Sim.PT params / INR totalActive else 0 in
  let realIndices := seq 0 (Sim.NR params) in
  let decoyIndices := seq (Sim.NR params) (Sim.ND params) in
  let x := assignAll realIndices (fun _ => powerPerChannel) x in
  let channelTypes := assignAll realIndices (fun _ => real) channelTypes in
  let x := assignAll decoyIndices (fun _ => powerPerChannel) x in
  let channelTypes := assignAll decoyIndices (fun _ => decoy) channelTypes in
  (x, channelTypes).

Definition defenderPolicyD3 (params : SimulationParams)
  : list R * list ChannelType :=
  let x := replicate (Sim.N params) 0 in
  let channelTypes := replicate (Sim.N params) inactive in
  let realIndices := seq 0 (Sim.NR params) in
  let decoyIndices := seq (Sim.NR params) (Sim.ND params) in
  let x := assignAll decoyIndices (fun _ => Sim.tau params) x in
  let channelTypes := assignAll decoyIndices (fun _ => decoy) channelTypes in
  let totalDecoyPower := INR (Sim.ND params) * Sim.tau params in
  let remainingPower := Rmax 0 (Sim.PT params - totalDecoyPower) in
  let totalH :=
    fold_left (fun sum i => sum + nth i (Sim.h params) 0) realIndices 0 in
  let x :=
    assignAll realIndices
      (fun i =>
         if Rgt_dec totalH 0
         then nth i (Sim.h params) 0 / totalH * remainingPower
         else remainingPower / INR (Sim.NR params))
      x in
  let channelTypes := assignAll realIndices (fun _ => real) channelTypes in
  (x, channelTypes).

(** ** Jammer modes *)

(** [x.map((xi, i) => xi >= tau ? i : -1).filter(i => i >= 0)] *)
Definition sensedSet (x : list R) (tau : R) : list nat :=
  List.filter (fun i => if Rge_dec (nth i x 0) tau then true else false)
    (seq 0 (length x)).

Definition jammerModeJ1 (x : list R) (tau PJ : R) (N : nat) : list R :=
  let y := replicate N 0 in
  let activeSet := sensedSet x tau in
  if (length activeSet =? 0)%nat then y
  else
    let powerPerChannel := PJ / INR (length activeSet) in
    assignAll activeSet (fun _ => powerPerChannel) y.

Definition jammerModeJ2 (x g : list R) (tau PJ : R) (N topK : nat) : list R :=
  let y := replicate N 0 in
  let activeSet := sensedSet x tau in
  if (length activeSet =? 0)%nat then y
  else
    let scored :=
      map (fun i => {| index := i; score := nth i x 0 * nth i g 0 |})
        activeSet in
    let scored := sortByScore scored in
    let targets := take (Nat.min topK (length scored)) scored in
    let totalScore := fold_left (fun sum t => sum + score t) targets 0 in
    fold_left
      (fun y t =>
         <[index t :=
             if Rgt_dec totalScore 0 then score t / totalScore * PJ
             else PJ / INR (length targets)]> y)
      targets y.

(** One round of the inner loop of [jammerModeJ3]: [None] at the
    [break]. *)
Definition gradientRound (x h g : list R) (PJ sigma2 : R) (N : nat)
  (B : list R) (activeSet : list nat) (y : list R) : option (list R) :=
  let gradients :=
    assignAll activeSet
      (fun i =>
         let denom := sigma2 + nth i y 0 * nth i g 0 in
         let sinr := nth i x 0 * nth i h 0 / denom in
         nth i B 0 * nth i x 0 * nth i h 0 * nth i g 0
         / (denom * denom * ln 2 * (1 + sinr)))
      (replicate N 0) in
  let gradSum := fold_left (fun s gi => s + Rmax 0 gi) gradients 0 in
  if Rle_dec gradSum 0 then None
  else
    Some (assignAll activeSet (fun i => nth i gradients 0 / gradSum * PJ) y).

(** [for (let iter = 0; iter < iterations; iter++)] with
    [remaining = iterations - iter]. *)
Fixpoint gradientRounds (remaining : nat) (x h g : list R) (PJ sigma2 : R)
  (N : nat) (B : list R) (activeSet : list nat) (y : list R) : list R :=
  match remaining with
  | O => y
  | S remaining' =>
      match gradientRound x h g PJ sigma2 N B activeSet y with
      | None => y
      | Some y' => gradientRounds remaining' x h g PJ sigma2 N B activeSet y'
      end
  end.

Definition jammerModeJ3 (x h g : list R) (tau PJ sigma2 : R) (N : nat)
  (B : list R) : list R :=
  let y := replicate N 0 in
  let activeSet := sensedSet x tau in
  if (length activeSet =? 0)%nat then y
  else
    let y := assignAll activeSet (fun _ => PJ / INR (length activeSet)) y in
    let iterations := 100%nat in
    gradientRounds iterations x h g PJ sigma2 N B activeSet y.

(** ** One run *)

(** [arr.reduce((sum, type, i) => type === t ? sum + v[i] : sum, 0)] over
    the channel types. *)
Definition sumOverType (t : ChannelType) (channelTypes : list ChannelType)
  (v : list R) : R :=
  fold_left
    (fun sum it =>
       if bool_decide (snd it = t) then sum + nth (fst it) v 0 else sum)
    (combine (seq 0 (length channelTypes)) channelTypes) 0.

Definition runSimulation (params : SimulationParams) : Outcome :=
  let N := Sim.N params in
  let NR := Sim.NR params in
  let ND := Sim.ND params in
  let topK := default 3%nat (Sim.topK params) in
  let B := default (replicate N 1) (Sim.B params) in
  if (Z.of_nat N - Z.of_nat NR <? Z.of_nat ND)%Z
  then Thrown (InvalidND ND (Z.of_nat N - Z.of_nat NR))
  else if Rgt_dec (INR ND * Sim.tau params) (Sim.PT params)
  then Thrown (InvalidConfiguration (INR ND * Sim.tau params) (Sim.PT params))
  else
    let result :=
      match Sim.defenderPolicy params with
      | Some D1 => defenderPolicyD1 params
      | Some D2 => defenderPolicyD2 params
      | Some D3 => defenderPolicyD3 params
      | None => defenderPolicyD1 params
      end in
    let x := fst result in
    let channelTypes := snd result in
    let y :=
      match Sim.jammerMode params with
      | Some J1 => jammerModeJ1 x (Sim.tau params) (Sim.PJ params) N
      | Some J2 =>
          jammerModeJ2 x (Sim.g params) (Sim.tau params) (Sim.PJ params) N topK
      | Some J3 =>
          jammerModeJ3 x (Sim.h params) (Sim.g params) (Sim.tau params)
            (Sim.PJ params) (Sim.sigma2 params) N B
      | None => jammerModeJ1 x (Sim.tau params) (Sim.PJ params) N
      end in
    let activeSet := sensedSet x (Sim.tau params) in
    let rates :=
      imap
        (fun i xi =>
           calculateRate xi (nth i y 0) (nth i (Sim.h params) 0)
             (nth i (Sim.g params) 0) (Sim.sigma2 params) (nth i B 0))
        x in
    let sinr :=
      imap
        (fun i xi =>
           calculateSINR xi (nth i y 0) (nth i (Sim.h params) 0)
             (nth i (Sim.g params) 0) (Sim.sigma2 params))
        x in
    let U_real := sumOverType real channelTypes rates in
    let U_jammer := fold_left (fun sum i => sum + nth i rates 0) activeSet 0 in
    let powerOnDecoys := sumOverType decoy channelTypes x in
    let jammingPerActive :=
      if (0 <? length activeSet)%nat
      then Sim.PJ params / INR (length activeSet) else 0 in
    Returned
      {| Sim.x := x;
         Sim.y := y;
         Sim.channelTypes := channelTypes;
         Sim.activeSet := activeSet;
         Sim.rates := rates;
         Sim.U_real := U_real;
         Sim.U_jammer := U_jammer;
         Sim.sinr := sinr;
         Sim.powerOnDecoys := powerOnDecoys;
         Sim.jammingPerActive := jammingPerActive |}.

(** ** Sweeps over the number of decoys *)

Inductive AxisLabel := DecoyChannelsLabel | ThresholdLabel | JammerBudgetLabel.

Record Heatmap := {
  heat_x : list nat;
  heat_y : list R;
  heat_z : list (list R);
  xLabel : AxisLabel;
  yLabel : AxisLabel
}.

Record SweepParams := {
  baseParams : SimulationParams;
  NDRange : list nat;
  sweepType : option SweepType;
  secondaryRange : option (list R)
}.

(** [bestU_real] starts at [-Infinity], which is [None] here. *)
Record SweepResult := {
  NDValues : list nat;
  U_realValues : list R;
  bestND : nat;
  bestU_real : option R;
  heatmapData : option Heatmap
}.

(** [{ ...baseParams, ND }] *)
Definition withND (p : SimulationParams) (ND : nat) : SimulationParams :=
  {| Sim.N := Sim.N p; Sim.NR := Sim.NR p; Sim.ND := ND;
     Sim.PT := Sim.PT p; Sim.PJ := Sim.PJ p;
     Sim.sigma2 := Sim.sigma2 p; Sim.tau := Sim.tau p;
     Sim.h := Sim.h p; Sim.g := Sim.g p;
     Sim.defenderPolicy := Sim.defenderPolicy p;
     Sim.jammerMode := Sim.jammerMode p;
     Sim.topK := Sim.topK p; Sim.B := Sim.B p; Sim.seed := Sim.seed p |}.

(** [{ ...baseParams, ND, tau: secondary }] *)
Definition withNDTau (p : SimulationParams) (ND : nat) (tau : R)
  : SimulationParams :=
  {| Sim.N := Sim.N p; Sim.NR := Sim.NR p; Sim.ND := ND;
     Sim.PT := Sim.PT p; Sim.PJ := Sim.PJ p;
     Sim.sigma2 := Sim.sigma2 p; Sim.tau := tau;
     Sim.h := Sim.h p; Sim.g := Sim.g p;
     Sim.defenderPolicy := Sim.defenderPolicy p;
     Sim.jammerMode := Sim.jammerMode p;
     Sim.topK := Sim.topK p; Sim.B := Sim.B p; Sim.seed := Sim.seed p |}.

(** [{ ...baseParams, ND, PJ: secondary }] *)
Definition withNDPJ (p : SimulationParams) (ND : nat) (PJ : R)
  : SimulationParams :=
  {| Sim.N := Sim.N p; Sim.NR := Sim.NR p; Sim.ND := ND;
     Sim.PT := Sim.PT p; Sim.PJ := PJ;
     Sim.sigma2 := Sim.sigma2 p; Sim.tau := Sim.tau p;
     Sim.h := Sim.h p; Sim.g := Sim.g p;
     Sim.defenderPolicy := Sim.defenderPolicy p;
     Sim.jammerMode := Sim.jammerMode p;
     Sim.topK := Sim.topK p; Sim.B := Sim.B p; Sim.seed := Sim.seed p |}.

(** [result.U_real > bestU_real] *)
Definition beats (u : R) (best : option R) : bool :=
  match best with
  | None => true
  | Some b => if Rgt_dec u b then true else false
  end.

(** The running best of a sweep: [(bestND, bestU_real)]. *)
Definition Best : Type := nat * option R.

(** The body of a [try { ... } catch { ... }] around one run: the value
    pushed and the best afterwards. *)
Definition tryRun (params : SimulationParams) (ND : nat) (best : Best)
  : R * Best :=
  match runSimulation params with
  | Returned result =>
      if beats (Sim.U_real result) (snd best)
      then (Sim.U_real result, (ND, Some (Sim.U_real result)))
      else (Sim.U_real result, best)
  | Thrown _ => (0, best)
  end.

(** The first branch of [runSweep]: one run per [ND]. *)
Definition sweepND (base : SimulationParams) (NDRange : list nat)
  : list nat * list R * Best :=
  fold_left
    (fun st ND =>
       let '(NDValues, U_realValues, best) := st in
       let '(u, best) := tryRun (withND base ND) ND best in
       (NDValues ++ [ND], U_realValues ++ [u], best))
    NDRange ([], [], (0%nat, None)).

(** One row of the heatmap. *)
Definition heatmapRow (base : SimulationParams) (overTau : bool)
  (NDRange : list nat) (secondary : R) (best : Best) : list R * Best :=
  fold_left
    (fun st ND =>
       let '(row, best) := st in
       let params :=
         if overTau then withNDTau base ND secondary
         else withNDPJ base ND secondary in
       let '(u, best) := tryRun params ND best in
       (row ++ [u], best))
    NDRange ([], best).

(** The series pushed after the heatmap: the best is left alone. *)
Definition plainSeries (base : SimulationParams) (NDRange : list nat)
  : list nat * list R :=
  fold_left
    (fun st ND =>
       match runSimulation (withND base ND) with
       | Returned result =>
           (fst st ++ [ND], snd st ++ [Sim.U_real result])
       | Thrown _ => (fst st ++ [ND], snd st ++ [0])
       end)
    NDRange ([], []).

Definition runSweep (sweepParams : SweepParams) : SweepResult :=
  let base := baseParams sweepParams in
  let sweepType := default SweepND (sweepType sweepParams) in
  match sweepType, secondaryRange sweepParams with
  | SweepND, None =>
      let '(NDValues, U_realValues, best) :=
        sweepND base (NDRange sweepParams) in
      {| NDValues := NDValues;
         U_realValues := U_realValues;
         bestND := fst best;
         bestU_real := snd best;
         heatmapData := None |}
  | _, Some secondaryRange =>
      let overTau :=
        match sweepType with SweepTau => true | _ => false end in
      let '(z, best) :=
        fold_left
          (fun st secondary =>
             let '(row, best) :=
               heatmapRow base overTau (NDRange sweepParams) secondary
                 (snd st) in
             (fst st ++ [row], best))
          secondaryRange ([], (0%nat, None)) in
      let '(NDValues, U_realValues) := plainSeries base (NDRange sweepParams) in
      {| NDValues := NDValues;
         U_realValues := U_realValues;
         bestND := fst best;
         bestU_real := snd best;
         heatmapData :=
           Some {| heat_x := NDRange sweepParams;
                   heat_y := secondaryRange;
                   heat_z := z;
                   xLabel := DecoyChannelsLabel;
                   yLabel :=
                     if overTau then ThresholdLabel else JammerBudgetLabel |} |}
  | _, None =>
      {| NDValues := [];
         U_realValues := [];
         bestND := 0;
         bestU_real := None;
         heatmapData := None |}
  end.

(** * The other validators and the request handler *)

(** [typeof val !== 'number' || !Number.isFinite(val) || val < 0],
    negated. *)
Definition nonNegativeNumber (val : JSON) : bool :=
  match val with
  | JNumber q => if Qlt_le_dec q 0 then false else true
  | _ => false
  end.

Section Handler.

#[local] Open Scope string_scope.

Variable toString : Q -> string.

(** The block validating [params.h], and again [params.g], when the
    field is present. *)
Definition validateGains (value : option JSON) (name : string)
  : ValidationResult :=
  match value with
  | None => ok
  | Some v =>
      let arrCheck := validateArray toString (Some v) name MAX_N in
      if negb (valid arrCheck) then arrCheck
      else
        match v with
        | JArray items =>
            if forallb nonNegativeNumber items then ok
            else invalid (name ++ " array must contain non-negative numbers")
        | _ => ok
        end
  end.

(** [if (field !== undefined) if (!allowed.includes(field)) return error] *)
Definition validateOptionalChoice (allowed : list string)
  (value : option JSON) (msg : string) : ValidationResult :=
  match value with
  | None => ok
  | Some _ => if includes allowed value then ok else invalid msg
  end.

Definition validateSimulationParams (body : JSON) : ValidationResult :=
  if notAnObject body then invalid "Request body must be an object"
  else
    let params := property body in
    let checks :=
      [ validateNumber toString (params "N") "N" 1 (ofNat MAX_N);
        validateNumber toString (params "NR") "NR" 0 (ofNat MAX_N);
        validateNumber toString (params "ND") "ND" 0 (ofNat MAX_N);
        validateNumber toString (params "PT") "PT" 0 MAX_POWER;
        validateNumber toString (params "PJ") "PJ" 0 MAX_POWER;
        validateNumber toString (params "sigma2") "sigma2" 0.0001 MAX_POWER;
        validateNumber toString (params "tau") "tau" 0 MAX_POWER ] in
    match firstInvalid checks with
    | Some check => check
    | None =>
        let hCheck := validateGains (params "h") "h" in
        if negb (valid hCheck) then hCheck
        else
          let gCheck := validateGains (params "g") "g" in
          if negb (valid gCheck) then gCheck
          else
            let policyCheck :=
              validateOptionalChoice ["D1"; "D2"; "D3"]
                (params "defenderPolicy")
                "defenderPolicy must be D1, D2, or D3" in
            if negb (valid policyCheck) then policyCheck
            else
              validateOptionalChoice ["J1"; "J2"; "J3"] (params "jammerMode")
                "jammerMode must be J1, J2, or J3"
    end.

Definition MAX_SWEEP_POINTS : nat := 50.

Definition validateSweepParams (body : JSON) : ValidationResult :=
  if notAnObject body then invalid "Request body must be an object"
  else
    let params := property body in
    if match params "baseParams" with
       | Some b => notAnObject b
       | None => true
       end
    then invalid "baseParams is required and must be an object"
    else
      let ndRangeCheck :=
        validateArray toString (params "NDRange") "NDRange" MAX_SWEEP_POINTS in
      if negb (valid ndRangeCheck) then ndRangeCheck
      else
        match params "secondaryRange" with
        | None => ok
        | Some s =>
            let secCheck :=
              validateArray toString (Some s) "secondaryRange"
                MAX_SWEEP_POINTS in
            if negb (valid secCheck) then secCheck else ok
        end.

(** A request as the handler sees it: the method, the last segment of
    the path, and the parsed body ([None] when [req.json()] fails). *)
Record Request := {
  method : string;
  path : string;
  json : option JSON
}.

Inductive Content :=
| PlainText (text : string)
| ErrorObject (error : option string)
| SimulationJson (result : SingleRunResult)
| SweepJson (result : SweepResult)
| EquilibriumJson (result : EquilibriumResult).

Record Reply := { statusCode : nat; content : Content }.

(** The engines applied to a request body through the unchecked casts
    of the handler; [None] is an exception, caught by the outer
    [try]. *)
Variable runSimulationOn : JSON -> option SingleRunResult.
Variable runSweepOn : JSON -> option SweepResult.
Variable runEquilibriumOn : JSON -> option EquilibriumResult.

Definition failedReply : Reply :=
  {| statusCode := 400;
     content :=
       ErrorObject
         (Some "Simulation failed. Please check your input parameters.") |}.

(** One branch of the handler: validate, then run. *)
Definition answer {T} (validation : ValidationResult) (run : option T)
  (wrap : T -> Content) : Reply :=
  if negb (valid validation)
  then {| statusCode := 400; content := ErrorObject (error validation) |}
  else
    match run with
    | Some result => {| statusCode := 200; content := wrap result |}
    | None => failedReply
    end.

Definition serve (req : Request) : Reply :=
  if String.eqb (method req) "OPTIONS"
  then {| statusCode := 200; content := PlainText "ok" |}
  else if negb (String.eqb (method req) "POST")
  then {| statusCode := 405;
          content := ErrorObject (Some "Method not allowed") |}
  else
    match json req with
    | None =>
        {| statusCode := 400;
           content := ErrorObject (Some "Invalid JSON in request body") |}
    | Some body =>
        if String.eqb (path req) "run" || String.eqb (path req) "simulate"
        then answer (validateSimulationParams body) (runSimulationOn body)
               SimulationJson
        else if String.eqb (path req) "sweep"
        then answer (validateSweepParams body) (runSweepOn body) SweepJson
        else if String.eqb (path req) "equilibrium"
        then answer (validateEquilibriumParams toString body)
               (runEquilibriumOn body) EquilibriumJson
        else answer (validateSimulationParams body) (runSimulationOn body)
               SimulationJson
    end.

End Handler.

(** ** A sample single run *)

(** Four channels with unit gains, two real and one decoy, the policy
    and the jammer mode left open. *)
Definition sampleSimulation (policy : option DefenderPolicy)
  (mode : option JammerMode) : SimulationParams :=
  {| Sim.N := 4; Sim.NR := 2; Sim.ND := 1;
     Sim.PT := 10; Sim.PJ := 5;
     Sim.sigma2 := 1; Sim.tau := 1;
     Sim.h := [1; 1; 1; 1]; Sim.g := [1; 1; 1; 1];
     Sim.defenderPolicy := policy;
     Sim.jammerMode := mode;
     Sim.topK := None; Sim.B := None; Sim.seed := None |}.

(** The bandwidths a run uses: [params.B || new Array(N).fill(1)]. *)
Definition bandwidths (params : SimulationParams) : list R :=
  default (replicate (Sim.N params) 1) (Sim.B params).

(** The parameter objects of a single run that pass validation and
    carry one gain and one bandwidth per channel. *)
Definition wellFormed (params : SimulationParams) : Prop :=
  0 <= Sim.PT params /\ 0 <= Sim.PJ params
  /\ 0 < Sim.sigma2 params /\ 0 <= Sim.tau params
  /\ (length (Sim.h params) = Sim.N params /\ nonneg (Sim.h params))
  /\ (length (Sim.g params) = Sim.N params /\ nonneg (Sim.g params))
  /\ (length (bandwidths params) = Sim.N params
      /\ nonneg (bandwidths params)).

(** ** The vocabulary of the sweep *)

(** What a sweep records for one run: its utility, or [0] when the run
    threw. *)
Definition utilityOrZero (o : Outcome) : R :=
  match o with
  | Returned result => Sim.U_real result
  | Thrown _ => 0
  end.

(** The parameter object of one heatmap cell. *)
Definition cellParams (sweepParams : SweepParams) (secondary : R) (ND : nat)
  : SimulationParams :=
  match default SweepND (sweepType sweepParams) with
  | SweepTau => withNDTau (baseParams sweepParams) ND secondary
  | _ => withNDPJ (baseParams sweepParams) ND secondary
  end.

(** The runs that compete for [bestU_real], each with the [ND] it would
    be reported under: the heatmap cells when there is a secondary
    range, the plain series otherwise. *)
Definition competingRuns (sweepParams : SweepParams)
  : list (SimulationParams * nat) :=
  match secondaryRange sweepParams with
  | Some secondaryRange =>
      flat_map
        (fun secondary =>
           map (fun ND => (cellParams sweepParams secondary ND, ND))
             (NDRange sweepParams))
        secondaryRange
  | None =>
      match default SweepND (sweepType sweepParams) with
      | SweepND =>
          map (fun ND => (withND (baseParams sweepParams) ND, ND))
            (NDRange sweepParams)
      | _ => []
      end
  end.

(** [best] is the best of the runs in [seen]. *)
Definition bestAmong (seen : list (SimulationParams * nat)) (best : Best)
  : Prop :=
  match snd best with
  | None =>
      fst best = 0%nat
      /\ forall run, In run seen -> exists e, runSimulation (fst run) = Thrown e
  | Some b =>
      (exists run result,
          In run seen /\ snd run = fst best
          /\ runSimulation (fst run) = Returned result
          /\ Sim.U_real result = b)
      /\ forall run result,
           In run seen -> runSimulation (fst run) = Returned result ->
           Sim.U_real result <= b
  end.

(** A sweep of the sample run over zero to three decoys. *)
Definition sampleSweep (type : option SweepType) (secondary : option (list R))
  : SweepParams :=
  {| baseParams := sampleSimulation None None;
     NDRange := [0; 1; 2; 3]%nat;
     sweepType := type;
     secondaryRange := secondary |}.

(** Field [key] is absent, or an array of at most [maxLength] finite
    numbers, none of them negative. *)
Definition optionalGains (body : JSON) (key : string) (maxLength : nat)
  : Prop :=
  property body key = None
  \/ exists items, property body key = Some (JArray items)
                   /\ (length items <= maxLength)%nat
                   /\ Forall (fun v => exists q, v = JNumber q /\ (0 <= q)%Q)
                        items.

(** Field [key] is absent, or one of the listed strings. *)
Definition optionalStringIn (body : JSON) (key : string)
  (allowed : list string) : Prop :=
  property body key = None \/ stringIn body key allowed.

(** Field [key] is absent, or an array of at most [maxLength] items. *)
Definition optionalArrayUpTo (body : JSON) (key : string) (maxLength : nat)
  : Prop :=
  property body key = None \/ arrayUpTo body key maxLength.

(** Field [key] is an array or an object. *)
Definition objectAt (body : JSON) (key : string) : Prop :=
  exists v, property body key = Some v /\ notAnObject v = false.

(** A validation result either accepts or carries a message. *)
Definition explained (v : ValidationResult) : Prop :=
  valid v = true \/ exists msg, valid v = false /\ error v = Some msg.

(** ** The vocabulary of random initialisation *)

(** The number of draws made before those of defender [d], under random
    initialisation: one per channel owned by an earlier defender. *)
Fixpoint drawnBefore (params : EquilibriumParams) (d : nat) : nat :=
  match d with
  | O => 0
  | S d' => drawnBefore params d' + length (ownedChannels params d')
  end.

(** The sum of the weights drawn for defender [d], by which its weights
    are divided. *)
Definition weightSum (random : option Z -> nat -> R)
  (params : EquilibriumParams) (d : nat) : R :=
  sumR (map (fun k => random (seed params) (drawnBefore params d + k)%nat)
          (seq 0 (length (ownedChannels params d)))).

(** Under random initialisation the weights of every defender that owns
    a channel have a positive sum. The source divides by that sum
    without a guard: when every draw of a defender is [0] its row is
    [NaN], which is outside this model. *)
Definition positiveWeights (random : option Z -> nat -> R)
  (params : EquilibriumParams) : Prop :=
  randomInit params = true ->
  forall d, (d < D params)%nat ->
            ownedChannels params d <> [] ->
            0 < weightSum random params d.

(** A generator whose first draw is [0], as [seededRandom] returns for
    some seeds. *)
Definition firstDrawZero : option Z -> nat -> R :=
  fun _ k => match k with O => 0 | S _ => 0.5 end.

(** The same parameter object with random initialisation. *)
Definition withRandomInit (params : EquilibriumParams) : EquilibriumParams :=
  {| N := N params; D := D params; M := M params;
     PT := PT params; PJ := PJ params;
     sigma2 := sigma2 params; tau := tau params;
     h := h params; g := g params;
     alpha := alpha params; maxIter := maxIter params;
     epsilon := epsilon params;
     channelConfig := channelConfig params;
     jammerStrategy := jammerStrategy params;
     jammerObjective := jammerObjective params;
     attackerMode := attackerMode params;
     topK := topK params;
     randomInit := true;
     seed := seed params |}.

(** Defender [d] starts with its whole budget allocated: it draws
    weights for at least one channel, or, without random
    initialisation, it owns a real channel that takes what the decoys
    leave. *)
Definition startsOnBudget (params : EquilibriumParams) (d : nat) : Prop :=
  (randomInit params = true /\ ownedChannels params d <> [])
  \/ (randomInit params = false /\ ownsRealChannel params d).

(** Some channel is eligible for jamming in the initial state and after
    each of the first [k] iterations. *)
Definition targetsUpTo (params : EquilibriumParams) (x0 y0 : list (list R))
  (k : nat) : Prop :=
  forall j x y,
    (j <= k)%nat ->
    afterIterations params j x0 y0 = Some (x, y) ->
    eligibleSet params (getActiveSet x params) <> [].

(** Every row and entry that a strategy call reads exists: the active
    channels lie below [N], [x] has a row per defender and [m] is an
    attacker. *)
Definition strategyCallInRange (m : nat) (x : list (list R))
  (params : EquilibriumParams) (activeSet : list nat) : Prop :=
  validParams params
  /\ length x = D params
  /\ rowsOfLength (N params) x
  /\ (m < M params)%nat
  /\ forall i, i ∈ activeSet -> (i < N params)%nat.

(** The sample parameters with random initialisation. *)
Definition randomStartParams : EquilibriumParams :=
  withRandomInit sampleParams.

(** The parameter object carries its two gain arrays, one gain per
    channel in each. *)
Definition carriesGains (params : SimulationParams) : Prop :=
  length (Sim.h params) = Sim.N params
  /\ length (Sim.g params) = Sim.N params.

(** ** Lemmas on sums *)

Lemma fold_left_Rplus_acc (l : list R) (a : R) :
  fold_left Rplus l a = a + sumR l.
Proof.
  unfold sumR. revert a.
  induction l as [|v l IH]; intros a; simpl.
  - lra.
  - rewrite (IH (a + v)), (IH (0 + v)). lra.
Qed.

Lemma sumR_nil : sumR [] = 0.
Proof. reflexivity. Qed.

Lemma sumR_cons (v : R) (l : list R) : sumR (v :: l) = v + sumR l.
Proof. unfold sumR at 1. simpl. rewrite fold_left_Rplus_acc. lra. Qed.

Lemma sumR_app (l k : list R) : sumR (l ++ k) = sumR l + sumR k.
Proof.
  induction l as [|v l IH]; simpl.
  - rewrite sumR_nil. lra.
  - rewrite !sumR_cons, IH. lra.
Qed.

Lemma sumR_nonneg (l : list R) : Forall (fun v => 0 <= v) l -> 0 <= sumR l.
Proof.
  induction 1 as [|v l Hv _ IH].
  - rewrite sumR_nil. lra.
  - rewrite sumR_cons. lra.
Qed.

Lemma sumR_zero_all_zero (l : list R) :
  Forall (fun v => 0 <= v) l -> sumR l <= 0 -> Forall (fun v => v = 0) l.
Proof.
  induction 1 as [|v l Hv Hl IH]; intros Hs.
  - constructor.
  - rewrite sumR_cons in Hs. pose proof (sumR_nonneg l Hl).
    constructor; [lra | apply IH; lra].
Qed.

Lemma map_Rmax_nonneg (l : list R) :
  Forall (fun v => 0 <= v) l -> map (Rmax 0) l = l.
Proof.
  induction 1 as [|v l Hv _ IH]; simpl.
  - reflexivity.
  - rewrite IH. f_equal. apply Rmax_right. exact Hv.
Qed.

(** ** Projection idempotence *)

(** C8. Projecting a non-empty, non-negative vector whose entries already
    sum to the budget returns the vector unchanged (in real arithmetic);
    this covers the all-zero vector with budget zero. *)
Theorem projectToSimplex_idempotent (v : list R) (b : R) :
  v <> [] ->
  Forall (fun e => 0 <= e) v ->
  sumR v = b ->
  projectToSimplex v b = v.
Proof.
  intros Hne Hpos Hsum. unfold projectToSimplex.
  rewrite (map_Rmax_nonneg v Hpos).
  destruct (Rle_dec (sumR v) 0) as [Hle|Hgt].
  - pose proof (sumR_zero_all_zero v Hpos Hle) as Hz.
    pose proof (sumR_nonneg v Hpos) as Hge.
    assert (Hb : b = 0) by lra.
    clear Hne Hsum Hpos Hle Hge.
    generalize (length v). intros n.
    induction Hz as [|e l He _ IH]; simpl.
    + reflexivity.
    + rewrite IH. f_equal. rewrite He, Hb. unfold Rdiv. lra.
  - rewrite Hsum. rewrite Hsum in Hgt.
    clear Hne Hpos Hsum.
    induction v as [|e l IH]; simpl.
    + reflexivity.
    + rewrite IH. f_equal. field. lra.
Qed.

Lemma projectToSimplex_idempotent_witness :
  projectToSimplex [0; 0] 0 = [0; 0] /\ projectToSimplex [1; 3] 4 = [1; 3].
Proof.
  split.
  - apply projectToSimplex_idempotent.
    + discriminate.
    + repeat constructor; lra.
    + unfold sumR; simpl; lra.
  - apply projectToSimplex_idempotent.
    + discriminate.
    + repeat constructor; lra.
    + unfold sumR; simpl; lra.
Defined.

(** ** Array reads and writes *)

Lemma nth_insert_eq {A} (l : list A) (i : nat) (v d : A) :
  (i < length l)%nat -> nth i (<[i:=v]> l) d = v.
Proof.
  intros Hi. rewrite nth_lookup, list_lookup_insert_eq by exact Hi.
  reflexivity.
Qed.

Lemma nth_insert_ne {A} (l : list A) (i j : nat) (v d : A) :
  i <> j -> nth j (<[i:=v]> l) d = nth j l d.
Proof.
  intros Hij. rewrite !nth_lookup, list_lookup_insert_ne by exact Hij.
  reflexivity.
Qed.

Lemma length_damp (params : EquilibriumParams) (old new : list R) :
  length (damp params old new) = N params.
Proof. unfold damp. rewrite length_map, length_seq. reflexivity. Qed.

(** ** The loops never raise once [y] has its rows *)

Lemma interferenceOrThrow_rows (y : list (list R))
  (params : EquilibriumParams) (i : nat) :
  (M params <= length y)%nat ->
  interferenceOrThrow y params i = Some (totalInterference y params i).
Proof.
  intros Hy. unfold interferenceOrThrow.
  destruct (decide (length y < M params)%nat); [lia | reflexivity].
Qed.

Lemma mapM_length {A B} (f : A -> option B) (l : list A) (k : list B) :
  mapM f l = Some k -> length k = length l.
Proof.
  intros Hm. apply mapM_Some_1 in Hm.
  symmetry. eapply Forall2_length. exact Hm.
Qed.

Lemma attackerGradient_total (m : nat) (x y : list (list R))
  (params : EquilibriumParams) (activeSet : list nat) :
  (M params <= length y)%nat ->
  exists grad, attackerGradient m x y params activeSet = Some grad.
Proof.
  intros Hy.
  assert (Hs : is_Some (attackerGradient m x y params activeSet)).
  { unfold attackerGradient. apply mapM_is_Some_2, Forall_forall.
    intros i _. simpl.
    destruct (negb (has activeSet i)); [eauto|].
    destruct (skippedByObjective params i); [eauto|].
    destruct (Rle_dec _ _); [eauto|].
    rewrite interferenceOrThrow_rows by exact Hy. eauto. }
  destruct Hs as [grad Hg]. exists grad. exact Hg.
Qed.

Lemma attackerGradient_length (m : nat) (x y : list (list R))
  (params : EquilibriumParams) (activeSet : list nat) (grad : list R) :
  attackerGradient m x y params activeSet = Some grad ->
  length grad = N params.
Proof.
  intros Hg. apply mapM_length in Hg. rewrite Hg, length_seq. reflexivity.
Qed.

Lemma applyJammerStrategy_total (m : nat) (y x : list (list R))
  (params : EquilibriumParams) (activeSet : list nat) :
  (M params <= length y)%nat \/ jammerStrategy params <> J3_optimization ->
  exists newY, applyJammerStrategy m y x params activeSet = Some newY.
Proof.
  intros Hy. unfold applyJammerStrategy.
  destruct (length activeSet =? 0)%nat; [eauto|].
  destruct (jammerStrategy params) eqn:Hs.
  - destruct (Rgt_dec _ _); eauto.
  - eauto.
  - destruct Hy as [Hy|Hy]; [|congruence].
    destruct (attackerGradient_total m x y params activeSet Hy) as [grad ->].
    destruct (Rgt_dec _ _); eauto.
Qed.

Lemma attackerCandidate_total (params : EquilibriumParams) (m : nat)
  (y x : list (list R)) (activeSet : list nat) :
  (M params <= length y)%nat ->
  exists newY, attackerCandidate params m y x activeSet = Some newY.
Proof.
  intros Hy. unfold attackerCandidate.
  destruct (_ || _).
  - apply applyJammerStrategy_total. left. exact Hy.
  - destruct (attackerGradient_total m x y params activeSet Hy) as [grad ->].
    eauto.
Qed.

(** ** What one sweep over the players does to the rows *)

Lemma defenderGradient_row (d : nat) (x x' y : list (list R))
  (params : EquilibriumParams) :
  nth d x [] = nth d x' [] ->
  defenderGradient d x y params = defenderGradient d x' y params.
Proof.
  intros Hrow. unfold defenderGradient, at2. rewrite Hrow. reflexivity.
Qed.

Lemma defenderCandidate_row (params : EquilibriumParams) (d : nat)
  (x x' y : list (list R)) :
  nth d x [] = nth d x' [] ->
  defenderCandidate params d x y = defenderCandidate params d x' y.
Proof.
  intros Hrow. unfold defenderCandidate.
  rewrite (defenderGradient_row d x x' y params Hrow), Hrow. reflexivity.
Qed.

Lemma defenders_sweep (params : EquilibriumParams) (xOld y : list (list R))
  (ds : list nat) :
  forall (x : list (list R)) (mc : R) (dl : list R)
         (x' : list (list R)) (mc' : R) (dl' : list R),
  NoDup ds ->
  (forall d, d ∈ ds -> (d < length x)%nat) ->
  (forall d, d ∈ ds -> nth d x [] = nth d xOld []) ->
  fold_left (updateDefender params xOld y) ds (x, mc, dl) = (x', mc', dl') ->
  length x' = length x
  /\ (forall d, d ∉ ds -> nth d x' [] = nth d x [])
  /\ (forall d, d ∈ ds ->
        nth d x' [] =
        damp params (nth d xOld []) (defenderCandidate params d xOld y)).
Proof.
  induction ds as [|d0 ds IH]; intros x mc dl x' mc' dl' Hnd Hlt Hold Hfold.
  - simpl in Hfold. inversion Hfold; subst.
    split; [reflexivity|]. split; [reflexivity|].
    intros d Hd. inversion Hd.
  - simpl in Hfold. apply NoDup_cons in Hnd as [Hd0 Hnd].
    eapply IH in Hfold; [|exact Hnd| |].
    + destruct Hfold as (Hlen & Hout & Hin).
      rewrite length_insert in Hlen.
      assert (Hrow0 : defenderCandidate params d0 x y
                      = defenderCandidate params d0 xOld y).
      { apply defenderCandidate_row, Hold. left. }
      split; [exact Hlen|]. split.
      * intros d Hd. rewrite Hout.
        -- apply nth_insert_ne. intros ->. apply Hd. left.
        -- intros Hd'. apply Hd. right. exact Hd'.
      * intros d Hd. apply elem_of_cons in Hd as [->|Hd].
        -- rewrite (Hout d0 Hd0), nth_insert_eq, Hrow0.
           ++ reflexivity.
           ++ apply Hlt. left.
        -- apply Hin. exact Hd.
    + intros d Hd. rewrite length_insert. apply Hlt. right. exact Hd.
    + intros d Hd. rewrite nth_insert_ne.
      * apply Hold. right. exact Hd.
      * intros ->. apply Hd0. exact Hd.
Qed.

Lemma attackers_sweep (params : EquilibriumParams) (yOld x : list (list R))
  (activeSet : list nat) (ms : list nat) :
  forall (y : list (list R)) (mc : R) (dl : list R),
  NoDup ms ->
  (forall m, m ∈ ms -> (m < length y)%nat) ->
  (M params <= length y)%nat ->
  exists (y' : list (list R)) (mc' : R) (dl' : list R),
    fold_left (updateAttacker params yOld x activeSet) ms (Some (y, mc, dl))
    = Some (y', mc', dl')
    /\ length y' = length y
    /\ (forall m, m ∉ ms -> nth m y' [] = nth m y [])
    /\ (forall m, m ∈ ms ->
          exists (yMid : list (list R)) (newY : list R),
            length yMid = length y
            /\ nth m yMid [] = nth m y []
            /\ attackerCandidate params m yMid x activeSet = Some newY
            /\ nth m y' [] = damp params (nth m yOld []) newY).
Proof.
  induction ms as [|m0 ms IH]; intros y mc dl Hnd Hlt Hrows.
  - exists y, mc, dl. simpl. repeat split; try reflexivity.
    intros m Hm. inversion Hm.
  - apply NoDup_cons in Hnd as [Hm0 Hnd].
    destruct (attackerCandidate_total params m0 y x activeSet Hrows)
      as [newY0 Hc0].
    simpl. rewrite Hc0.
    set (y1 := <[m0 := damp params (nth m0 yOld []) newY0]> y).
    set (mc1 := fold_left Rmax _ mc).
    set (dl1 := dl ++ _).
    destruct (IH y1 mc1 dl1 Hnd) as (y' & mc' & dl' & Hf & Hlen & Hout & Hin).
    + intros m Hm. unfold y1. rewrite length_insert. apply Hlt. right. exact Hm.
    + unfold y1. rewrite length_insert. exact Hrows.
    + exists y', mc', dl'. unfold y1 in Hlen. rewrite length_insert in Hlen.
      split; [exact Hf|]. split; [exact Hlen|]. split.
      * intros m Hm. rewrite Hout.
        -- unfold y1. apply nth_insert_ne. intros ->. apply Hm. left.
        -- intros Hm'. apply Hm. right. exact Hm'.
      * intros m Hm. apply elem_of_cons in Hm as [->|Hm].
        -- exists y, newY0. split; [reflexivity|]. split; [reflexivity|].
           split; [exact Hc0|].
           rewrite (Hout m0 Hm0). unfold y1. apply nth_insert_eq.
           apply Hlt. left.
        -- destruct (Hin m Hm) as (yMid & newY & Hl & Hsame & Hc & Hrow).
           exists yMid, newY. unfold y1 in Hl. rewrite length_insert in Hl.
           split; [exact Hl|]. split; [|auto].
           rewrite Hsame. unfold y1. apply nth_insert_ne.
           intros ->. apply Hm0. exact Hm.
Qed.

(** ** One iteration *)

Lemma iteration_spec (params : EquilibriumParams) (k : nat)
  (x y : list (list R)) :
  length x = D params ->
  length y = M params ->
  exists (x' y' : list (list R)) (e : ConvergenceEntry),
    iteration params k x y = Some (x', y', e)
    /\ length x' = D params
    /\ length y' = M params
    /\ (forall d, (d < D params)%nat ->
          nth d x' [] =
          damp params (nth d x []) (defenderCandidate params d x y))
    /\ (forall m, (m < M params)%nat ->
          exists (yMid : list (list R)) (newY : list R),
            length yMid = M params
            /\ nth m yMid [] = nth m y []
            /\ attackerCandidate params m yMid x' (getActiveSet x' params)
               = Some newY
            /\ nth m y' [] = damp params (nth m y []) newY)
    /\ Entry.iter e = (k + 1)%nat.
Proof.
  intros Hx Hy. unfold iteration.
  destruct (fold_left (updateDefender params x y) (seq 0 (D params)) (x, 0, []))
    as [[x1 mc1] dl1] eqn:Hd.
  apply defenders_sweep in Hd as (Hlen1 & _ & Hrows1).
  - destruct (attackers_sweep params y x1 (getActiveSet x1 params)
                (seq 0 (M params)) y mc1 [])
      as (y1 & mc2 & dl2 & Hf & Hlen2 & _ & Hrows2).
    + apply NoDup_seq.
    + intros m Hm. apply elem_of_seq in Hm. lia.
    + lia.
    + rewrite Hf. eexists _, _, _. split; [reflexivity|].
      split; [lia|]. split; [lia|]. split.
      * intros d Hlt. apply Hrows1. apply elem_of_seq. lia.
      * split; [|reflexivity].
        intros m Hlt.
        destruct (Hrows2 m) as (yMid & newY & Hl & Hsame & Hc & Hr).
        -- apply elem_of_seq. lia.
        -- exists yMid, newY. split; [lia|]. auto.
  - apply NoDup_seq.
  - intros d Hdd. apply elem_of_seq in Hdd. lia.
  - reflexivity.
Qed.

Lemma afterIterations_total (params : EquilibriumParams) (k : nat)
  (x y : list (list R)) :
  length x = D params ->
  length y = M params ->
  exists x' y' : list (list R),
    afterIterations params k x y = Some (x', y')
    /\ length x' = D params /\ length y' = M params.
Proof.
  intros Hx Hy. induction k as [|k IH]; simpl.
  - exists x, y. auto.
  - destruct IH as (x1 & y1 & -> & Hx1 & Hy1).
    destruct (iteration_spec params k x1 y1 Hx1 Hy1)
      as (x2 & y2 & e & -> & Hx2 & Hy2 & _).
    exists x2, y2. auto.
Qed.

(** ** The loop *)

Lemma bestResponseLoop_spec (params : EquilibriumParams)
  (x0 y0 : list (list R)) (remaining : nat) :
  forall (iter : nat) (st : LoopState),
  length (loop_x st) = D params ->
  length (loop_y st) = M params ->
  afterIterations params iter x0 y0 = Some (loop_x st, loop_y st) ->
  exists (st' : LoopState) (new : list ConvergenceEntry),
    bestResponseLoop params remaining iter st = Some st'
    /\ loop_history st' = loop_history st ++ new
    /\ (length new <= remaining)%nat
    /\ (forall j e, new !! j = Some e -> Entry.iter e = (iter + j + 1)%nat)
    /\ (new = [] -> st' = st)
    /\ (new <> [] ->
          loop_iterations st' = (iter + length new)%nat
          /\ exists e, last new = Some e
                       /\ loop_maxChange st' = Finite (Entry.maxChange e)
                       /\ (loop_converged st' = true
                           <-> Entry.maxChange e < epsilon params))
    /\ (forall j e, new !! j = Some e -> (S j < length new)%nat ->
          ~ Entry.maxChange e < epsilon params)
    /\ (loop_converged st' = false -> length new = remaining)
    /\ length (loop_x st') = D params
    /\ length (loop_y st') = M params
    /\ afterIterations params (iter + length new) x0 y0
       = Some (loop_x st', loop_y st').
Proof.
  induction remaining as [|n IH]; intros iter st Hx Hy Hreach.
  - exists st, []. simpl. rewrite app_nil_r, Nat.add_0_r.
    repeat split; auto; try discriminate; try congruence.
  - simpl.
    destruct (iteration_spec params iter (loop_x st) (loop_y st) Hx Hy)
      as (x1 & y1 & e & Hit & Hx1 & Hy1 & _ & _ & He).
    rewrite Hit.
    assert (Hreach1 : afterIterations params (S iter) x0 y0 = Some (x1, y1)).
    { simpl. rewrite Hreach, Hit. reflexivity. }
    destruct (Rlt_dec (Entry.maxChange e) (epsilon params)) as [Hlt|Hge].
    + eexists _, [e]. split; [reflexivity|]. simpl.
      split; [reflexivity|]. split; [lia|]. split.
      { intros [|j] e' Hj; simpl in Hj; [|destruct j; discriminate].
        inversion Hj; subst. lia. }
      split; [discriminate|]. split.
      { intros _. split; [reflexivity|]. exists e. tauto. }
      split.
      { intros j e' _ Hj. lia. }
      split; [discriminate|]. split; [exact Hx1|]. split; [exact Hy1|].
      replace (iter + 1)%nat with (S iter) by lia. exact Hreach1.
    + set (st1 := {| loop_x := x1; loop_y := y1;
                     loop_history := loop_history st ++ [e];
                     loop_converged := false;
                     loop_iterations := iter + 1;
                     loop_maxChange := Finite (Entry.maxChange e) |}).
      destruct (IH (S iter) st1 Hx1 Hy1 Hreach1)
        as (st' & new & Hrun & Hhist & Hlen & Hiter & Hnil & Hcons & Hearly
            & Hfull & Hx' & Hy' & Hreach').
      exists st', (e :: new). split; [exact Hrun|]. split.
      { rewrite Hhist. simpl. rewrite <- app_assoc. reflexivity. }
      split; [simpl; lia|]. split.
      { intros [|j] e' Hj; simpl in Hj.
        - inversion Hj; subst. lia.
        - rewrite (Hiter j e' Hj). lia. }
      split; [discriminate|]. split.
      { intros _. destruct new as [|e1 new1].
        - rewrite (Hnil eq_refl). simpl. split; [reflexivity|].
          exists e. split; [reflexivity|]. split; [reflexivity|].
          split; [discriminate|]. intros Hlt. contradiction.
        - destruct Hcons as (Hn & e' & Hlast & Hmc & Hconv); [discriminate|].
          split; [rewrite Hn; simpl; lia|].
          exists e'. split; [|tauto].
          rewrite last_cons, Hlast. reflexivity. }
      split.
      { intros [|j] e' Hj Hlast; simpl in Hj.
        - inversion Hj; subst. exact Hge.
        - apply (Hearly j e' Hj). simpl in Hlast. lia. }
      split.
      { intros Hc. simpl. rewrite (Hfull Hc). reflexivity. }
      split; [exact Hx'|]. split; [exact Hy'|].
      simpl. replace (iter + S (length new))%nat
        with (S iter + length new)%nat by lia.
      exact Hreach'.
Qed.

(** ** The initial state *)

Lemma initDefenders_fold_length (random : option Z -> nat -> R)
  (params : EquilibriumParams) (ds : list nat) :
  forall (st : list (list R) * nat),
  length (fst (fold_left
                 (fun st d =>
                    let '(alloc, drawn) :=
                      initDefender random params d (snd st) in
                    (fst st ++ [alloc], drawn))
                 ds st))
  = (length (fst st) + length ds)%nat.
Proof.
  induction ds as [|d ds IH]; intros st; simpl.
  - lia.
  - rewrite IH. destruct (initDefender random params d (snd st)) as [a n].
    simpl. rewrite length_app. simpl. lia.
Qed.

Lemma length_initDefenders (random : option Z -> nat -> R)
  (params : EquilibriumParams) :
  length (initDefenders random params) = D params.
Proof.
  unfold initDefenders. rewrite initDefenders_fold_length.
  simpl. apply length_seq.
Qed.

Lemma length_initAttackers (params : EquilibriumParams)
  (x y : list (list R)) :
  initAttackers params x = Some y -> length y = M params.
Proof.
  unfold initAttackers. intros Hy. apply mapM_length in Hy.
  rewrite Hy. apply length_seq.
Qed.

(** The uniform and top-K strategies never read [y]: with them the
    initialisation always completes. *)
Lemma initialState_total (random : option Z -> nat -> R)
  (params : EquilibriumParams) :
  jammerStrategy params <> J3_optimization ->
  exists st0, initialState random params = Some st0.
Proof.
  intros Hs. unfold initialState.
  assert (His : is_Some (initAttackers params (initDefenders random params))).
  { unfold initAttackers. apply mapM_is_Some_2, Forall_forall.
    intros m _. simpl.
    destruct (applyJammerStrategy_total m [] (initDefenders random params)
                params (getActiveSet (initDefenders random params) params))
      as [newY ->]; eauto. }
  destruct His as [y ->]. eauto.
Qed.

Lemma initialState_shape (random : option Z -> nat -> R)
  (params : EquilibriumParams) (st0 : LoopState) :
  initialState random params = Some st0 ->
  loop_x st0 = initDefenders random params
  /\ initAttackers params (initDefenders random params) = Some (loop_y st0)
  /\ length (loop_x st0) = D params
  /\ length (loop_y st0) = M params
  /\ loop_history st0 = []
  /\ loop_converged st0 = false
  /\ loop_iterations st0 = 0%nat
  /\ loop_maxChange st0 = Infinity.
Proof.
  unfold initialState.
  destruct (initAttackers params (initDefenders random params)) as [y|] eqn:Hy;
    [|discriminate].
  intros Hst. inversion Hst; subst; simpl.
  repeat split; auto using length_initDefenders.
  eapply length_initAttackers; eauto.
Qed.

(** Once the initial state exists, the run returns; its history is what
    the loop appended, and its allocations are the state after
    [iterations] iterations. *)
Lemma runEquilibrium_spec (random : option Z -> nat -> R)
  (params : EquilibriumParams) (st0 : LoopState) :
  initialState random params = Some st0 ->
  exists st : LoopState,
    runEquilibrium random params = Some (buildResult params st)
    /\ (length (loop_history st) <= maxIter params)%nat
    /\ (forall j e, loop_history st !! j = Some e ->
          Entry.iter e = (j + 1)%nat)
    /\ (loop_history st = [] -> st = st0)
    /\ (loop_history st <> [] ->
          loop_iterations st = length (loop_history st)
          /\ exists e, last (loop_history st) = Some e
                       /\ loop_maxChange st = Finite (Entry.maxChange e)
                       /\ (loop_converged st = true
                           <-> Entry.maxChange e < epsilon params))
    /\ (forall j e, loop_history st !! j = Some e ->
          (S j < length (loop_history st))%nat ->
          ~ Entry.maxChange e < epsilon params)
    /\ (loop_converged st = false ->
          length (loop_history st) = maxIter params)
    /\ length (loop_x st) = D params
    /\ length (loop_y st) = M params
    /\ afterIterations params (length (loop_history st))
         (loop_x st0) (loop_y st0)
       = Some (loop_x st, loop_y st).
Proof.
  intros Hinit.
  destruct (initialState_shape random params st0 Hinit)
    as (_ & _ & Hx & Hy & Hh & Hc & Hi & Hm).
  destruct (bestResponseLoop_spec params (loop_x st0) (loop_y st0)
              (maxIter params) 0 st0 Hx Hy eq_refl)
    as (st & new & Hrun & Hhist & Hlen & Hiter & Hnil & Hcons & Hearly
        & Hfull & Hx' & Hy' & Hreach).
  rewrite Hh in Hhist. simpl in Hhist. subst new.
  exists st. unfold runEquilibrium. rewrite Hinit, Hrun.
  split; [reflexivity|]. split; [exact Hlen|]. split.
  { intros j e Hj. rewrite (Hiter j e Hj). lia. }
  split; [exact Hnil|]. split; [exact Hcons|]. split; [exact Hearly|].
  split; [exact Hfull|]. split; [exact Hx'|]. split; [exact Hy'|].
  exact Hreach.
Qed.

(** ** Rows keep their [N] slots *)

Lemma fold_left_length_preserved {A T} (step : list A -> T -> list A)
  (l : list T) :
  (forall acc t, length (step acc t) = length acc) ->
  forall a, length (fold_left step l a) = length a.
Proof.
  intros Hstep. induction l as [|t l IH]; intros a; simpl.
  - reflexivity.
  - rewrite IH. apply Hstep.
Qed.

Lemma length_fundDecoys (params : EquilibriumParams) (decoyChannels : list nat)
  (alloc : list R) (remaining : R) :
  length (fst (fundDecoys params decoyChannels alloc remaining))
  = length alloc.
Proof.
  unfold fundDecoys. generalize (length decoyChannels). intros n.
  revert alloc remaining.
  induction decoyChannels as [|i l IH]; intros alloc remaining; simpl.
  - reflexivity.
  - rewrite IH. simpl. apply length_insert.
Qed.

Lemma length_initDefender (random : option Z -> nat -> R)
  (params : EquilibriumParams) (d drawn : nat) :
  length (fst (initDefender random params d drawn)) = N params.
Proof.
  unfold initDefender.
  destruct (0 <? length (ownedChannels params d))%nat.
  - destruct (randomInit params).
    + simpl. rewrite fold_left_length_preserved.
      * apply length_replicate.
      * intros acc t. apply length_insert.
    + destruct (fundDecoys _ _ _ _) as [alloc remaining] eqn:Hf.
      assert (Hlen : length alloc = N params).
      { change alloc with (fst (alloc, remaining)). rewrite <- Hf.
        rewrite length_fundDecoys. apply length_replicate. }
      destruct (0 <? _)%nat; simpl.
      * rewrite fold_left_length_preserved; [exact Hlen|].
        intros acc t. apply length_insert.
      * exact Hlen.
  - simpl. apply length_replicate.
Qed.

Lemma initDefenders_fold_rows (random : option Z -> nat -> R)
  (params : EquilibriumParams) (P : list R -> Prop) (ds : list nat) :
  (forall d drawn, d ∈ ds -> P (fst (initDefender random params d drawn))) ->
  forall (st : list (list R) * nat),
  Forall P (fst st) ->
  Forall P (fst (fold_left
                   (fun st d =>
                      let '(alloc, drawn) :=
                        initDefender random params d (snd st) in
                      (fst st ++ [alloc], drawn))
                   ds st)).
Proof.
  induction ds as [|d ds IH]; intros Hrow st Hst; simpl.
  - exact Hst.
  - apply IH.
    + intros d' drawn Hd'. apply Hrow. right. exact Hd'.
    + pose proof (Hrow d (snd st) ltac:(left)) as Hd.
      destruct (initDefender random params d (snd st)) as [a n].
      simpl in *. apply Forall_app. split; [exact Hst|].
      constructor; [exact Hd | constructor].
Qed.

(** Every row of the initial defender matrix is the initial row of some
    defender below [D]. *)
Lemma initDefenders_rows (random : option Z -> nat -> R)
  (params : EquilibriumParams) (P : list R -> Prop) :
  (forall d drawn, (d < D params)%nat ->
     P (fst (initDefender random params d drawn))) ->
  Forall P (initDefenders random params).
Proof.
  intros Hrow. unfold initDefenders. apply initDefenders_fold_rows.
  - intros d drawn Hd. apply Hrow. apply elem_of_seq in Hd. lia.
  - constructor.
Qed.

Lemma length_applyJammerStrategy (m : nat) (y x : list (list R))
  (params : EquilibriumParams) (activeSet : list nat) (newY : list R) :
  applyJammerStrategy m y x params activeSet = Some newY ->
  length newY = N params.
Proof.
  unfold applyJammerStrategy.
  destruct (length activeSet =? 0)%nat.
  { intros H; inversion H; subst. apply length_replicate. }
  destruct (jammerStrategy params).
  - assert (Hl : forall power,
               length (fold_left
                         (fun newY i =>
                            if skippedByObjective params i then newY
                            else <[i:=power]> newY)
                         activeSet (replicate (N params) 0)) = N params).
    { intros power. rewrite fold_left_length_preserved.
      - apply length_replicate.
      - intros acc t. destruct (skippedByObjective params t);
          [reflexivity | apply length_insert]. }
    destruct (Rgt_dec _ _); intros H; inversion H; subst.
    + rewrite length_map. apply Hl.
    + apply Hl.
  - intros H; inversion H; subst.
    rewrite fold_left_length_preserved.
    + apply length_replicate.
    + intros acc t. apply length_insert.
  - destruct (attackerGradient m x y params activeSet) as [grad|] eqn:Hg;
      [|discriminate].
    apply attackerGradient_length in Hg.
    destruct (Rgt_dec _ _); intros H; inversion H; subst.
    + rewrite length_map. exact Hg.
    + rewrite fold_left_length_preserved.
      * apply length_replicate.
      * intros acc t. apply length_insert.
Qed.

Lemma length_projectToSimplex (v : list R) (b : R) :
  length (projectToSimplex v b) = length v.
Proof.
  unfold projectToSimplex.
  destruct (Rle_dec _ _); rewrite !length_map; reflexivity.
Qed.

Lemma length_attackerCandidate (params : EquilibriumParams) (m : nat)
  (y x : list (list R)) (activeSet : list nat) (newY : list R) :
  length (nth m y []) = N params ->
  attackerCandidate params m y x activeSet = Some newY ->
  length newY = N params.
Proof.
  intros Hrow. unfold attackerCandidate.
  destruct (_ || _).
  - apply length_applyJammerStrategy.
  - destruct (attackerGradient m x y params activeSet) as [grad|];
      [|discriminate].
    intros H; inversion H; subst.
    rewrite length_projectToSimplex, length_imap. exact Hrow.
Qed.

Lemma rowsOfLength_nth (n k : nat) (a : list (list R)) :
  rowsOfLength n a -> (k < length a)%nat -> length (nth k a []) = n.
Proof.
  intros Hrows Hk.
  destruct (nth_lookup_or_length a k []) as [Hl|Hl]; [|lia].
  eapply Forall_lookup_1 in Hrows; [exact Hrows | exact Hl].
Qed.

Lemma rowsOfLength_intro (n : nat) (a : list (list R)) :
  (forall k, (k < length a)%nat -> length (nth k a []) = n) ->
  rowsOfLength n a.
Proof.
  intros H. apply Forall_lookup_2. intros k row Hk.
  pose proof (lookup_lt_Some _ _ _ Hk) as Hlt.
  rewrite <- (nth_lookup_Some _ _ [] _ Hk). apply H. exact Hlt.
Qed.

Lemma initialState_rows (random : option Z -> nat -> R)
  (params : EquilibriumParams) (st0 : LoopState) :
  initialState random params = Some st0 ->
  rowsOfLength (N params) (loop_x st0) /\ rowsOfLength (N params) (loop_y st0).
Proof.
  intros Hinit.
  destruct (initialState_shape random params st0 Hinit)
    as (Hx & Hy & _).
  split.
  - rewrite Hx. apply initDefenders_rows.
    intros d drawn _. apply length_initDefender.
  - unfold initAttackers in Hy. apply mapM_Some_1 in Hy.
    apply Forall_lookup_2. intros k row Hk.
    destruct (Forall2_lookup_r _ _ _ _ _ Hy Hk) as (m & _ & Hm).
    eapply length_applyJammerStrategy. exact Hm.
Qed.

Lemma iteration_rows (params : EquilibriumParams) (k : nat)
  (x y x' y' : list (list R)) (e : ConvergenceEntry) :
  length x = D params ->
  length y = M params ->
  iteration params k x y = Some (x', y', e) ->
  rowsOfLength (N params) x' /\ rowsOfLength (N params) y'.
Proof.
  intros Hx Hy Hit.
  destruct (iteration_spec params k x y Hx Hy)
    as (x1 & y1 & e1 & Hit1 & Hx1 & Hy1 & Hdef & Hatt & _).
  rewrite Hit in Hit1. inversion Hit1; subst x1 y1 e1.
  split; apply rowsOfLength_intro.
  - intros d Hd. rewrite Hdef by lia. apply length_damp.
  - intros m Hm. destruct (Hatt m) as (yMid & newY & _ & _ & _ & ->); [lia|].
    apply length_damp.
Qed.

(** Shape of every state the loop can be in. *)
Lemma reachable_shape (random : option Z -> nat -> R)
  (params : EquilibriumParams) (st0 : LoopState) (k : nat)
  (x y : list (list R)) :
  initialState random params = Some st0 ->
  afterIterations params k (loop_x st0) (loop_y st0) = Some (x, y) ->
  length x = D params /\ length y = M params
  /\ rowsOfLength (N params) x /\ rowsOfLength (N params) y.
Proof.
  intros Hinit.
  destruct (initialState_shape random params st0 Hinit)
    as (_ & _ & Hx0 & Hy0 & _).
  destruct (initialState_rows random params st0 Hinit) as [Hrx Hry].
  destruct k as [|k]; simpl.
  - intros H; inversion H; subst. auto.
  - destruct (afterIterations_total params k _ _ Hx0 Hy0)
      as (x1 & y1 & -> & Hx1 & Hy1).
    destruct (iteration_spec params k x1 y1 Hx1 Hy1)
      as (x2 & y2 & e & Hit & Hx2 & Hy2 & _).
    rewrite Hit. intros H; inversion H; subst.
    destruct (iteration_rows params k x1 y1 x y e Hx1 Hy1 Hit). auto.
Qed.

(** ** Convergence flag, iteration count and history *)

Lemma buildResult_lengths (params : EquilibriumParams) (st : LoopState) :
  length (defenders (buildResult params st)) = D params
  /\ length (attackers (buildResult params st)) = M params
  /\ length (channelSummary (buildResult params st)) = N params.
Proof.
  unfold buildResult, buildChannelSummary. simpl.
  rewrite !length_map, !length_seq. auto.
Qed.


(** ** Writing one value at a set of indices *)

Lemma has_elem_of (l : list nat) (i : nat) : has l i = true <-> i ∈ l.
Proof.
  unfold has. rewrite existsb_exists. split.
  - intros (j & Hj & He). apply Nat.eqb_eq in He. subst j.
    apply list_elem_of_In. exact Hj.
  - intros Hi. exists i. split; [apply list_elem_of_In; exact Hi|].
    apply Nat.eqb_refl.
Qed.

Lemma has_false (l : list nat) (i : nat) : has l i = false <-> i ∉ l.
Proof.
  rewrite <- has_elem_of. destruct (has l i); split; congruence.
Qed.

Lemma nth_ext_R (l k : list R) :
  length l = length k ->
  (forall i, (i < length l)%nat -> nth i l 0 = nth i k 0) ->
  l = k.
Proof.
  intros Hlen Hnth. apply list_eq. intros i.
  destruct (decide (i < length l)%nat) as [Hi|Hi].
  - destruct (nth_lookup_or_length l i 0) as [Hl|Hl]; [|lia].
    destruct (nth_lookup_or_length k i 0) as [Hk|Hk]; [|lia].
    rewrite Hl, Hk, (Hnth i Hi). reflexivity.
  - rewrite !lookup_ge_None_2 by lia. reflexivity.
Qed.

Lemma nth_map_seq (f : nat -> R) (n i : nat) :
  (i < n)%nat -> nth i (map f (seq 0 n)) 0 = f i.
Proof.
  intros Hi. rewrite nth_lookup, list_lookup_fmap, lookup_seq_lt by exact Hi.
  reflexivity.
Qed.

Lemma nth_replicate_0 (n i : nat) : nth i (replicate n 0) 0 = 0.
Proof.
  rewrite nth_lookup. destruct (replicate n 0 !! i) as [v|] eqn:Hl.
  - apply lookup_replicate_1 in Hl as [-> _]. reflexivity.
  - reflexivity.
Qed.

Lemma nth_fold_insert_const (c : R) (E : list nat) :
  forall (a : list R) (j : nat),
  (forall i, i ∈ E -> (i < length a)%nat) ->
  nth j (fold_left (fun acc i => <[i:=c]> acc) E a) 0
  = if has E j then c else nth j a 0.
Proof.
  induction E as [|i0 E IH]; intros a j Hlt; simpl.
  - reflexivity.
  - rewrite IH.
    + destruct (has E j) eqn:Hj.
      * rewrite orb_true_r. reflexivity.
      * rewrite orb_false_r. destruct (Nat.eqb_spec j i0) as [->|Hne].
        -- apply nth_insert_eq. apply Hlt. left.
        -- apply nth_insert_ne. congruence.
    + intros i Hi. rewrite length_insert. apply Hlt. right. exact Hi.
Qed.

Lemma sumR_insert (a : list R) (i : nat) (v : R) :
  (i < length a)%nat -> sumR (<[i:=v]> a) = sumR a - nth i a 0 + v.
Proof.
  revert i. induction a as [|e a IH]; intros i Hi; simpl in Hi.
  - lia.
  - destruct i as [|i]; simpl.
    + rewrite !sumR_cons. lra.
    + rewrite !sumR_cons, IH by lia. lra.
Qed.

Lemma sumR_fold_insert_const (c : R) (E : list nat) :
  forall a : list R,
  NoDup E ->
  (forall i, i ∈ E -> (i < length a)%nat) ->
  (forall i, i ∈ E -> nth i a 0 = 0) ->
  sumR (fold_left (fun acc i => <[i:=c]> acc) E a)
  = sumR a + INR (length E) * c.
Proof.
  induction E as [|i0 E IH]; intros a Hnd Hlt Hz.
  - simpl. lra.
  - apply NoDup_cons in Hnd as [Hi0 Hnd].
    change (fold_left (fun acc i => <[i:=c]> acc) (i0 :: E) a)
      with (fold_left (fun acc i => <[i:=c]> acc) E (<[i0:=c]> a)).
    rewrite IH.
    + rewrite sumR_insert by (apply Hlt; left).
      rewrite (Hz i0) by left.
      change (length (i0 :: E)) with (S (length E)). rewrite S_INR. lra.
    + exact Hnd.
    + intros i Hi. rewrite length_insert. apply Hlt. right. exact Hi.
    + intros i Hi. rewrite nth_insert_ne.
      * apply Hz. right. exact Hi.
      * intros ->. apply Hi0. exact Hi.
Qed.

Lemma sumR_replicate_0 (n : nat) : sumR (replicate n 0) = 0.
Proof.
  induction n as [|n IH]; simpl.
  - apply sumR_nil.
  - rewrite sumR_cons, IH. lra.
Qed.

(** The conditional write of the uniform strategy is a write over the
    eligible set. *)
Lemma fold_skipping_eligible (params : EquilibriumParams) (c : R)
  (activeSet : list nat) :
  forall a : list R,
  fold_left
    (fun newY i =>
       if skippedByObjective params i then newY else <[i:=c]> newY)
    activeSet a
  = fold_left (fun acc i => <[i:=c]> acc) (eligibleSet params activeSet) a.
Proof.
  unfold eligibleSet.
  induction activeSet as [|i l IH]; intros a; simpl.
  - reflexivity.
  - destruct (skippedByObjective params i); simpl; apply IH.
Qed.

Lemma eligibleSet_elem_of (params : EquilibriumParams) (activeSet : list nat)
  (i : nat) :
  i ∈ eligibleSet params activeSet -> i ∈ activeSet.
Proof.
  unfold eligibleSet. intros Hi. apply list_elem_of_In in Hi.
  apply filter_In in Hi as [Hi _]. apply list_elem_of_In. exact Hi.
Qed.

Lemma eligibleSet_NoDup (params : EquilibriumParams) (activeSet : list nat) :
  NoDup activeSet -> NoDup (eligibleSet params activeSet).
Proof.
  unfold eligibleSet. intros Hnd. apply NoDup_ListNoDup.
  apply List.NoDup_filter. apply NoDup_ListNoDup. exact Hnd.
Qed.

(** ** Uniform and top-K strategies on equal scores *)

Lemma nth_map_R (f : R -> R) (l : list R) (i : nat) :
  (i < length l)%nat -> nth i (map f l) 0 = f (nth i l 0).
Proof.
  intros Hi. rewrite !nth_lookup, list_lookup_fmap.
  destruct (l !! i) as [v|] eqn:Hl; [reflexivity|].
  apply lookup_ge_None_1 in Hl. lia.
Qed.





Lemma length_equalSplit (params : EquilibriumParams) (m : nat)
  (activeSet : list nat) :
  length (equalSplit params m activeSet) = N params.
Proof. unfold equalSplit. rewrite length_map, length_seq. reflexivity. Qed.

Lemma INR_length_pos {A} (l : list A) (a : A) : a ∈ l -> 0 < INR (length l).
Proof.
  intros Ha. destruct l as [|b l]; [inversion Ha|].
  change (length (b :: l)) with (S (length l)). rewrite S_INR.
  pose proof (pos_INR (length l)). lra.
Qed.

Lemma uniform_is_equalSplit (m : nat) (y x : list (list R))
  (params : EquilibriumParams) (activeSet : list nat) :
  jammerStrategy params = J1_uniform ->
  NoDup activeSet ->
  (forall i, i ∈ activeSet -> (i < N params)%nat) ->
  0 <= nth m (PJ params) 0 ->
  applyJammerStrategy m y x params activeSet
  = Some (equalSplit params m activeSet).
Proof.
  intros Hs Hnd Hlt HP. unfold applyJammerStrategy. rewrite Hs.
  destruct (Nat.eqb_spec (length activeSet) 0) as [Hnil|Hne].
  - destruct activeSet; [|discriminate]. f_equal. apply nth_ext_R.
    + rewrite length_replicate, length_equalSplit. reflexivity.
    + intros i Hi. rewrite length_replicate in Hi.
      unfold equalSplit. rewrite nth_replicate_0, nth_map_seq by exact Hi.
      reflexivity.
  - set (P := nth m (PJ params) 0) in *.
    set (E := eligibleSet params activeSet).
    set (power := P / INR (length activeSet)).
    rewrite fold_skipping_eligible. fold E.
    assert (HE : forall i, i ∈ E -> (i < length (replicate (N params) 0%R))%nat).
    { intros i Hi. rewrite length_replicate. apply Hlt.
      eapply eligibleSet_elem_of. exact Hi. }
    assert (Hsum : sumR (fold_left (fun acc i => <[i:=power]> acc) E
                           (replicate (N params) 0))
                   = INR (length E) * power).
    { rewrite sumR_fold_insert_const.
      - rewrite sumR_replicate_0. lra.
      - apply eligibleSet_NoDup. exact Hnd.
      - exact HE.
      - intros i _. apply nth_replicate_0. }
    assert (Hlen : length (fold_left (fun acc i => <[i:=power]> acc) E
                             (replicate (N params) 0)) = N params).
    { rewrite fold_left_length_preserved; [apply length_replicate|].
      intros acc t. apply length_insert. }
    assert (Ha : 0 < INR (length activeSet)).
    { apply lt_0_INR. lia. }
    assert (Hpow : 0 <= power).
    { unfold power. apply Rmult_le_pos; [exact HP|].
      left. apply Rinv_0_lt_compat. exact Ha. }
    rewrite Hsum.
    destruct (Rgt_dec (INR (length E) * power) 0) as [Hgt|Hle]; f_equal;
      apply nth_ext_R.
    + rewrite length_map, Hlen, length_equalSplit. reflexivity.
    + intros i Hi. rewrite length_map, Hlen in Hi.
      rewrite nth_map_R by (rewrite Hlen; exact Hi).
      rewrite nth_fold_insert_const by exact HE.
      unfold equalSplit. rewrite nth_map_seq by exact Hi. fold E P.
      rewrite nth_replicate_0.
      destruct (has E i).
      * assert (power <> 0) by nra.
        assert (INR (length E) <> 0) by nra.
        field. auto.
      * unfold Rdiv. lra.
    + rewrite Hlen, length_equalSplit. reflexivity.
    + intros i Hi. rewrite Hlen in Hi.
      rewrite nth_fold_insert_const by exact HE.
      unfold equalSplit. rewrite nth_map_seq by exact Hi. fold E P.
      rewrite nth_replicate_0.
      destruct (has E i) eqn:Hi'; [|reflexivity].
      apply has_elem_of in Hi'.
      pose proof (INR_length_pos E i Hi') as HkE.
      assert (Hp0 : power = 0) by nra.
      assert (HP0 : P = 0).
      { unfold power in Hp0. unfold Rdiv in Hp0.
        apply Rmult_integral in Hp0 as [Hp0|Hp0]; [exact Hp0|].
        pose proof (Rinv_0_lt_compat _ Ha). lra. }
      rewrite Hp0, HP0. unfold Rdiv. lra.
Qed.




(** ** The symmetric-equilibrium flag *)

Lemma sumR_imap_zero (f : nat -> R -> R) (a : list R) :
  (forall i v, a !! i = Some v -> f i v = 0) -> sumR (imap f a) = 0.
Proof.
  revert f. induction a as [|v a IH]; intros f Hf; simpl.
  - apply sumR_nil.
  - rewrite sumR_cons, (Hf 0%nat v eq_refl), IH.
    + lra.
    + intros i w Hi. apply (Hf (S i) w). exact Hi.
Qed.

Lemma l1Distance_self (a : list R) : l1Distance a a = 0.
Proof.
  unfold l1Distance. apply sumR_imap_zero.
  intros i v Hi. rewrite (nth_lookup_Some _ _ 0 _ Hi).
  replace (v - v) with 0 by lra. apply Rabs_R0.
Qed.

Lemma checkSymmetricEquilibrium_true (defenders attackers : list PlayerAllocation)
  (epsilon : R) :
  checkSymmetricEquilibrium defenders attackers epsilon = true
  <-> (2 <= length defenders)%nat
      /\ forall d, (1 <= d < length defenders)%nat ->
           l1Distance (allocation (nth d defenders noPlayer))
             (allocation (nth 0 defenders noPlayer))
           <= 10 * epsilon.
Proof.
  unfold checkSymmetricEquilibrium.
  destruct (Nat.leb_spec (length defenders) 1) as [Hle|Hgt].
  - split; [discriminate | intros [H _]; lia].
  - rewrite forallb_forall. split.
    + intros Hall. split; [lia|]. intros d Hd.
      specialize (Hall d). simpl in Hall.
      destruct (Rgt_dec _ _) as [Hg|Hng].
      * assert (false = true); [|discriminate].
        apply Hall. apply in_seq. lia.
      * lra.
    + intros [_ Hall] d Hd. apply in_seq in Hd.
      destruct (Rgt_dec _ _) as [Hg|Hng]; [|reflexivity].
      specialize (Hall d ltac:(lia)). lra.
Qed.

Lemma checkSymmetricEquilibrium_single (defenders attackers : list PlayerAllocation)
  (epsilon : R) :
  (length defenders <= 1)%nat ->
  checkSymmetricEquilibrium defenders attackers epsilon = false.
Proof.
  intros Hle. unfold checkSymmetricEquilibrium.
  destruct (Nat.leb_spec (length defenders) 1); [reflexivity | lia].
Qed.

Lemma buildResult_symmetric (params : EquilibriumParams) (st : LoopState) :
  symmetricEquilibrium (metrics (buildResult params st))
  = checkSymmetricEquilibrium (defenders (buildResult params st))
      (attackers (buildResult params st)) (epsilon params).
Proof. reflexivity. Qed.

(** The sample run has one defender: every defender's final allocation
    is at distance zero from the first defender's, and the flag is
    false all the same. *)
Lemma single_defender_flag_is_false :
  exists r : EquilibriumResult,
    runEquilibrium constantRandom sampleParams = Some r
    /\ length (defenders r) = 1%nat
    /\ (forall d, (d < length (defenders r))%nat ->
          l1Distance (allocation (nth d (defenders r) noPlayer))
            (allocation (nth 0 (defenders r) noPlayer))
          < 10 * epsilon sampleParams)
    /\ symmetricEquilibrium (metrics r) = false.
Proof.
  destruct (initialState_total constantRandom sampleParams) as [st0 Hst0];
    [discriminate|].
  destruct (runEquilibrium_spec constantRandom sampleParams st0 Hst0)
    as (st & Hrun & _).
  destruct (buildResult_lengths sampleParams st) as (HD & _).
  exists (buildResult sampleParams st).
  split; [exact Hrun|]. split; [exact HD|]. split.
  - intros d Hd. rewrite HD in Hd. change (D sampleParams) with 1%nat in Hd.
    assert (d = 0%nat) by lia. subst d.
    rewrite l1Distance_self. simpl. lra.
  - rewrite buildResult_symmetric.
    apply checkSymmetricEquilibrium_single. rewrite HD. simpl. lia.
Qed.

(** ** Attacker utility under the deception objective *)

Lemma ln_2_pos : 0 < ln 2.
Proof. rewrite <- ln_1. apply ln_increasing; lra. Qed.

(** C2, at a state whose only channel is outside the active set. The
    channel carries power 1 below the threshold 2, so the active set is
    empty and the sum over active channels is zero; the code returns
    [- ln 2]. *)
Theorem attacker_utility_counts_channel_below_threshold :
  getActiveSet [[1]] belowThresholdParams = []
  /\ calculateAttackerUtility 0 [[1]] [[0]] belowThresholdParams [] = - ln 2
  /\ specAttackerUtility 0 [[1]] [[0]] belowThresholdParams [] = 0
  /\ calculateAttackerUtility 0 [[1]] [[0]] belowThresholdParams []
     <> specAttackerUtility 0 [[1]] [[0]] belowThresholdParams [].
Proof.
  assert (Hact : getActiveSet [[1]] belowThresholdParams = []).
  { unfold getActiveSet, at2. simpl.
    destruct (Rge_dec 1 2) as [Hge|_]; [lra | reflexivity]. }
  assert (Hcode : calculateAttackerUtility 0 [[1]] [[0]] belowThresholdParams []
                  = - ln 2).
  { unfold calculateAttackerUtility, calculateDefenderUtility,
      totalInterference, at2. simpl.
    destruct (Rle_dec 1 0) as [Hle|_]; [lra|].
    replace (1 + 1 * 1 / (1 + 0 * 1)) with 2 by (field; lra).
    rewrite !Rplus_0_l. reflexivity. }
  assert (Hspec : specAttackerUtility 0 [[1]] [[0]] belowThresholdParams [] = 0).
  { unfold specAttackerUtility, specDefenderUtility. simpl.
    unfold sumR. simpl. lra. }
  split; [exact Hact|]. split; [exact Hcode|]. split; [exact Hspec|].
  rewrite Hcode, Hspec. pose proof ln_2_pos. lra.
Qed.

(** ** Validation of the power budgets *)

(** C3, at a request whose defender budget is [-1]. Validation accepts
    it, and the handler answers with whatever the engine makes of it. *)
Theorem negative_budget_passes_validation (toString : Q -> string)
  (runEquilibriumOn : JSON -> option EquilibriumResult) :
  property negativeBudgetRequest "PT" = Some (JArray [JNumber (-1)])
  /\ validateEquilibriumParams toString negativeBudgetRequest = ok
  /\ serveEquilibrium toString runEquilibriumOn negativeBudgetRequest
     = match runEquilibriumOn negativeBudgetRequest with
       | Some result => {| status := 200; body := ResultBody result |}
       | None =>
           {| status := 400;
              body :=
                ErrorBody
                  (Some "Simulation failed. Please check your input parameters."%string) |}
       end.
Proof.
  assert (Hv : validateEquilibriumParams toString negativeBudgetRequest = ok).
  { reflexivity. }
  split; [reflexivity|]. split; [exact Hv|].
  unfold serveEquilibrium. rewrite Hv. reflexivity.
Qed.

(** ** Non-negative allocations *)

Lemma nonneg_nth (l : list R) (i : nat) : nonneg l -> 0 <= nth i l 0.
Proof.
  intros Hl. destruct (nth_lookup_or_length l i 0) as [Hi|Hi].
  - eapply Forall_lookup_1 in Hl; [exact Hl | exact Hi].
  - rewrite nth_overflow by lia. lra.
Qed.

Lemma nonnegMatrix_nth (a : list (list R)) (r : nat) :
  nonnegMatrix a -> nonneg (nth r a []).
Proof.
  intros Ha. destruct (nth_lookup_or_length a r []) as [Hr|Hr].
  - eapply Forall_lookup_1 in Ha; [exact Ha | exact Hr].
  - rewrite nth_overflow by lia. constructor.
Qed.

Lemma nonneg_at2 (a : list (list R)) (r c : nat) :
  nonnegMatrix a -> 0 <= at2 a r c.
Proof. intros Ha. apply nonneg_nth, nonnegMatrix_nth, Ha. Qed.


Lemma Rinv_nonneg (r : R) : 0 <= r -> 0 <= / r.
Proof.
  intros [Hr|<-].
  - left. apply Rinv_0_lt_compat. exact Hr.
  - rewrite Rinv_0. lra.
Qed.

Lemma Rdiv_nonneg (a b : R) : 0 <= a -> 0 <= b -> 0 <= a / b.
Proof.
  intros Ha Hb. unfold Rdiv. apply Rmult_le_pos; [exact Ha|].
  apply Rinv_nonneg. exact Hb.
Qed.

Lemma nonneg_replicate_0 (n : nat) : nonneg (replicate n 0).
Proof. apply Forall_replicate. lra. Qed.

Lemma nonneg_fold_insert {T} (key : T -> nat) (val : T -> R) (l : list T) :
  (forall t, t ∈ l -> 0 <= val t) ->
  forall a, nonneg a ->
  nonneg (fold_left (fun acc t => <[key t := val t]> acc) l a).
Proof.
  induction l as [|t l IH]; intros Hval a Ha; simpl.
  - exact Ha.
  - apply IH.
    + intros t' Ht'. apply Hval. right. exact Ht'.
    + apply Forall_insert; [exact Ha|]. apply Hval. left.
Qed.


Lemma projectToSimplex_nonneg (v : list R) (b : R) :
  0 <= b -> nonneg (projectToSimplex v b).
Proof.
  intros Hb. unfold projectToSimplex.
  destruct (Rle_dec _ _) as [Hle|Hgt].
  - apply Forall_map, Forall_forall. intros e _. simpl.
    apply Rdiv_nonneg; [exact Hb | apply pos_INR].
  - apply Forall_map, Forall_map, Forall_forall. intros e _. simpl.
    apply Rmult_le_pos; [|exact Hb].
    apply Rdiv_nonneg; [apply Rmax_l | lra].
Qed.

Lemma insertByScore_Forall (P : Scored -> Prop) (a : Scored) (l : list Scored) :
  P a -> Forall P l -> Forall P (insertByScore a l).
Proof.
  intros Ha. induction 1 as [|e l He Hl IH]; simpl.
  - repeat constructor. exact Ha.
  - destruct (Rgt_dec _ _); repeat constructor; auto.
Qed.

Lemma sortByScore_Forall (P : Scored -> Prop) (l : list Scored) :
  Forall P l -> Forall P (sortByScore l).
Proof.
  induction 1 as [|a l Ha Hl IH].
  - constructor.
  - change (sortByScore (a :: l)) with (insertByScore a (sortByScore l)).
    apply insertByScore_Forall; assumption.
Qed.

Lemma applyJammerStrategy_nonneg (m : nat) (y x : list (list R))
  (params : EquilibriumParams) (activeSet : list nat) (newY : list R) :
  0 <= nth m (PJ params) 0 ->
  nonnegMatrix x ->
  nonnegMatrix (g params) ->
  applyJammerStrategy m y x params activeSet = Some newY ->
  nonneg newY.
Proof.
  intros HP Hx Hg. unfold applyJammerStrategy.
  set (P := nth m (PJ params) 0) in *.
  destruct (length activeSet =? 0)%nat.
  { intros H; inversion H; subst. apply nonneg_replicate_0. }
  destruct (jammerStrategy params).
  - rewrite fold_skipping_eligible.
    set (newY1 := fold_left _ _ _).
    assert (H1 : nonneg newY1).
    { unfold newY1.
      apply (nonneg_fold_insert (fun i => i)
               (fun _ => P / INR (length activeSet))).
      - intros t _. apply Rdiv_nonneg; [exact HP | apply pos_INR].
      - apply nonneg_replicate_0. }
    destruct (Rgt_dec _ _) as [Hgt|_]; intros H; inversion H; subst.
    + apply Forall_map. eapply Forall_impl; [exact H1|].
      intros v Hv. simpl. apply Rmult_le_pos; [|exact HP].
      apply Rdiv_nonneg; [exact Hv | lra].
    + exact H1.
  - intros H; inversion H; subst. clear H.
    set (targets := take _ _).
    set (total := fold_left _ targets 0).
    apply (nonneg_fold_insert index
             (fun t => if Rgt_dec total 0 then score t / total * P
                       else P / INR (length targets))).
    + intros t Ht.
      assert (Hs : Forall (fun t => 0 <= score t) targets).
      { unfold targets. apply Forall_take, sortByScore_Forall, Forall_map.
        apply Forall_forall. intros i _. simpl.
        apply Rmult_le_pos; apply nonneg_at2; assumption. }
      destruct (Rgt_dec total 0) as [Hgt|_].
      * apply Rmult_le_pos; [|exact HP]. apply Rdiv_nonneg; [|lra].
        eapply Forall_forall in Hs; [exact Hs | exact Ht].
      * apply Rdiv_nonneg; [exact HP | apply pos_INR].
    + apply nonneg_replicate_0.
  - destruct (attackerGradient m x y params activeSet) as [grad|];
      [|discriminate].
    destruct (Rgt_dec _ _) as [Hgt|_]; intros H; inversion H; subst.
    + apply Forall_map, Forall_forall. intros gi _. simpl.
      apply Rmult_le_pos; [|exact HP].
      apply Rdiv_nonneg; [apply Rmax_l | lra].
    + apply (nonneg_fold_insert (fun i => i)
               (fun _ => P / INR (Nat.max 1 (length _)))).
      * intros t _. apply Rdiv_nonneg; [exact HP | apply pos_INR].
      * apply nonneg_replicate_0.
Qed.








(** ** Invariants of the states of a run *)

(** A property of the initial state that every iteration preserves
    holds after any number of iterations, and those states exist. *)
Lemma reachable_invariant (random : option Z -> nat -> R)
  (params : EquilibriumParams) (st0 : LoopState)
  (P : list (list R) -> list (list R) -> Prop) :
  initialState random params = Some st0 ->
  P (loop_x st0) (loop_y st0) ->
  (forall k x y x' y' e,
     length x = D params -> length y = M params ->
     rowsOfLength (N params) x -> rowsOfLength (N params) y ->
     P x y ->
     iteration params k x y = Some (x', y', e) ->
     P x' y') ->
  forall k, exists x y,
    afterIterations params k (loop_x st0) (loop_y st0) = Some (x, y)
    /\ P x y.
Proof.
  intros Hinit H0 Hstep k. induction k as [|k IH]; simpl.
  - eauto.
  - destruct IH as (x & y & Hk & HP).
    destruct (reachable_shape random params st0 k x y Hinit Hk)
      as (Hx & Hy & Hrx & Hry).
    destruct (iteration_spec params k x y Hx Hy)
      as (x' & y' & e & Hit & _).
    rewrite Hk, Hit. exists x', y'. split; [reflexivity|].
    eapply Hstep; eauto.
Qed.


Lemma sampleParams_valid : validParams sampleParams.
Proof.
  constructor; simpl; try lia; try lra;
    repeat (constructor; simpl; try lia; try lra).
Qed.

Lemma constantRandom_unitInterval : unitInterval constantRandom.
Proof. intros s k. unfold constantRandom. lra. Qed.

(** ** A defender without budget *)








Lemma initDefenders_fold_nth (random : option Z -> nat -> R)
  (params : EquilibriumParams) (n : nat) :
  forall (a : nat) (st : list (list R) * nat),
  length (fst st) = a ->
  let x :=
    fst (fold_left
           (fun st d =>
              let '(alloc, drawn) := initDefender random params d (snd st) in
              (fst st ++ [alloc], drawn))
           (seq a n) st) in
  (forall d, (d < a)%nat -> nth d x [] = nth d (fst st) [])
  /\ (forall d, (a <= d < a + n)%nat ->
        exists drawn, nth d x [] = fst (initDefender random params d drawn)).
Proof.
  induction n as [|n IH]; intros a st Hlen; simpl.
  - split; [reflexivity | intros d Hd; lia].
  - destruct (initDefender random params a (snd st)) as [alloc drawn] eqn:Hi.
    destruct (IH (S a) (fst st ++ [alloc], drawn)) as [Hlow Hhigh].
    { simpl. rewrite length_app. simpl. lia. }
    simpl in Hlow, Hhigh. split.
    + intros d Hd. rewrite Hlow by lia. apply app_nth1. lia.
    + intros d Hd. destruct (decide (d = a)) as [->|Hne].
      * exists (snd st). rewrite Hlow by lia. rewrite Hi. simpl.
        rewrite app_nth2 by lia. rewrite Hlen, Nat.sub_diag. reflexivity.
      * apply Hhigh. lia.
Qed.

Lemma initDefenders_nth (random : option Z -> nat -> R)
  (params : EquilibriumParams) (d : nat) :
  (d < D params)%nat ->
  exists drawn,
    nth d (initDefenders random params) []
    = fst (initDefender random params d drawn).
Proof.
  intros Hd. unfold initDefenders.
  destruct (initDefenders_fold_nth random params (D params) 0 ([], 0%nat)
              eq_refl) as [_ Hhigh].
  apply Hhigh. lia.
Qed.

Lemma totalInterference_lower_bound (y : list (list R))
  (params : EquilibriumParams) (i : nat) :
  nonnegMatrix y -> nonnegMatrix (g params) ->
  sigma2 params <= totalInterference y params i.
Proof.
  intros Hy Hg. unfold totalInterference.
  generalize (seq 0 (M params)). intros ms.
  generalize (sigma2 params). intros acc.
  assert (H : forall acc0, acc <= acc0 ->
            acc <= fold_left
                     (fun acc1 m => acc1 + at2 y m i * at2 (g params) m i)
                     ms acc0).
  { induction ms as [|m ms IH]; intros acc0 Hacc; simpl.
    - exact Hacc.
    - apply IH.
      pose proof (nonneg_at2 y m i Hy). pose proof (nonneg_at2 (g params) m i Hg).
      nra. }
  apply H. lra.
Qed.


(** ** Row sums *)

Lemma sumR_map_mult_r {A} (f : A -> R) (c : R) (l : list A) :
  sumR (map (fun t => f t * c) l) = sumR (map f l) * c.
Proof.
  induction l as [|t l IH]; simpl.
  - rewrite sumR_nil. lra.
  - rewrite !sumR_cons, IH. lra.
Qed.

Lemma sumR_map_const {A} (c : R) (l : list A) :
  sumR (map (fun _ => c) l) = INR (length l) * c.
Proof.
  induction l as [|t l IH].
  - simpl. rewrite sumR_nil. lra.
  - change (length (t :: l)) with (S (length l)).
    simpl map. rewrite sumR_cons, IH, S_INR. lra.
Qed.

Lemma sumR_map_linear {A} (a b : R) (f f' : A -> R) (l : list A) :
  sumR (map (fun t => a * f t + b * f' t) l)
  = a * sumR (map f l) + b * sumR (map f' l).
Proof.
  induction l as [|t l IH]; simpl.
  - rewrite !sumR_nil. lra.
  - rewrite !sumR_cons, IH. lra.
Qed.

Lemma map_nth_seq_R (l : list R) :
  map (fun i => nth i l 0) (seq 0 (length l)) = l.
Proof.
  apply nth_ext_R.
  - rewrite length_map, length_seq. reflexivity.
  - intros i Hi. rewrite length_map, length_seq in Hi.
    apply nth_map_seq. exact Hi.
Qed.

Lemma fold_left_plus_map {A} (f : A -> R) (l : list A) (acc : R) :
  fold_left (fun s t => s + f t) l acc = acc + sumR (map f l).
Proof.
  revert acc. induction l as [|t l IH]; intros acc; simpl.
  - rewrite sumR_nil. lra.
  - rewrite IH, sumR_cons. lra.
Qed.

Lemma sumR_damp (params : EquilibriumParams) (old new : list R) :
  length old = N params -> length new = N params ->
  sumR (damp params old new)
  = (1 - alpha params) * sumR old + alpha params * sumR new.
Proof.
  intros Hold Hnew. unfold damp.
  rewrite (sumR_map_linear (1 - alpha params) (alpha params)
             (fun i => nth i old 0) (fun i => nth i new 0)).
  rewrite <- Hold at 1. rewrite <- Hnew. rewrite !map_nth_seq_R.
  reflexivity.
Qed.

Lemma sumR_projectToSimplex (v : list R) (b : R) :
  v <> [] -> sumR (projectToSimplex v b) = b.
Proof.
  intros Hne. unfold projectToSimplex.
  set (projected := map (Rmax 0) v).
  destruct (Rle_dec (sumR projected) 0) as [Hle|Hgt].
  - rewrite sumR_map_const.
    assert (0 < INR (length projected)).
    { unfold projected. rewrite length_map. apply lt_0_INR.
      destruct v; [congruence | simpl; lia]. }
    field. lra.
  - rewrite (map_ext _ (fun e => e * (/ sumR projected * b)))
      by (intros e; unfold Rdiv; lra).
    rewrite (sumR_map_mult_r (fun e => e)), map_id. field. lra.
Qed.

Lemma sumR_fold_insert {T} (key : T -> nat) (val : T -> R) (l : list T) :
  forall a : list R,
  NoDup (map key l) ->
  (forall t, t ∈ l -> (key t < length a)%nat) ->
  (forall t, t ∈ l -> nth (key t) a 0 = 0) ->
  sumR (fold_left (fun acc t => <[key t := val t]> acc) l a)
  = sumR a + sumR (map val l).
Proof.
  induction l as [|t0 l IH]; intros a Hnd Hlt Hz.
  - simpl. rewrite sumR_nil. lra.
  - simpl in Hnd. apply NoDup_cons in Hnd as [Ht0 Hnd].
    change (fold_left (fun acc t => <[key t := val t]> acc) (t0 :: l) a)
      with (fold_left (fun acc t => <[key t := val t]> acc) l
              (<[key t0 := val t0]> a)).
    rewrite IH.
    + rewrite sumR_insert by (apply Hlt; left).
      rewrite (Hz t0) by left. simpl map. rewrite sumR_cons. lra.
    + exact Hnd.
    + intros t Ht. rewrite length_insert. apply Hlt. right. exact Ht.
    + intros t Ht. rewrite nth_insert_ne.
      * apply Hz. right. exact Ht.
      * intros Heq. apply Ht0. rewrite Heq.
        apply list_elem_of_fmap. exists t. auto.
Qed.

Lemma insertByScore_Permutation (a : Scored) (l : list Scored) :
  insertByScore a l ≡ₚ a :: l.
Proof.
  induction l as [|e l IH]; simpl.
  - reflexivity.
  - destruct (Rgt_dec _ _); [|reflexivity].
    rewrite IH. apply perm_swap.
Qed.

Lemma sortByScore_Permutation (l : list Scored) : sortByScore l ≡ₚ l.
Proof.
  induction l as [|a l IH].
  - reflexivity.
  - change (sortByScore (a :: l)) with (insertByScore a (sortByScore l)).
    rewrite insertByScore_Permutation, IH. reflexivity.
Qed.

Lemma getActiveSet_NoDup (x : list (list R)) (params : EquilibriumParams) :
  NoDup (getActiveSet x params).
Proof.
  unfold getActiveSet. apply NoDup_ListNoDup, List.NoDup_filter.
  apply NoDup_ListNoDup, NoDup_seq.
Qed.

Lemma getActiveSet_lt (x : list (list R)) (params : EquilibriumParams) (i : nat) :
  i ∈ getActiveSet x params -> (i < N params)%nat.
Proof.
  unfold getActiveSet. intros Hi.
  apply list_elem_of_In, filter_In in Hi as [Hi _].
  apply in_seq in Hi. lia.
Qed.

Lemma sumR_equalSplit (params : EquilibriumParams) (m : nat)
  (activeSet : list nat) :
  NoDup activeSet ->
  (forall i, i ∈ activeSet -> (i < N params)%nat) ->
  eligibleSet params activeSet <> [] ->
  sumR (equalSplit params m activeSet) = nth m (PJ params) 0.
Proof.
  intros Hnd Hlt Hne.
  set (E := eligibleSet params activeSet) in *.
  set (c := nth m (PJ params) 0 / INR (length E)).
  assert (HE : forall i, i ∈ E -> (i < length (replicate (N params) 0%R))%nat).
  { intros i Hi. rewrite length_replicate. apply Hlt.
    eapply eligibleSet_elem_of. exact Hi. }
  assert (Heq : equalSplit params m activeSet
                = fold_left (fun acc i => <[i:=c]> acc) E
                    (replicate (N params) 0)).
  { apply nth_ext_R.
    - rewrite length_equalSplit, fold_left_length_preserved
        by (intros acc t; apply length_insert).
      rewrite length_replicate. reflexivity.
    - intros i Hi. rewrite length_equalSplit in Hi.
      rewrite nth_fold_insert_const by exact HE.
      unfold equalSplit. rewrite nth_map_seq by exact Hi.
      rewrite nth_replicate_0. reflexivity. }
  rewrite Heq, sumR_fold_insert_const.
  - rewrite sumR_replicate_0. unfold c.
    assert (0 < INR (length E)).
    { destruct E as [|i E']; [congruence|]. apply (INR_length_pos _ i). left. }
    field. lra.
  - apply eligibleSet_NoDup. exact Hnd.
  - exact HE.
  - intros i _. apply nth_replicate_0.
Qed.

Lemma topK_targets (params : EquilibriumParams) (m : nat) (x : list (list R))
  (activeSet : list nat) (n : nat) :
  let scored :=
    map (fun i => {| index := i;
                     score := at2 x (owner (config params i)) i
                              * at2 (g params) m i |})
      (eligibleSet params activeSet) in
  let targets := take n (sortByScore scored) in
  NoDup activeSet ->
  NoDup (map index targets)
  /\ forall t, t ∈ targets -> index t ∈ eligibleSet params activeSet.
Proof.
  intros scored targets Hnd.
  assert (Hperm : map index (sortByScore scored)
                  ≡ₚ eligibleSet params activeSet).
  { transitivity (map index scored).
    - apply Permutation_map, sortByScore_Permutation.
    - unfold scored. rewrite map_map. simpl. rewrite map_id. reflexivity. }
  assert (Hsub : map index targets `sublist_of` map index (sortByScore scored)).
  { unfold targets.
    change (map index (take n (sortByScore scored)))
      with (index <$> take n (sortByScore scored)).
    rewrite fmap_take. apply sublist_take. }
  split.
  - eapply sublist_NoDup; [|exact Hsub].
    rewrite Hperm. apply eligibleSet_NoDup. exact Hnd.
  - intros t Ht. rewrite <- Hperm.
    eapply elem_of_sublist; [|exact Hsub].
    apply list_elem_of_fmap. exists t. auto.
Qed.

(** With a channel to target, every strategy spends the whole budget. *)
Lemma applyJammerStrategy_sum (m : nat) (y x : list (list R))
  (params : EquilibriumParams) (activeSet : list nat) (newY : list R) :
  NoDup activeSet ->
  (forall i, i ∈ activeSet -> (i < N params)%nat) ->
  eligibleSet params activeSet <> [] ->
  0 <= nth m (PJ params) 0 ->
  (1 <= topK params)%nat ->
  applyJammerStrategy m y x params activeSet = Some newY ->
  sumR newY = nth m (PJ params) 0.
Proof.
  intros Hnd Hlt Hne HP HK Happ.
  destruct (jammerStrategy params) eqn:Hs.
  - rewrite uniform_is_equalSplit in Happ by assumption.
    inversion Happ; subst. apply sumR_equalSplit; assumption.
  - unfold applyJammerStrategy in Happ. rewrite Hs in Happ.
    destruct (length activeSet =? 0)%nat eqn:Hlen.
    { apply Nat.eqb_eq in Hlen. destruct activeSet; [|discriminate].
      exfalso. apply Hne. reflexivity. }
    fold (eligibleSet params activeSet) in Happ.
    set (P := nth m (PJ params) 0) in *.
    set (scored := map _ (eligibleSet params activeSet)) in Happ.
    set (n := Nat.min (topK params) (length (sortByScore scored))) in Happ.
    destruct (topK_targets params m x activeSet n Hnd) as [Hkeys Hin].
    fold scored in Hkeys, Hin.
    set (targets := take n (sortByScore scored)) in *.
    inversion Happ; subst newY. clear Happ.
    rewrite fold_left_plus_map, Rplus_0_l.
    set (total := sumR (map score targets)).
    rewrite (sumR_fold_insert index
               (fun t => if Rgt_dec total 0 then score t / total * P
                         else P / INR (length targets))).
    + rewrite sumR_replicate_0, Rplus_0_l.
      destruct (Rgt_dec total 0) as [Hgt|_].
      * rewrite (map_ext _ (fun t => score t * (/ total * P)))
          by (intros t; unfold Rdiv; lra).
        rewrite sumR_map_mult_r. fold total. field. lra.
      * rewrite sumR_map_const.
        assert (Hlen1 : (1 <= length targets)%nat).
        { unfold targets. rewrite length_take. unfold n.
          rewrite (Permutation_length (sortByScore_Permutation scored)).
          unfold scored. rewrite length_map.
          destruct (eligibleSet params activeSet); [congruence | simpl; lia]. }
        assert (0 < INR (length targets)) by (apply lt_0_INR; lia).
        field. lra.
    + exact Hkeys.
    + intros t Ht. rewrite length_replicate. apply Hlt.
      eapply eligibleSet_elem_of, Hin, Ht.
    + intros t _. apply nth_replicate_0.
  - unfold applyJammerStrategy in Happ. rewrite Hs in Happ.
    destruct (length activeSet =? 0)%nat eqn:Hlen.
    { apply Nat.eqb_eq in Hlen. destruct activeSet; [|discriminate].
      exfalso. apply Hne. reflexivity. }
    destruct (attackerGradient m x y params activeSet) as [grad|];
      [|discriminate].
    fold (eligibleSet params activeSet) in Happ.
    set (P := nth m (PJ params) 0) in *.
    rewrite fold_left_plus_map, Rplus_0_l in Happ.
    destruct (Rgt_dec _ _) as [Hgt|_]; inversion Happ; subst newY; clear Happ.
    + rewrite (map_ext _ (fun gi => Rmax 0 gi
                                    * (/ sumR (map (Rmax 0) grad) * P)))
        by (intros gi; unfold Rdiv; lra).
      rewrite sumR_map_mult_r. field. lra.
    + set (E := eligibleSet params activeSet) in *.
      rewrite sumR_fold_insert_const.
      * rewrite sumR_replicate_0.
        assert (Hlen1 : (1 <= length E)%nat).
        { destruct E; [congruence | simpl; lia]. }
        replace (Nat.max 1 (length E)) with (length E) by lia.
        assert (0 < INR (length E)) by (apply lt_0_INR; lia).
        field. lra.
      * apply eligibleSet_NoDup. exact Hnd.
      * intros i Hi. rewrite length_replicate. apply Hlt.
        eapply eligibleSet_elem_of. exact Hi.
      * intros i _. apply nth_replicate_0.
Qed.

Lemma attackerCandidate_sum (params : EquilibriumParams) (m : nat)
  (y x : list (list R)) (activeSet : list nat) (newY : list R) :
  NoDup activeSet ->
  (forall i, i ∈ activeSet -> (i < N params)%nat) ->
  eligibleSet params activeSet <> [] ->
  0 <= nth m (PJ params) 0 ->
  (1 <= topK params)%nat ->
  length (nth m y []) = N params ->
  attackerCandidate params m y x activeSet = Some newY ->
  sumR newY = nth m (PJ params) 0.
Proof.
  intros Hnd Hlt Hne HP HK Hrow. unfold attackerCandidate.
  destruct (_ || _).
  - apply applyJammerStrategy_sum; assumption.
  - destruct (attackerGradient m x y params activeSet) as [grad|];
      [|discriminate].
    intros H; inversion H; subst. apply sumR_projectToSimplex.
    intros Hnil. apply (f_equal length) in Hnil.
    rewrite length_imap, Hrow in Hnil. simpl in Hnil.
    destruct (eligibleSet params activeSet) as [|i E] eqn:HE; [congruence|].
    assert (Hi : i ∈ activeSet).
    { apply (eligibleSet_elem_of params). rewrite HE. left. }
    apply Hlt in Hi. lia.
Qed.

(** Without an active channel the configured strategy allocates
    nothing. *)
Lemma applyJammerStrategy_no_active (m : nat) (y x : list (list R))
  (params : EquilibriumParams) :
  applyJammerStrategy m y x params [] = Some (replicate (N params) 0).
Proof. reflexivity. Qed.

Lemma fundDecoys_sum (params : EquilibriumParams) (decoyChannels : list nat) :
  forall (alloc : list R) (remaining : R),
  NoDup decoyChannels ->
  (forall i, i ∈ decoyChannels -> (i < length alloc)%nat) ->
  (forall i, i ∈ decoyChannels -> nth i alloc 0 = 0) ->
  sumR (fst (fundDecoys params decoyChannels alloc remaining))
  + snd (fundDecoys params decoyChannels alloc remaining)
  = sumR alloc + remaining
  /\ (forall j, j ∉ decoyChannels ->
        nth j (fst (fundDecoys params decoyChannels alloc remaining)) 0
        = nth j alloc 0)
  /\ length (fst (fundDecoys params decoyChannels alloc remaining))
     = length alloc.
Proof.
  unfold fundDecoys.
  generalize (Nat.max 1 (length decoyChannels)). intros n.
  induction decoyChannels as [|i l IH]; intros alloc remaining Hnd Hlt Hz.
  - simpl. auto.
  - apply NoDup_cons in Hnd as [Hi Hnd]. simpl.
    set (a := Rmin (tau params) (remaining / INR n)).
    destruct (IH (<[i:=a]> alloc) (remaining - a) Hnd) as (Hsum & Hout & Hlen).
    + intros j Hj. rewrite length_insert. apply Hlt. right. exact Hj.
    + intros j Hj. rewrite nth_insert_ne.
      * apply Hz. right. exact Hj.
      * intros ->. apply Hi. exact Hj.
    + split; [|split].
      * rewrite Hsum, sumR_insert by (apply Hlt; left).
        rewrite (Hz i) by left. lra.
      * intros j Hj. rewrite Hout.
        -- apply nth_insert_ne. intros ->. apply Hj. left.
        -- intros Hj'. apply Hj. right. exact Hj'.
      * rewrite Hlen. apply length_insert.
Qed.

Lemma ownedChannels_NoDup (params : EquilibriumParams) (d : nat) :
  NoDup (ownedChannels params d).
Proof.
  unfold ownedChannels. apply NoDup_ListNoDup, List.NoDup_filter.
  apply NoDup_ListNoDup, NoDup_seq.
Qed.

(** Without random initialisation, a defender that owns a real channel
    starts with its whole budget allocated. *)
Lemma initDefender_sum (random : option Z -> nat -> R)
  (params : EquilibriumParams) (d drawn : nat) :
  validParams params ->
  randomInit params = false ->
  ownsRealChannel params d ->
  sumR (fst (initDefender random params d drawn)) = nth d (PT params) 0.
Proof.
  intros Hv Hrnd (i & Hi & Ho & Ht). unfold initDefender. rewrite Hrnd.
  set (owned := ownedChannels params d).
  set (reals := List.filter
                  (fun i => bool_decide (type (config params i) = real)) owned).
  set (decoys := List.filter
                   (fun i => bool_decide (type (config params i) = decoy))
                   owned).
  assert (Hown : i ∈ owned).
  { apply list_elem_of_In. unfold owned, ownedChannels. apply filter_In. split.
    - apply in_seq. rewrite (valid_channelConfig_length params Hv). lia.
    - rewrite Ho, Nat.eqb_refl, Ht. reflexivity. }
  assert (Hreal : i ∈ reals).
  { apply list_elem_of_In. unfold reals. apply filter_In. split.
    - apply list_elem_of_In. exact Hown.
    - rewrite Ht. reflexivity. }
  assert (Hlo : (0 <? length owned)%nat = true).
  { apply Nat.ltb_lt. destruct owned; [inversion Hown | simpl; lia]. }
  assert (Hlr : (0 <? length reals)%nat = true).
  { apply Nat.ltb_lt. destruct reals; [inversion Hreal | simpl; lia]. }
  rewrite Hlo.
  assert (Hbound : forall j, j ∈ owned -> (j < N params)%nat).
  { intros j Hj. apply list_elem_of_In in Hj. unfold owned, ownedChannels in Hj.
    apply filter_In in Hj as [Hj _]. apply in_seq in Hj.
    rewrite (valid_channelConfig_length params Hv) in Hj. lia. }
  assert (Hsub_d : forall j, j ∈ decoys ->
                     j ∈ owned /\ type (config params j) = decoy).
  { intros j Hj. apply list_elem_of_In in Hj. unfold decoys in Hj.
    apply filter_In in Hj as [Hj Hjt]. split.
    - apply list_elem_of_In. exact Hj.
    - apply bool_decide_eq_true_1 in Hjt. exact Hjt. }
  assert (Hsub_r : forall j, j ∈ reals ->
                     j ∈ owned /\ type (config params j) = real).
  { intros j Hj. apply list_elem_of_In in Hj. unfold reals in Hj.
    apply filter_In in Hj as [Hj Hjt]. split.
    - apply list_elem_of_In. exact Hj.
    - apply bool_decide_eq_true_1 in Hjt. exact Hjt. }
  destruct (fundDecoys_sum params decoys (replicate (N params) 0)
              (nth d (PT params) 0))
    as (Hsum & Hout & Hlen).
  { apply NoDup_ListNoDup, List.NoDup_filter, NoDup_ListNoDup.
    apply ownedChannels_NoDup. }
  { intros j Hj. rewrite length_replicate. apply Hbound, Hsub_d, Hj. }
  { intros j _. apply nth_replicate_0. }
  destruct (fundDecoys params decoys (replicate (N params) 0)
              (nth d (PT params) 0)) as [alloc remaining].
  simpl in Hsum, Hout, Hlen. rewrite Hlr. simpl.
  rewrite sumR_fold_insert_const.
  - rewrite sumR_replicate_0 in Hsum.
    assert (0 < INR (length reals)).
    { apply lt_0_INR. apply Nat.ltb_lt. exact Hlr. }
    replace (INR (length reals) * (remaining / INR (length reals)))
      with remaining by (field; lra).
    lra.
  - apply NoDup_ListNoDup, List.NoDup_filter, NoDup_ListNoDup.
    apply ownedChannels_NoDup.
  - intros j Hj. rewrite Hlen, length_replicate. apply Hbound, Hsub_r, Hj.
  - intros j Hj. rewrite Hout.
    + apply nth_replicate_0.
    + intros Hjd. destruct (Hsub_d j Hjd) as [_ Hd1].
      destruct (Hsub_r j Hj) as [_ Hr1]. congruence.
Qed.

Lemma iteration_row_sums (params : EquilibriumParams) (k : nat)
  (x y x' y' : list (list R)) (e : ConvergenceEntry) :
  validParams params ->
  length x = D params ->
  length y = M params ->
  rowsOfLength (N params) x ->
  rowsOfLength (N params) y ->
  iteration params k x y = Some (x', y', e) ->
  (forall d, (d < D params)%nat ->
     sumR (nth d x' [])
     = (1 - alpha params) * sumR (nth d x [])
       + alpha params * nth d (PT params) 0)
  /\ (forall m, (m < M params)%nat ->
        eligibleSet params (getActiveSet x' params) <> [] ->
        sumR (nth m y' [])
        = (1 - alpha params) * sumR (nth m y [])
          + alpha params * nth m (PJ params) 0)
  /\ (forall m, (m < M params)%nat ->
        getActiveSet x' params = [] ->
        attackerMode params = coordinated
        \/ jammerStrategy params <> J3_optimization ->
        sumR (nth m y' []) = (1 - alpha params) * sumR (nth m y [])).
Proof.
  intros Hv Hx Hy Hrx Hry Hit.
  destruct (iteration_spec params k x y Hx Hy)
    as (x1 & y1 & e1 & Hit1 & _ & _ & Hdef & Hatt & _).
  rewrite Hit in Hit1. inversion Hit1; subst x1 y1 e1.
  pose proof (valid_N params Hv) as HN.
  split; [|split].
  - intros d Hd. rewrite Hdef by exact Hd.
    assert (Hrow : length (nth d x []) = N params).
    { apply rowsOfLength_nth; [exact Hrx | lia]. }
    rewrite sumR_damp.
    + unfold defenderCandidate. rewrite sumR_projectToSimplex; [reflexivity|].
      intros Hnil. apply (f_equal length) in Hnil.
      rewrite length_imap, Hrow in Hnil. simpl in Hnil. lia.
    + exact Hrow.
    + unfold defenderCandidate.
      rewrite length_projectToSimplex, length_imap. exact Hrow.
  - intros m Hm Hne.
    destruct (Hatt m Hm) as (yMid & newY & _ & Hsame & Hc & ->).
    assert (Hrow : length (nth m y []) = N params).
    { apply rowsOfLength_nth; [exact Hry | lia]. }
    rewrite sumR_damp.
    + rewrite (attackerCandidate_sum params m yMid x'
                 (getActiveSet x' params) newY); try assumption.
      * reflexivity.
      * apply getActiveSet_NoDup.
      * apply getActiveSet_lt.
      * apply nonneg_nth, Hv.
      * apply Hv.
      * rewrite Hsame. exact Hrow.
    + exact Hrow.
    + eapply length_attackerCandidate; [|exact Hc]. rewrite Hsame. exact Hrow.
  - intros m Hm Hempty Hmode.
    destruct (Hatt m Hm) as (yMid & newY & _ & Hsame & Hc & ->).
    assert (Hrow : length (nth m y []) = N params).
    { apply rowsOfLength_nth; [exact Hry | lia]. }
    assert (HnewY : newY = replicate (N params) 0).
    { unfold attackerCandidate in Hc. rewrite Hempty in Hc.
      assert (Hb : bool_decide (attackerMode params = coordinated)
                   || negb (bool_decide (jammerStrategy params
                                         = J3_optimization)) = true).
      { destruct Hmode as [Hm1|Hm1].
        - rewrite (bool_decide_eq_true_2 _ Hm1). reflexivity.
        - rewrite (bool_decide_eq_false_2 _ Hm1). apply orb_true_r. }
      rewrite Hb, applyJammerStrategy_no_active in Hc.
      inversion Hc. reflexivity. }
    rewrite sumR_damp.
    + rewrite HnewY, sumR_replicate_0. lra.
    + exact Hrow.
    + rewrite HnewY. apply length_replicate.
Qed.

Lemma defender_budget_invariant (random : option Z -> nat -> R)
  (params : EquilibriumParams) (st0 : LoopState) (d : nat) :
  validParams params ->
  initialState random params = Some st0 ->
  randomInit params = false ->
  (d < D params)%nat ->
  ownsRealChannel params d ->
  forall k, exists x y,
    afterIterations params k (loop_x st0) (loop_y st0) = Some (x, y)
    /\ sumR (nth d x []) = nth d (PT params) 0.
Proof.
  intros Hv Hinit Hrnd Hd Hown.
  apply (reachable_invariant random params st0
           (fun x y => sumR (nth d x []) = nth d (PT params) 0) Hinit).
  - destruct (initialState_shape random params st0 Hinit) as (-> & _).
    destruct (initDefenders_nth random params d Hd) as [drawn ->].
    apply initDefender_sum; assumption.
  - intros k x y x' y' e Hx Hy Hrx Hry Hs Hit.
    destruct (iteration_row_sums params k x y x' y' e Hv Hx Hy Hrx Hry Hit)
      as (Hdef & _).
    rewrite (Hdef d Hd), Hs. lra.
Qed.

Lemma decoyOnlyParams_valid : validParams decoyOnlyParams.
Proof.
  constructor; simpl; try lia; try lra;
    repeat (constructor; simpl; try lia; try lra).
Qed.

Lemma decoyOnlyParams_initDefenders :
  initDefenders constantRandom decoyOnlyParams = [[1]].
Proof.
  unfold initDefenders, initDefender, fundDecoys. simpl.
  rewrite Rmin_left by lra. reflexivity.
Qed.

(** The defender of [decoyOnlyParams] starts with the threshold power 1
    on its decoy and nothing else; after the first iteration its row
    sums to 5.5, not to its budget 10. *)
Lemma decoy_only_defender_misses_budget :
  validParams decoyOnlyParams
  /\ exists (st0 : LoopState) (x' y' : list (list R)) (e : ConvergenceEntry),
       initialState constantRandom decoyOnlyParams = Some st0
       /\ iteration decoyOnlyParams 0 (loop_x st0) (loop_y st0)
          = Some (x', y', e)
       /\ sumR (nth 0 x' []) = 5.5
       /\ sumR (nth 0 x' []) <> nth 0 (PT decoyOnlyParams) 0.
Proof.
  split; [exact decoyOnlyParams_valid|].
  destruct (initialState_total constantRandom decoyOnlyParams) as [st0 Hst0];
    [discriminate|].
  destruct (initialState_shape constantRandom decoyOnlyParams st0 Hst0)
    as (Hx0 & _ & Hx & Hy & _).
  destruct (initialState_rows constantRandom decoyOnlyParams st0 Hst0)
    as [Hrx Hry].
  destruct (iteration_spec decoyOnlyParams 0 (loop_x st0) (loop_y st0) Hx Hy)
    as (x' & y' & e & Hit & _).
  destruct (iteration_row_sums decoyOnlyParams 0 (loop_x st0) (loop_y st0)
              x' y' e decoyOnlyParams_valid Hx Hy Hrx Hry Hit)
    as (Hdef & _).
  specialize (Hdef 0%nat ltac:(simpl; lia)).
  rewrite Hx0, decoyOnlyParams_initDefenders in Hdef. simpl in Hdef.
  rewrite sumR_cons, sumR_nil in Hdef.
  assert (Hsum : sumR (nth 0 x' []) = 5.5) by lra.
  exists st0, x', y', e.
  split; [exact Hst0|]. split; [exact Hit|]. split; [exact Hsum|].
  rewrite Hsum. simpl. lra.
Qed.

(** ** Where the code and the worded attacker utility agree *)

Lemma fold_left_additive {A} (step : R -> A -> R) (term : A -> R)
  (l : list A) :
  (forall u i, step u i = u + term i) ->
  forall acc, fold_left step l acc = acc + sumR (map term l).
Proof.
  intros Hstep. induction l as [|i l IH]; intros acc; simpl.
  - rewrite sumR_nil. lra.
  - rewrite IH, Hstep, sumR_cons. lra.
Qed.

(** The code sums over the owned real channels, or over every owned
    channel that is not of type inactive; the active set plays no part. *)
Lemma calculateDefenderUtility_as_sum (d : nat) (x y : list (list R))
  (params : EquilibriumParams) (activeSet : list nat) (onlyReal : bool) :
  calculateDefenderUtility d x y params activeSet onlyReal
  = specDefenderUtility
      (fun i =>
         if onlyReal then bool_decide (type (config params i) = real)
         else negb (bool_decide (type (config params i) = inactive)))
      d x y params.
Proof.
  unfold calculateDefenderUtility, specDefenderUtility.
  rewrite (fold_left_additive _
             (fun i =>
                if (owner (config params i) =? d)%nat
                   && (if onlyReal
                       then bool_decide (type (config params i) = real)
                       else negb (bool_decide
                                    (type (config params i) = inactive)))
                then
                  if Rle_dec (at2 x d i) 0 then 0
                  else ln (1 + at2 x d i * at2 (h params) d i
                               / totalInterference y params i)
                else 0)).
  - lra.
  - intros u i. simpl.
    destruct (owner (config params i) =? d)%nat; simpl; [|lra].
    destruct onlyReal; simpl.
    + destruct (bool_decide (type (config params i) = real)); simpl; [|lra].
      destruct (Rle_dec (at2 x d i) 0); lra.
    + destruct (bool_decide (type (config params i) = inactive)); simpl; [lra|].
      destruct (Rle_dec (at2 x d i) 0); lra.
Qed.

Lemma calculateAttackerUtility_as_sum (m : nat) (x y : list (list R))
  (params : EquilibriumParams) (activeSet : list nat) :
  calculateAttackerUtility m x y params activeSet
  = - sumR
        (map
           (fun d =>
              calculateDefenderUtility d x y params activeSet
                (bool_decide (jammerObjective params = oracle)))
           (seq 0 (D params))).
Proof.
  unfold calculateAttackerUtility. f_equal.
  rewrite (fold_left_additive _
             (fun d =>
                calculateDefenderUtility d x y params activeSet
                  (bool_decide (jammerObjective params = oracle)))).
  - lra.
  - intros u d.
    destruct (decide (jammerObjective params = oracle)) as [Ho|Ho].
    + rewrite (bool_decide_eq_true_2 _ Ho). reflexivity.
    + rewrite (bool_decide_eq_false_2 _ Ho). reflexivity.
Qed.

(** Under the oracle objective the code is the worded utility. *)
Lemma calculateAttackerUtility_oracle (m : nat) (x y : list (list R))
  (params : EquilibriumParams) (activeSet : list nat) :
  jammerObjective params = oracle ->
  calculateAttackerUtility m x y params activeSet
  = specAttackerUtility m x y params activeSet.
Proof.
  intros Ho. rewrite calculateAttackerUtility_as_sum.
  unfold specAttackerUtility. rewrite Ho. f_equal. f_equal.
  apply map_ext. intros d.
  rewrite calculateDefenderUtility_as_sum. reflexivity.
Qed.

(** Under the deception objective the code sums over every channel that
    is not of type inactive, inside the active set or not. *)
Lemma calculateAttackerUtility_deception (m : nat) (x y : list (list R))
  (params : EquilibriumParams) (activeSet : list nat) :
  jammerObjective params = deception ->
  calculateAttackerUtility m x y params activeSet
  = - sumR
        (map
           (fun d =>
              specDefenderUtility
                (fun i =>
                   negb (bool_decide (type (config params i) = inactive)))
                d x y params)
           (seq 0 (D params))).
Proof.
  intros Ho. rewrite calculateAttackerUtility_as_sum. f_equal. f_equal.
  apply map_ext. intros d.
  rewrite calculateDefenderUtility_as_sum, Ho. reflexivity.
Qed.

(** ** Requests that validation does reject *)

Lemma rejected_request_never_reaches_engine (toString : Q -> string)
  (runEquilibriumOn : JSON -> option EquilibriumResult) (request : JSON) :
  valid (validateEquilibriumParams toString request) = false ->
  serveEquilibrium toString runEquilibriumOn request
  = {| status := 400;
       body := ErrorBody (error (validateEquilibriumParams toString request)) |}.
Proof.
  intros Hv. unfold serveEquilibrium. rewrite Hv. reflexivity.
Qed.

(** ** An attacker facing an empty active set *)

Lemma belowThresholdParams_valid : validParams belowThresholdParams.
Proof.
  constructor; simpl; try lia; try lra;
    repeat (constructor; simpl; try lia; try lra).
Qed.

Lemma belowThresholdParams_initDefenders :
  initDefenders constantRandom belowThresholdParams = [[1]].
Proof.
  unfold initDefenders, initDefender, fundDecoys. simpl.
  do 2 f_equal. field.
Qed.

Lemma sumR_singleton (l : list R) :
  length l = 1%nat -> l = [sumR l].
Proof.
  destruct l as [|v [|w l]]; try discriminate.
  intros _. rewrite sumR_cons, sumR_nil. f_equal. lra.
Qed.

(** The only channel of [belowThresholdParams] stays below the sensing
    threshold, so the active set is empty when the attacker moves: after
    the first iteration its row sums to 0, not to its budget 1. *)
Lemma attacker_without_active_channel_misses_budget :
  validParams belowThresholdParams
  /\ exists (st0 : LoopState) (x' y' : list (list R)) (e : ConvergenceEntry),
       initialState constantRandom belowThresholdParams = Some st0
       /\ iteration belowThresholdParams 0 (loop_x st0) (loop_y st0)
          = Some (x', y', e)
       /\ getActiveSet x' belowThresholdParams = []
       /\ sumR (nth 0 y' []) = 0
       /\ sumR (nth 0 y' []) <> nth 0 (PJ belowThresholdParams) 0.
Proof.
  split; [exact belowThresholdParams_valid|].
  pose proof belowThresholdParams_valid as Hv.
  destruct (initialState_total constantRandom belowThresholdParams)
    as [st0 Hst0]; [discriminate|].
  destruct (initialState_shape constantRandom belowThresholdParams st0 Hst0)
    as (Hx0 & Hy0 & Hx & Hy & _).
  destruct (initialState_rows constantRandom belowThresholdParams st0 Hst0)
    as [Hrx Hry].
  rewrite belowThresholdParams_initDefenders in Hx0, Hy0.
  assert (Hact0 : getActiveSet [[1]] belowThresholdParams = []).
  { unfold getActiveSet, at2. simpl.
    destruct (Rge_dec 1 2) as [Hge|_]; [lra | reflexivity]. }
  assert (Hy00 : loop_y st0 = [[0]]).
  { unfold initAttackers in Hy0. rewrite Hact0 in Hy0. simpl in Hy0.
    inversion Hy0. reflexivity. }
  destruct (iteration_spec belowThresholdParams 0 (loop_x st0) (loop_y st0)
              Hx Hy)
    as (x' & y' & e & Hit & Hx' & _ & Hdef & _).
  destruct (iteration_row_sums belowThresholdParams 0 (loop_x st0)
              (loop_y st0) x' y' e Hv Hx Hy Hrx Hry Hit)
    as (Hsum & _ & Hnone).
  destruct (iteration_rows belowThresholdParams 0 (loop_x st0) (loop_y st0)
              x' y' e Hx Hy Hit) as [Hrx' _].
  assert (Hrow : nth 0 x' [] = [1]).
  { assert (Hlen : length (nth 0 x' []) = 1%nat).
    { apply (rowsOfLength_nth (N belowThresholdParams)); [exact Hrx'|].
      rewrite Hx'. simpl. lia. }
    rewrite (sumR_singleton _ Hlen). f_equal.
    rewrite (Hsum 0%nat) by (simpl; lia).
    rewrite Hx0. simpl. rewrite sumR_cons, sumR_nil. lra. }
  assert (Hact : getActiveSet x' belowThresholdParams = []).
  { unfold getActiveSet, at2. simpl. rewrite Hrow. simpl.
    destruct (Rge_dec 1 2) as [Hge|_]; [lra | reflexivity]. }
  assert (Hy' : sumR (nth 0 y' []) = 0).
  { rewrite (Hnone 0%nat).
    - rewrite Hy00. simpl. rewrite sumR_cons, sumR_nil. lra.
    - simpl. lia.
    - exact Hact.
    - left. reflexivity. }
  exists st0, x', y', e.
  split; [exact Hst0|]. split; [exact Hit|]. split; [exact Hact|].
  split; [exact Hy'|]. rewrite Hy'. simpl. lra.
Qed.

(** ** The gradient strategy at initialisation *)

(** The attackers are initialised by calling the strategy with an empty
    [y]; the gradient strategy reads the rows of [y] as soon as an
    eligible channel carries power, and the run ends there. *)
Lemma applyJammerStrategy_gradient_without_rows (m : nat) (x : list (list R))
  (params : EquilibriumParams) (activeSet : list nat) (i : nat) :
  jammerStrategy params = J3_optimization ->
  (1 <= M params)%nat ->
  (i < N params)%nat ->
  i ∈ activeSet ->
  skippedByObjective params i = false ->
  0 < at2 x (owner (config params i)) i ->
  applyJammerStrategy m [] x params activeSet = None.
Proof.
  intros Hs HM Hi Hact Hskip Hpow. unfold applyJammerStrategy. rewrite Hs.
  destruct (Nat.eqb_spec (length activeSet) 0) as [Hnil|_].
  { destruct activeSet; [inversion Hact | discriminate]. }
  assert (Hg : attackerGradient m x [] params activeSet = None).
  { unfold attackerGradient. apply mapM_None_2, Exists_exists.
    exists i. split; [apply elem_of_seq; lia|].
    simpl. rewrite (proj2 (has_elem_of activeSet i) Hact), Hskip. simpl.
    destruct (Rle_dec _ _) as [Hle|_]; [lra|].
    unfold interferenceOrThrow.
    destruct (decide (length (@nil (list R)) < M params)%nat) as [_|Hge];
      [reflexivity | simpl in Hge; lia]. }
  rewrite Hg. reflexivity.
Qed.

Lemma gradient_strategy_raises_at_initialisation :
  validParams (withStrategy decoyOnlyParams J3_optimization)
  /\ runEquilibrium constantRandom (withStrategy decoyOnlyParams J3_optimization)
     = None.
Proof.
  split.
  { constructor; simpl; try lia; try lra;
      repeat (constructor; simpl; try lia; try lra). }
  unfold runEquilibrium, initialState.
  change (initDefenders constantRandom
            (withStrategy decoyOnlyParams J3_optimization))
    with (initDefenders constantRandom decoyOnlyParams).
  rewrite decoyOnlyParams_initDefenders.
  assert (Hact : getActiveSet [[1]] (withStrategy decoyOnlyParams J3_optimization)
                 = [0%nat]).
  { unfold getActiveSet, at2. simpl.
    destruct (Rge_dec 1 1) as [_|Hn]; [reflexivity | lra]. }
  assert (Hy : initAttackers (withStrategy decoyOnlyParams J3_optimization)
                 [[1]] = None).
  { unfold initAttackers. apply mapM_None_2, Exists_exists.
    exists 0%nat. split; [apply elem_of_seq; simpl; lia|].
    rewrite Hact.
    apply (applyJammerStrategy_gradient_without_rows 0 [[1]]
             (withStrategy decoyOnlyParams J3_optimization) [0%nat] 0%nat).
    - reflexivity.
    - simpl. lia.
    - simpl. lia.
    - left.
    - reflexivity.
    - unfold at2. simpl. lra. }
  rewrite Hy. reflexivity.
Qed.

(** * Further properties of the engine *)

(** ** The projection *)

(** X1. The projection of a non-empty vector keeps its length and sums to
    the budget; with a non-negative budget no entry is negative. *)
Theorem projectToSimplex_onto_budget (v : list R) (b : R) :
  v <> [] ->
  length (projectToSimplex v b) = length v
  /\ sumR (projectToSimplex v b) = b
  /\ (0 <= b -> nonneg (projectToSimplex v b)).
Proof.
  intros Hne. split; [apply length_projectToSimplex|].
  split; [apply sumR_projectToSimplex; exact Hne|].
  apply projectToSimplex_nonneg.
Qed.

Lemma projectToSimplex_onto_budget_witness :
  length (projectToSimplex [-1; 3] 4) = length [-1; 3]
  /\ sumR (projectToSimplex [-1; 3] 4) = 4
  /\ (0 <= 4 -> nonneg (projectToSimplex [-1; 3] 4)).
Proof.
  apply projectToSimplex_onto_budget. discriminate.
Defined.

Lemma sumR_nonpos_clamped (v : list R) :
  Forall (fun e => e <= 0) v -> sumR (map (Rmax 0) v) = 0.
Proof.
  induction 1 as [|e l He _ IH]; simpl.
  - apply sumR_nil.
  - rewrite sumR_cons, IH, Rmax_left by exact He. lra.
Qed.

(** X2. When no entry is positive the projection falls back to the
    uniform split of the budget over all slots. *)
Theorem projectToSimplex_uniform_fallback (v : list R) (b : R) :
  Forall (fun e => e <= 0) v ->
  projectToSimplex v b = replicate (length v) (b / INR (length v)).
Proof.
  intros Hv. unfold projectToSimplex.
  rewrite (sumR_nonpos_clamped v Hv).
  destruct (Rle_dec 0 0) as [_|Hn]; [|lra].
  rewrite length_map, map_map.
  generalize (b / INR (length v)). intros c. clear Hv.
  induction v as [|e l IH]; simpl; [reflexivity | rewrite IH; reflexivity].
Qed.

Lemma projectToSimplex_uniform_fallback_witness :
  projectToSimplex [-2; 0; -1] 6 = replicate 3 (6 / INR 3).
Proof.
  apply (projectToSimplex_uniform_fallback [-2; 0; -1] 6).
  repeat constructor; lra.
Defined.

(** ** The active set *)

Lemma StronglySorted_List_filter {A} (rel : A -> A -> Prop) (f : A -> bool)
  (l : list A) :
  StronglySorted rel l -> StronglySorted rel (List.filter f l).
Proof.
  induction 1 as [|a l Hl IH Ha]; simpl.
  - constructor.
  - destruct (f a); [|exact IH]. constructor; [exact IH|].
    apply Forall_forall. intros b Hb.
    apply list_elem_of_In, filter_In in Hb as [Hb _].
    eapply Forall_forall in Ha; [exact Ha|]. apply list_elem_of_In. exact Hb.
Qed.

(** X3. A channel is in the active set exactly when it lies below [N],
    is not of type inactive and its owner's power on it reaches the
    threshold; the members are listed once each, in increasing order. *)
Theorem getActiveSet_spec (x : list (list R)) (params : EquilibriumParams) :
  (forall i,
     i ∈ getActiveSet x params
     <-> (i < N params)%nat
         /\ type (config params i) <> inactive
         /\ tau params <= at2 x (owner (config params i)) i)
  /\ NoDup (getActiveSet x params)
  /\ StronglySorted lt (getActiveSet x params).
Proof.
  split; [|split].
  - intros i. unfold getActiveSet.
    rewrite list_elem_of_In, filter_In, in_seq. simpl.
    destruct (decide (type (config params i) = inactive)) as [Hin|Hin].
    + split; [intros [_ H]; discriminate | intros (_ & H & _); contradiction].
    + destruct (Rge_dec (at2 x (owner (config params i)) i) (tau params))
        as [Hge|Hlt].
      * split; [intros [H _] | intros (H & _ & _)];
          repeat split; auto; try lia; lra.
      * split; [intros [_ H]; discriminate | intros (_ & _ & H); lra].
  - apply getActiveSet_NoDup.
  - unfold getActiveSet. apply StronglySorted_List_filter.
    generalize 0%nat. induction (N params) as [|n IH]; intros s; simpl.
    + constructor.
    + constructor; [apply IH|]. apply Forall_forall. intros j Hj.
      apply elem_of_seq in Hj. lia.
Qed.

(** ** The jammer strategies *)

Lemma nth_fold_insert_other {T} (key : T -> nat) (val : T -> R) (l : list T)
  (j : nat) :
  (forall t, t ∈ l -> key t <> j) ->
  forall a, nth j (fold_left (fun acc t => <[key t := val t]> acc) l a) 0
            = nth j a 0.
Proof.
  induction l as [|t l IH]; intros Hk a; simpl.
  - reflexivity.
  - rewrite IH.
    + apply nth_insert_ne. apply Hk. left.
    + intros t' Ht'. apply Hk. right. exact Ht'.
Qed.

Lemma nth_map_default_0 (f : R -> R) (l : list R) (i : nat) :
  f 0 = 0 -> nth i (map f l) 0 = f (nth i l 0).
Proof.
  intros Hf. rewrite <- Hf at 1. apply map_nth.
Qed.

Lemma eligibleSet_spec (params : EquilibriumParams) (activeSet : list nat)
  (i : nat) :
  i ∈ eligibleSet params activeSet
  <-> i ∈ activeSet /\ skippedByObjective params i = false.
Proof.
  unfold eligibleSet. rewrite list_elem_of_In, filter_In, <- list_elem_of_In.
  destruct (skippedByObjective params i); simpl; intuition congruence.
Qed.

Lemma attackerGradient_outside (m : nat) (x y : list (list R))
  (params : EquilibriumParams) (activeSet : list nat) (grad : list R) (i : nat) :
  attackerGradient m x y params activeSet = Some grad ->
  i ∉ eligibleSet params activeSet ->
  nth i grad 0 = 0.
Proof.
  intros Hg Hi. unfold attackerGradient in Hg. apply mapM_Some_1 in Hg.
  destruct (nth_lookup_or_length grad i 0) as [Hl|Hl];
    [|apply nth_overflow; lia].
  destruct (Forall2_lookup_r _ _ _ _ _ Hg Hl) as (j & Hj & Hf).
  apply lookup_seq in Hj as [-> _]. simpl in Hf.
  destruct (has activeSet i) eqn:Hhas; simpl in Hf;
    [|inversion Hf; congruence].
  destruct (skippedByObjective params i) eqn:Hskip;
    [inversion Hf; congruence|].
  exfalso. apply Hi, eligibleSet_spec. split; [|exact Hskip].
  apply has_elem_of. exact Hhas.
Qed.

(** X4. Whatever the strategy, the row it returns has no power on a
    channel outside the eligible set (the active channels, only the
    real ones among them under the oracle objective). *)
Theorem applyJammerStrategy_only_eligible (m : nat) (y x : list (list R))
  (params : EquilibriumParams) (activeSet : list nat) (newY : list R)
  (i : nat) :
  applyJammerStrategy m y x params activeSet = Some newY ->
  i ∉ eligibleSet params activeSet ->
  nth i newY 0 = 0.
Proof.
  intros Happ Hi. unfold applyJammerStrategy in Happ.
  destruct (length activeSet =? 0)%nat.
  { inversion Happ; subst. apply nth_replicate_0. }
  destruct (jammerStrategy params).
  - rewrite fold_skipping_eligible in Happ.
    set (newY1 := fold_left _ _ _) in Happ.
    assert (H1 : nth i newY1 0 = 0).
    { unfold newY1.
      rewrite (nth_fold_insert_other (fun j => j) (fun _ => _)).
      - apply nth_replicate_0.
      - intros t Ht ->. apply Hi. exact Ht. }
    destruct (Rgt_dec _ _); inversion Happ; subst; [|exact H1].
    rewrite nth_map_default_0 by (unfold Rdiv; lra).
    rewrite H1. unfold Rdiv. lra.
  - inversion Happ; subst. clear Happ.
    fold (eligibleSet params activeSet).
    set (n := Nat.min _ _).
    rewrite (nth_fold_insert_other index (fun t => _)).
    + apply nth_replicate_0.
    + intros t Ht Hidx. apply Hi. rewrite <- Hidx.
      apply list_elem_of_In.
      assert (Ht' : t ∈ sortByScore
                      (map (fun i0 =>
                              {| index := i0;
                                 score := at2 x (owner (config params i0)) i0
                                          * at2 (g params) m i0 |})
                         (eligibleSet params activeSet))).
      { eapply elem_of_sublist; [exact Ht | apply sublist_take]. }
      rewrite sortByScore_Permutation in Ht'.
      apply list_elem_of_fmap in Ht' as (j & -> & Hj). simpl.
      apply list_elem_of_In. exact Hj.
  - destruct (attackerGradient m x y params activeSet) as [grad|] eqn:Hg;
      [|discriminate].
    destruct (Rgt_dec _ _); inversion Happ; subst.
    + rewrite nth_map_default_0.
      * rewrite (attackerGradient_outside m x y params activeSet grad i Hg Hi).
        rewrite Rmax_left by lra. unfold Rdiv. lra.
      * rewrite Rmax_left by lra. unfold Rdiv. lra.
    + fold (eligibleSet params activeSet).
      rewrite (nth_fold_insert_other (fun j => j) (fun _ => _)).
      * apply nth_replicate_0.
      * intros t Ht ->. apply Hi. exact Ht.
Qed.

Lemma applyJammerStrategy_only_eligible_witness :
  nth 2 (equalSplit sampleParams 0 [0; 1]%nat) 0 = 0.
Proof.
  apply (applyJammerStrategy_only_eligible 0 [] [[5; 5; 0; 0]] sampleParams
           [0; 1]%nat (equalSplit sampleParams 0 [0; 1]%nat) 2).
  - apply uniform_is_equalSplit.
    + reflexivity.
    + apply NoDup_ListNoDup. repeat constructor; simpl; intuition lia.
    + intros i Hi. apply list_elem_of_In in Hi. simpl in *. intuition lia.
    + simpl. lra.
  - intros Hi. apply list_elem_of_In in Hi. vm_compute in Hi.
    intuition lia.
Defined.

(** X5. With at least one eligible channel, a non-negative budget and
    [topK] at least one, every strategy returns a row of [N]
    non-negative entries that sums to the attacker's budget. *)
Theorem applyJammerStrategy_spends_budget (m : nat) (y x : list (list R))
  (params : EquilibriumParams) (activeSet : list nat) (newY : list R) :
  NoDup activeSet ->
  (forall i, i ∈ activeSet -> (i < N params)%nat) ->
  eligibleSet params activeSet <> [] ->
  0 <= nth m (PJ params) 0 ->
  (1 <= topK params)%nat ->
  nonnegMatrix x ->
  nonnegMatrix (g params) ->
  applyJammerStrategy m y x params activeSet = Some newY ->
  length newY = N params
  /\ sumR newY = nth m (PJ params) 0
  /\ nonneg newY.
Proof.
  intros Hnd Hlt Hne HP HK Hx Hg Happ.
  split; [eapply length_applyJammerStrategy; exact Happ|].
  split.
  - exact (applyJammerStrategy_sum m y x params activeSet newY
             Hnd Hlt Hne HP HK Happ).
  - exact (applyJammerStrategy_nonneg m y x params activeSet newY
             HP Hx Hg Happ).
Qed.

Lemma applyJammerStrategy_spends_budget_witness :
  length (equalSplit sampleParams 0 [0; 1]%nat) = N sampleParams
  /\ sumR (equalSplit sampleParams 0 [0; 1]%nat) = nth 0 (PJ sampleParams) 0
  /\ nonneg (equalSplit sampleParams 0 [0; 1]%nat).
Proof.
  assert (Hnd : NoDup [0; 1]%nat).
  { apply NoDup_ListNoDup. repeat constructor; simpl; intuition lia. }
  assert (Hlt : forall i, i ∈ [0; 1]%nat -> (i < N sampleParams)%nat).
  { intros i Hi. apply list_elem_of_In in Hi. simpl in *. intuition lia. }
  assert (HP : 0 <= nth 0 (PJ sampleParams) 0) by (simpl; lra).
  apply (applyJammerStrategy_spends_budget 0 [] [[5; 5; 0; 0]] sampleParams
           [0; 1]%nat (equalSplit sampleParams 0 [0; 1]%nat)).
  - exact Hnd.
  - exact Hlt.
  - vm_compute. discriminate.
  - exact HP.
  - simpl. lia.
  - repeat constructor; lra.
  - repeat constructor; lra.
  - apply uniform_is_equalSplit; [reflexivity | exact Hnd | exact Hlt | exact HP].
Defined.



Lemma attackerGradient_raises_iff (m : nat) (x y : list (list R))
  (params : EquilibriumParams) (activeSet : list nat) :
  attackerGradient m x y params activeSet = None
  <-> (length y < M params)%nat
      /\ exists i, (i < N params)%nat
                   /\ i ∈ eligibleSet params activeSet
                   /\ 0 < at2 x (owner (config params i)) i.
Proof.
  unfold attackerGradient. rewrite mapM_None, Exists_exists. split.
  - intros (i & Hi & Hf). apply elem_of_seq in Hi. simpl in Hf.
    destruct (has activeSet i) eqn:Hhas; simpl in Hf; [|discriminate].
    destruct (skippedByObjective params i) eqn:Hskip; [discriminate|].
    destruct (Rle_dec _ _) as [|Hpow]; [discriminate|].
    unfold interferenceOrThrow in Hf.
    destruct (decide (length y < M params)%nat) as [Hy|]; [|discriminate].
    split; [exact Hy|]. exists i. split; [lia|]. split; [|lra].
    apply eligibleSet_spec. split; [apply has_elem_of; exact Hhas | exact Hskip].
  - intros (Hy & i & Hi & Hel & Hpow).
    apply eligibleSet_spec in Hel as [Hact Hskip].
    exists i. split; [apply elem_of_seq; lia|]. simpl.
    rewrite (proj2 (has_elem_of activeSet i) Hact), Hskip. simpl.
    destruct (Rle_dec _ _) as [Hle|_]; [lra|].
    unfold interferenceOrThrow.
    destruct (decide (length y < M params)%nat); [reflexivity | lia].
Qed.

(** ** Utilities *)

Lemma ln_nonneg (r : R) : 1 <= r -> 0 <= ln r.
Proof.
  intros [Hr|<-].
  - left. rewrite <- ln_1. apply ln_increasing; lra.
  - rewrite ln_1. lra.
Qed.

Lemma totalInterference_pos (y : list (list R)) (params : EquilibriumParams)
  (i : nat) :
  nonnegMatrix y -> nonnegMatrix (g params) -> 0 < sigma2 params ->
  0 < totalInterference y params i.
Proof.
  intros Hy Hg Hs.
  pose proof (totalInterference_lower_bound y params i Hy Hg). lra.
Qed.

(** X8. On non-negative allocations and gains with positive noise, a
    defender utility is never negative and an attacker utility is never
    positive. *)
Theorem utilities_have_fixed_sign (d m : nat) (x y : list (list R))
  (params : EquilibriumParams) (activeSet : list nat) (onlyReal : bool) :
  nonnegMatrix x -> nonnegMatrix y ->
  nonnegMatrix (h params) -> nonnegMatrix (g params) ->
  0 < sigma2 params ->
  0 <= calculateDefenderUtility d x y params activeSet onlyReal
  /\ calculateAttackerUtility m x y params activeSet <= 0.
Proof.
  intros Hx Hy Hh Hg Hs.
  assert (Hdef : forall d' b,
            0 <= calculateDefenderUtility d' x y params activeSet b).
  { intros d' b. rewrite calculateDefenderUtility_as_sum.
    unfold specDefenderUtility. apply sumR_nonneg.
    apply Forall_map, Forall_forall. intros i _. simpl.
    destruct (_ && _); [|lra].
    destruct (Rle_dec _ _); [lra|].
    apply ln_nonneg.
    pose proof (totalInterference_pos y params i Hy Hg Hs).
    pose proof (nonneg_at2 x d' i Hx). pose proof (nonneg_at2 (h params) d' i Hh).
    assert (0 <= at2 x d' i * at2 (h params) d' i / totalInterference y params i).
    { apply Rdiv_nonneg; [apply Rmult_le_pos; assumption | lra]. }
    lra. }
  split; [apply Hdef|].
  rewrite calculateAttackerUtility_as_sum.
  assert (0 <= sumR (map (fun d0 =>
                            calculateDefenderUtility d0 x y params activeSet
                              (bool_decide (jammerObjective params = oracle)))
                       (seq 0 (D params)))).
  { apply sumR_nonneg, Forall_map, Forall_forall. intros d' _. apply Hdef. }
  lra.
Qed.

Lemma utilities_have_fixed_sign_witness :
  0 <= calculateDefenderUtility 0 [[1]] [[0]] belowThresholdParams [] true
  /\ calculateAttackerUtility 0 [[1]] [[0]] belowThresholdParams [] <= 0.
Proof.
  apply utilities_have_fixed_sign;
    try (repeat constructor; lra); simpl; lra.
Defined.

(** ** The metrics *)

Lemma computeMetrics_components (x y : list (list R))
  (params : EquilibriumParams) (activeSet : list nat) :
  totalRealThroughput (computeMetrics x y params activeSet)
  = sumR (map (fun i =>
                 if hasType params real i
                 then if Rgt_dec (ownerPower x params i) 0
                      then log2 (1 + ownerPower x params i
                                     * at2 (h params) (owner (config params i)) i
                                     / totalInterference y params i)
                      else 0
                 else 0)
            (seq 0 (N params)))
  /\ totalDecoyPower (computeMetrics x y params activeSet)
     = sumR (map (fun i => if hasType params decoy i
                           then ownerPower x params i else 0)
               (seq 0 (N params)))
  /\ realChannelCount (computeMetrics x y params activeSet)
     = length (List.filter (hasType params real) (seq 0 (N params)))
  /\ activeChannelCount (computeMetrics x y params activeSet)
     = length activeSet
  /\ exists waste total : R,
       waste = sumR (map (fun i => if hasType params decoy i
                                   then jamPower y params i else 0)
                       (seq 0 (N params)))
       /\ total = sumR (map (jamPower y params) (seq 0 (N params)))
       /\ jammerWasteOnDecoys (computeMetrics x y params activeSet)
          = if Rgt_dec total 0 then waste / total else 0.
Proof.
  unfold computeMetrics.
  match goal with
  | |- context [fold_left ?F (seq 0 (N params)) ?a] =>
      set (step := F); set (acc0 := a)
  end.
  assert (Hfold : forall l acc,
            accRealThroughput (fold_left step l acc)
            = accRealThroughput acc
              + sumR (map (fun i =>
                             if hasType params real i
                             then if Rgt_dec (ownerPower x params i) 0
                                  then log2 (1 + ownerPower x params i
                                                 * at2 (h params)
                                                     (owner (config params i)) i
                                                 / totalInterference y params i)
                                  else 0
                             else 0) l)
            /\ accDecoyPower (fold_left step l acc)
               = accDecoyPower acc
                 + sumR (map (fun i => if hasType params decoy i
                                       then ownerPower x params i else 0) l)
            /\ accJammerWaste (fold_left step l acc)
               = accJammerWaste acc
                 + sumR (map (fun i => if hasType params decoy i
                                       then jamPower y params i else 0) l)
            /\ accJammerPower (fold_left step l acc)
               = accJammerPower acc + sumR (map (jamPower y params) l)
            /\ accRealCount (fold_left step l acc)
               = (accRealCount acc
                  + length (List.filter (hasType params real) l))%nat).
  { induction l as [|i l IH]; intros acc.
    - simpl. rewrite !sumR_nil. repeat split; try lra; lia.
    - change (fold_left step (i :: l) acc)
        with (fold_left step l (step acc i)).
      destruct (IH (step acc i)) as (H1 & H2 & H3 & H4 & H5).
      rewrite H1, H2, H3, H4, H5. simpl map. rewrite !sumR_cons.
      unfold step, hasType, ownerPower, jamPower. simpl List.filter.
      fold (hasType params real i).
      unfold hasType.
      destruct (type (config params i)) eqn:Ht; simpl;
        try destruct (Rgt_dec _ _); repeat split; try lra; lia. }
  destruct (Hfold (seq 0 (N params)) acc0) as (H1 & H2 & H3 & H4 & H5).
  cbn [totalRealThroughput totalDecoyPower realChannelCount activeChannelCount
       jammerWasteOnDecoys].
  unfold acc0 in H1, H2, H3, H4, H5.
  cbn [accRealThroughput accDecoyPower accJammerWaste accJammerPower
       accRealCount] in H1, H2, H3, H4, H5.
  rewrite Rplus_0_l in H1, H2, H3, H4.
  split; [exact H1|]. split; [exact H2|]. split; [exact H5|].
  split; [reflexivity|].
  eexists _, _. split; [reflexivity|]. split; [reflexivity|].
  unfold acc0. rewrite H3, H4. reflexivity.
Qed.

(** X9. Only real channels that carry power feed the total real
    throughput, each with [log2 (1 + SINR)]; the total decoy power is
    the owners' power on the decoy channels; the two counts are the
    number of real channels below [N] and the size of the active set. *)
Theorem metrics_count_real_channels_only (x y : list (list R))
  (params : EquilibriumParams) (activeSet : list nat) :
  totalRealThroughput (computeMetrics x y params activeSet)
  = sumR (map (fun i =>
                 if hasType params real i
                 then if Rgt_dec (ownerPower x params i) 0
                      then log2 (1 + ownerPower x params i
                                     * at2 (h params) (owner (config params i)) i
                                     / totalInterference y params i)
                      else 0
                 else 0)
            (seq 0 (N params)))
  /\ totalDecoyPower (computeMetrics x y params activeSet)
     = sumR (map (fun i => if hasType params decoy i
                           then ownerPower x params i else 0)
               (seq 0 (N params)))
  /\ realChannelCount (computeMetrics x y params activeSet)
     = length (List.filter (hasType params real) (seq 0 (N params)))
  /\ activeChannelCount (computeMetrics x y params activeSet)
     = length activeSet.
Proof.
  destruct (computeMetrics_components x y params activeSet)
    as (H1 & H2 & H3 & H4 & _).
  auto.
Qed.

Lemma jamPower_nonneg (y : list (list R)) (params : EquilibriumParams) (i : nat) :
  nonnegMatrix y -> 0 <= jamPower y params i.
Proof.
  intros Hy. unfold jamPower. rewrite fold_left_plus_map, Rplus_0_l.
  apply sumR_nonneg, Forall_map, Forall_forall. intros m _. simpl.
  apply nonneg_at2. exact Hy.
Qed.

Lemma sumR_le (f f' : nat -> R) (l : list nat) :
  (forall i, f i <= f' i) -> sumR (map f l) <= sumR (map f' l).
Proof.
  intros Hle. induction l as [|i l IH]; simpl.
  - rewrite sumR_nil. lra.
  - rewrite !sumR_cons. pose proof (Hle i). lra.
Qed.

(** X10. When no attacker row has a negative entry, the reported jammer
    waste on decoys is a fraction between 0 and 1. *)
Theorem jammer_waste_is_a_fraction (x y : list (list R))
  (params : EquilibriumParams) (activeSet : list nat) :
  nonnegMatrix y ->
  0 <= jammerWasteOnDecoys (computeMetrics x y params activeSet) <= 1.
Proof.
  intros Hy.
  destruct (computeMetrics_components x y params activeSet)
    as (_ & _ & _ & _ & waste & total & Hw & Ht & ->).
  destruct (Rgt_dec total 0) as [Hgt|_]; [|lra].
  assert (H0 : 0 <= waste).
  { rewrite Hw. apply sumR_nonneg, Forall_map, Forall_forall. intros i _.
    simpl. destruct (hasType params decoy i); [|lra].
    apply jamPower_nonneg. exact Hy. }
  assert (H1 : waste <= total).
  { rewrite Hw, Ht. apply sumR_le. intros i.
    pose proof (jamPower_nonneg y params i Hy).
    destruct (hasType params decoy i); lra. }
  split.
  - apply Rdiv_nonneg; lra.
  - apply (Rmult_le_reg_r total); [lra|].
    unfold Rdiv. rewrite Rmult_assoc, Rinv_l by lra. lra.
Qed.

Lemma jammer_waste_is_a_fraction_witness :
  0 <= jammerWasteOnDecoys
         (computeMetrics [[5; 5; 0; 0]] [[1; 2; 3; 4]] sampleParams [0; 1]%nat)
    <= 1.
Proof.
  apply jammer_waste_is_a_fraction. repeat constructor; lra.
Defined.

(** X11. Without any decoy channel below [N], the jammer waste on decoys
    and the total decoy power are exactly zero. *)
Theorem no_decoy_no_waste (x y : list (list R))
  (params : EquilibriumParams) (activeSet : list nat) :
  (forall i, (i < N params)%nat -> type (config params i) <> decoy) ->
  jammerWasteOnDecoys (computeMetrics x y params activeSet) = 0
  /\ totalDecoyPower (computeMetrics x y params activeSet) = 0.
Proof.
  intros Hnone.
  assert (Hz : forall f : nat -> R,
            sumR (map (fun i => if hasType params decoy i then f i else 0)
                    (seq 0 (N params))) = 0).
  { intros f.
    rewrite (map_ext_in _ (fun _ => 0)).
    - rewrite sumR_map_const. lra.
    - intros i Hi. apply in_seq in Hi. unfold hasType.
      rewrite bool_decide_eq_false_2; [reflexivity|]. apply Hnone. lia. }
  destruct (computeMetrics_components x y params activeSet)
    as (_ & H2 & _ & _ & waste & total & Hw & Ht & ->).
  split.
  - rewrite Hz in Hw. rewrite Hw.
    destruct (Rgt_dec total 0); unfold Rdiv; lra.
  - rewrite H2. apply Hz.
Qed.

Lemma no_decoy_no_waste_witness :
  jammerWasteOnDecoys
    (computeMetrics [[0; 0]; [0; 10]] [[0; 10]] silentDefenderParams [1%nat])
  = 0
  /\ totalDecoyPower
       (computeMetrics [[0; 0]; [0; 10]] [[0; 10]] silentDefenderParams
          [1%nat])
     = 0.
Proof.
  apply no_decoy_no_waste.
  intros i Hi. simpl in Hi.
  destruct i as [|[|i]]; [discriminate | discriminate | lia].
Defined.

(** ** What an iteration records *)

Lemma Rmax_fold_nonneg (l : list R) (a : R) : 0 <= a -> 0 <= fold_left Rmax l a.
Proof.
  revert a. induction l as [|v l IH]; intros a Ha; simpl.
  - exact Ha.
  - apply IH. pose proof (Rmax_l a v). lra.
Qed.

Lemma Rmax_fold_from (l : list R) (a : R) :
  0 <= a -> fold_left Rmax l a = Rmax a (fold_left Rmax l 0).
Proof.
  revert a. induction l as [|v l IH]; intros a Ha; simpl.
  - rewrite Rmax_left; [reflexivity | exact Ha].
  - rewrite (IH (Rmax a v)) by (pose proof (Rmax_l a v); lra).
    rewrite (IH (Rmax 0 v)) by apply Rmax_l.
    rewrite <- !Rmax_assoc. f_equal.
    rewrite (Rmax_assoc 0 v). rewrite (Rmax_comm 0 v), <- Rmax_assoc.
    rewrite (Rmax_right 0) by (apply Rmax_fold_nonneg; lra).
    reflexivity.
Qed.

Lemma updateAttacker_None (params : EquilibriumParams) (yOld x : list (list R))
  (activeSet : list nat) (ms : list nat) :
  fold_left (updateAttacker params yOld x activeSet) ms None = None.
Proof. induction ms as [|m ms IH]; simpl; [reflexivity | exact IH]. Qed.

Lemma defenders_sweep_deltas (params : EquilibriumParams)
  (xOld y : list (list R)) (ds : list nat) :
  forall (x : list (list R)) (mc : R) (dl : list R)
         (x' : list (list R)) (mc' : R) (dl' : list R),
  0 <= mc ->
  NoDup ds ->
  (forall d, d ∈ ds -> (d < length x)%nat) ->
  fold_left (updateDefender params xOld y) ds (x, mc, dl) = (x', mc', dl') ->
  (forall d, d ∉ ds -> nth d x' [] = nth d x [])
  /\ 0 <= mc'
  /\ exists new : list R,
       dl' = dl ++ new
       /\ Forall2 (fun d delta =>
                     delta = largestChange params (nth d xOld []) (nth d x' []))
            ds new
       /\ mc' = fold_left Rmax new mc.
Proof.
  induction ds as [|d0 ds IH]; intros x mc dl x' mc' dl' Hmc Hnd Hlt Hfold.
  - simpl in Hfold. inversion Hfold; subst.
    split; [reflexivity|]. split; [exact Hmc|].
    exists []. rewrite app_nil_r. repeat split. constructor.
  - simpl in Hfold. apply NoDup_cons in Hnd as [Hd0 Hnd].
    set (row := damp params (nth d0 xOld []) (defenderCandidate params d0 x y))
      in Hfold.
    fold (largestChange params (nth d0 xOld []) row) in Hfold.
    apply IH in Hfold as (Hout & Hmc' & new & Hdl & Hall & Hmax).
    + assert (Hrow : nth d0 x' [] = row).
      { rewrite (Hout d0 Hd0). apply nth_insert_eq. apply Hlt. left. }
      split; [|split; [exact Hmc'|]].
      * intros d Hd. rewrite Hout.
        -- apply nth_insert_ne. intros ->. apply Hd. left.
        -- intros Hd'. apply Hd. right. exact Hd'.
      * exists (largestChange params (nth d0 xOld []) row :: new).
        split; [rewrite Hdl, <- app_assoc; reflexivity|]. split.
        -- constructor; [rewrite Hrow; reflexivity | exact Hall].
        -- rewrite Hmax. simpl. f_equal.
           unfold largestChange. apply Rmax_fold_from. exact Hmc.
    + apply Rmax_fold_nonneg. exact Hmc.
    + exact Hnd.
    + intros d Hd. rewrite length_insert. apply Hlt. right. exact Hd.
Qed.

Lemma attackers_sweep_deltas (params : EquilibriumParams)
  (yOld x : list (list R)) (activeSet : list nat) (ms : list nat) :
  forall (y : list (list R)) (mc : R) (dl : list R)
         (y' : list (list R)) (mc' : R) (dl' : list R),
  0 <= mc ->
  NoDup ms ->
  (forall m, m ∈ ms -> (m < length y)%nat) ->
  fold_left (updateAttacker params yOld x activeSet) ms (Some (y, mc, dl))
  = Some (y', mc', dl') ->
  (forall m, m ∉ ms -> nth m y' [] = nth m y [])
  /\ 0 <= mc'
  /\ exists new : list R,
       dl' = dl ++ new
       /\ Forall2 (fun m delta =>
                     delta = largestChange params (nth m yOld []) (nth m y' []))
            ms new
       /\ mc' = fold_left Rmax new mc.
Proof.
  induction ms as [|m0 ms IH]; intros y mc dl y' mc' dl' Hmc Hnd Hlt Hfold.
  - simpl in Hfold. inversion Hfold; subst.
    split; [reflexivity|]. split; [exact Hmc|].
    exists []. rewrite app_nil_r. repeat split. constructor.
  - simpl in Hfold. apply NoDup_cons in Hnd as [Hm0 Hnd].
    destruct (attackerCandidate params m0 y x activeSet) as [newY|];
      [|rewrite updateAttacker_None in Hfold; discriminate].
    set (row := damp params (nth m0 yOld []) newY) in Hfold.
    fold (largestChange params (nth m0 yOld []) row) in Hfold.
    apply IH in Hfold as (Hout & Hmc' & new & Hdl & Hall & Hmax).
    + assert (Hrow : nth m0 y' [] = row).
      { rewrite (Hout m0 Hm0). apply nth_insert_eq. apply Hlt. left. }
      split; [|split; [exact Hmc'|]].
      * intros m Hm. rewrite Hout.
        -- apply nth_insert_ne. intros ->. apply Hm. left.
        -- intros Hm'. apply Hm. right. exact Hm'.
      * exists (largestChange params (nth m0 yOld []) row :: new).
        split; [rewrite Hdl, <- app_assoc; reflexivity|]. split.
        -- constructor; [rewrite Hrow; reflexivity | exact Hall].
        -- rewrite Hmax. simpl. f_equal.
           unfold largestChange. apply Rmax_fold_from. exact Hmc.
    + apply Rmax_fold_nonneg. exact Hmc.
    + exact Hnd.
    + intros m Hm. rewrite length_insert. apply Hlt. right. exact Hm.
Qed.

(** X12. The history record of an iteration carries its one-based
    index, for every defender and every attacker the largest absolute
    change of that player's row during the iteration, as [maxChange]
    the largest of all those changes, and one utility per player. *)
Theorem iteration_records_largest_changes (params : EquilibriumParams)
  (k : nat) (x y x' y' : list (list R)) (e : ConvergenceEntry) :
  length x = D params ->
  length y = M params ->
  iteration params k x y = Some (x', y', e) ->
  Entry.iter e = (k + 1)%nat
  /\ Forall2 (fun d delta =>
                delta = largestChange params (nth d x []) (nth d x' []))
       (seq 0 (D params)) (Entry.defenderDeltas e)
  /\ Forall2 (fun m delta =>
                delta = largestChange params (nth m y []) (nth m y' []))
       (seq 0 (M params)) (Entry.attackerDeltas e)
  /\ Entry.maxChange e
     = fold_left Rmax (Entry.defenderDeltas e ++ Entry.attackerDeltas e) 0
  /\ length (Entry.defenderUtilities e) = D params
  /\ length (Entry.attackerUtilities e) = M params.
Proof.
  intros Hx Hy Hit. unfold iteration in Hit.
  destruct (fold_left (updateDefender params x y) (seq 0 (D params)) (x, 0, []))
    as [[x1 mc1] dl1] eqn:Hd.
  destruct (fold_left (updateAttacker params y x1 (getActiveSet x1 params))
              (seq 0 (M params)) (Some (y, mc1, [])))
    as [[[y1 mc2] dl2]|] eqn:Ha; [|discriminate].
  inversion Hit; subst x' y' e. clear Hit. simpl.
  apply defenders_sweep_deltas in Hd
    as (_ & Hmc1 & newD & HdlD & HallD & HmaxD).
  - apply attackers_sweep_deltas in Ha
      as (_ & _ & newA & HdlA & HallA & HmaxA).
    + simpl in HdlD, HdlA. subst dl1 dl2.
      split; [reflexivity|]. split; [exact HallD|]. split; [exact HallA|].
      split; [|rewrite !length_map, !length_seq; auto].
      rewrite fold_left_app, <- HmaxD. exact HmaxA.
    + exact Hmc1.
    + apply NoDup_seq.
    + intros m Hm. apply elem_of_seq in Hm. lia.
  - lra.
  - apply NoDup_seq.
  - intros d Hdd. apply elem_of_seq in Hdd. lia.
Qed.

Lemma iteration_records_largest_changes_witness :
  exists (x' y' : list (list R)) (e : ConvergenceEntry),
    iteration sampleParams 0 [[5; 5; 0; 0]] [[1; 2; 3; 4]] = Some (x', y', e)
    /\ Entry.iter e = (0 + 1)%nat
    /\ Forall2 (fun d delta =>
                  delta = largestChange sampleParams
                            (nth d [[5; 5; 0; 0]] []) (nth d x' []))
         (seq 0 (D sampleParams)) (Entry.defenderDeltas e)
    /\ Forall2 (fun m delta =>
                  delta = largestChange sampleParams
                            (nth m [[1; 2; 3; 4]] []) (nth m y' []))
         (seq 0 (M sampleParams)) (Entry.attackerDeltas e)
    /\ Entry.maxChange e
       = fold_left Rmax (Entry.defenderDeltas e ++ Entry.attackerDeltas e) 0
    /\ length (Entry.defenderUtilities e) = D sampleParams
    /\ length (Entry.attackerUtilities e) = M sampleParams.
Proof.
  destruct (iteration_spec sampleParams 0 [[5; 5; 0; 0]] [[1; 2; 3; 4]]
              eq_refl eq_refl) as (x' & y' & e & Hit & _).
  exists x', y', e. split; [exact Hit|].
  exact (iteration_records_largest_changes sampleParams 0 [[5; 5; 0; 0]]
           [[1; 2; 3; 4]] x' y' e eq_refl eq_refl Hit).
Defined.

(** ** Where the loop stops *)

(** ** What the equilibrium validator accepts *)

Lemma validateNumber_valid (toString : Q -> string) (value : option JSON)
  (name : string) (lo hi : Q) :
  valid (validateNumber toString value name lo hi) = true
  <-> exists q, value = Some (JNumber q) /\ (lo <= q)%Q /\ (q <= hi)%Q.
Proof.
  unfold validateNumber. split.
  - destruct value as [[| | q | | | |]|]; simpl; try discriminate.
    destruct (Qlt_le_dec q lo) as [Hlt|Hle]; simpl; [discriminate|].
    destruct (Qlt_le_dec hi q) as [Hlt|Hle']; simpl; [discriminate|].
    intros _. exists q. auto.
  - intros (q & -> & Hlo & Hhi).
    destruct (Qlt_le_dec q lo) as [Hlt|_].
    { exfalso. apply (Qlt_not_le _ _ Hlt). exact Hlo. }
    destruct (Qlt_le_dec hi q) as [Hlt|_].
    { exfalso. apply (Qlt_not_le _ _ Hlt). exact Hhi. }
    reflexivity.
Qed.

Lemma validateArray_valid (toString : Q -> string) (arr : option JSON)
  (name : string) (maxLength : nat) :
  valid (validateArray toString arr name maxLength) = true
  <-> exists items, arr = Some (JArray items)
                    /\ (length items <= maxLength)%nat.
Proof.
  unfold validateArray. split.
  - destruct arr as [[| | | | | items |]|]; simpl; try discriminate.
    destruct (Nat.ltb_spec maxLength (length items)); simpl; [discriminate|].
    intros _. exists items. auto.
  - intros (items & -> & Hlen).
    destruct (Nat.ltb_spec maxLength (length items)); [lia | reflexivity].
Qed.

Lemma firstInvalid_None (checks : list ValidationResult) :
  firstInvalid checks = None <-> Forall (fun c => valid c = true) checks.
Proof.
  induction checks as [|c l IH]; simpl.
  - split; [constructor | reflexivity].
  - destruct (valid c) eqn:Hc.
    + rewrite IH. split; [intros H; constructor; assumption|].
      intros H. inversion H; assumption.
    + split; [discriminate|]. intros H. inversion H; congruence.
Qed.

Lemma firstInvalid_Some (checks : list ValidationResult) (c : ValidationResult) :
  firstInvalid checks = Some c -> valid c = false /\ In c checks.
Proof.
  induction checks as [|c0 l IH]; simpl; [discriminate|].
  destruct (valid c0) eqn:Hc.
  - intros H. destruct (IH H). auto.
  - intros H. inversion H; subst. auto.
Qed.

Lemma validateMatrix_valid (toString : Q -> string) (value : option JSON)
  (name who : string) (maxRows : nat) :
  valid (validateMatrix toString value name who maxRows) = true
  <-> exists rows, value = Some (JArray rows)
                   /\ (length rows <= maxRows)%nat
                   /\ Forall (fun row => exists items,
                                row = JArray items
                                /\ (length items <= MAX_N)%nat) rows.
Proof.
  unfold validateMatrix. split.
  - destruct value as [[| | | | | rows |]|]; simpl; try discriminate.
    destruct (Nat.ltb_spec maxRows (length rows)); simpl; [discriminate|].
    destruct (firstInvalid _) as [c|] eqn:Hf.
    { apply firstInvalid_Some in Hf as [Hc _]. congruence. }
    intros _. exists rows. split; [reflexivity|]. split; [assumption|].
    apply firstInvalid_None in Hf. apply Forall_map in Hf.
    eapply Forall_impl; [exact Hf|]. intros row Hrow.
    apply (proj1 (validateArray_valid toString (Some row) _ MAX_N)) in Hrow.
    destruct Hrow as (items & Hi & Hlen).
    inversion Hi. eauto.
  - intros (rows & -> & Hlen & Hrows).
    destruct (Nat.ltb_spec maxRows (length rows)); [lia|].
    assert (Hf : firstInvalid
                   (map (fun row =>
                           validateArray toString (Some row)
                             (name ++ " row") MAX_N) rows) = None).
    { apply firstInvalid_None, Forall_map.
      eapply Forall_impl; [exact Hrows|]. intros row (items & -> & Hl).
      apply (proj2 (validateArray_valid toString (Some (JArray items)) _ MAX_N)).
      eauto. }
    rewrite Hf. reflexivity.
Qed.

Lemma includes_true (allowed : list string) (value : option JSON) :
  includes allowed value = true
  <-> exists s, value = Some (JString s) /\ In s allowed.
Proof.
  unfold includes. split.
  - destruct value as [[| | | | s | |]|]; try discriminate.
    rewrite existsb_exists. intros (s' & Hin & Heq).
    apply String.eqb_eq in Heq. subst s'. eauto.
  - intros (s & -> & Hin). apply existsb_exists. exists s.
    split; [exact Hin | apply String.eqb_refl].
Qed.

(** X14. The equilibrium validator accepts a request exactly when it is
    an object whose nine numeric fields are finite numbers within their
    bounds, whose [PT], [PJ] and [channelConfig] are arrays within
    their length bounds, whose [h] and [g] are arrays of arrays within
    theirs, and whose three enumerated fields hold a listed string. It
    looks at nothing else: not at the entries of the arrays, not at the
    agreement of the dimensions. *)
Theorem validateEquilibriumParams_accepts_iff (toString : Q -> string)
  (request : JSON) :
  valid (validateEquilibriumParams toString request) = true
  <-> notAnObject request = false
      /\ numberIn request "N" 1 100
      /\ numberIn request "D" 1 20
      /\ numberIn request "M" 1 20
      /\ numberIn request "sigma2" 0.0001 10000
      /\ numberIn request "tau" 0 10000
      /\ numberIn request "alpha" 0.01 1
      /\ numberIn request "maxIter" 1 1000
      /\ numberIn request "epsilon" 0.0000001 1
      /\ numberIn request "topK" 1 100
      /\ arrayUpTo request "PT" 20
      /\ arrayUpTo request "PJ" 20
      /\ matrixUpTo request "h" 20 100
      /\ matrixUpTo request "g" 20 100
      /\ arrayUpTo request "channelConfig" 100
      /\ stringIn request "jammerStrategy"
           ["J1_uniform"; "J2_topK"; "J3_optimization"]%string
      /\ stringIn request "jammerObjective" ["deception"; "oracle"]%string
      /\ stringIn request "attackerMode"
           ["coordinated"; "independent"]%string.
Proof.
  pose proof (validateNumber_valid toString (property request "N") "N" 1
                (ofNat MAX_N)) as H1.
  pose proof (validateNumber_valid toString (property request "D") "D" 1
                (ofNat MAX_D)) as H2.
  pose proof (validateNumber_valid toString (property request "M") "M" 1
                (ofNat MAX_M)) as H3.
  pose proof (validateNumber_valid toString (property request "sigma2")
                "sigma2" 0.0001 MAX_POWER) as H4.
  pose proof (validateNumber_valid toString (property request "tau") "tau" 0
                MAX_POWER) as H5.
  pose proof (validateNumber_valid toString (property request "alpha")
                "alpha" 0.01 1) as H6.
  pose proof (validateNumber_valid toString (property request "maxIter")
                "maxIter" 1 MAX_ITER) as H7.
  pose proof (validateNumber_valid toString (property request "epsilon")
                "epsilon" 0.0000001 1) as H8.
  pose proof (validateNumber_valid toString (property request "topK") "topK"
                1 (ofNat MAX_N)) as H9.
  pose proof (validateArray_valid toString (property request "PT") "PT"
                MAX_D) as H10.
  pose proof (validateArray_valid toString (property request "PJ") "PJ"
                MAX_M) as H11.
  pose proof (validateMatrix_valid toString (property request "h") "h"
                "defenders" MAX_D) as H12.
  pose proof (validateMatrix_valid toString (property request "g") "g"
                "attackers" MAX_M) as H13.
  pose proof (validateArray_valid toString (property request "channelConfig")
                "channelConfig" MAX_N) as H14.
  pose proof (includes_true ["J1_uniform"; "J2_topK"; "J3_optimization"]%string
                (property request "jammerStrategy")) as H15.
  pose proof (includes_true ["deception"; "oracle"]%string
                (property request "jammerObjective")) as H16.
  pose proof (includes_true ["coordinated"; "independent"]%string
                (property request "attackerMode")) as H17.
  unfold validateEquilibriumParams.
  destruct (notAnObject request).
  { split; [discriminate | intros [H _]; discriminate]. }
  cbv zeta. cbn [firstInvalid].
  repeat match goal with
         | H : (?b = true <-> ?P) |- context [?b] =>
             let E := fresh "E" in
             destruct b eqn:E; cbn [negb]; cbv beta iota;
             [ apply proj1 in H; specialize (H eq_refl)
             | split;
               [ intros He;
                 first [congruence | cbn [valid invalid] in He; discriminate]
               | intros Hall; decompose [and] Hall;
                 assert (false = true) by (apply H; assumption);
                 discriminate ] ]
         end.
  split; [intros _ | reflexivity].
  repeat split; assumption.
Qed.

(** * The single-run simulation *)

(** ** Writing a value at every listed index *)

Lemma length_assignAll {A} (indices : list nat) (v : nat -> A) :
  forall a, length (assignAll indices v a) = length a.
Proof.
  unfold assignAll. induction indices as [|i l IH]; intros a; simpl.
  - reflexivity.
  - rewrite IH. apply length_insert.
Qed.

Lemma nth_assignAll_notin {A} (indices : list nat) (v : nat -> A) (d : A)
  (j : nat) :
  j ∉ indices ->
  forall a, nth j (assignAll indices v a) d = nth j a d.
Proof.
  unfold assignAll. induction indices as [|i l IH]; intros Hj a; simpl.
  - reflexivity.
  - rewrite IH.
    + apply nth_insert_ne. intros ->. apply Hj. left.
    + intros Hl. apply Hj. right. exact Hl.
Qed.

Lemma nth_assignAll_in {A} (indices : list nat) (v : nat -> A) (d : A)
  (j : nat) :
  j ∈ indices ->
  forall a, (j < length a)%nat -> nth j (assignAll indices v a) d = v j.
Proof.
  induction indices as [|i l IH]; intros Hj a Hlen.
  - inversion Hj.
  - change (assignAll (i :: l) v a) with (assignAll l v (<[i := v i]> a)).
    destruct (decide (j ∈ l)) as [Hl|Hl].
    + apply IH; [exact Hl|]. rewrite length_insert. exact Hlen.
    + rewrite nth_assignAll_notin by exact Hl.
      apply elem_of_cons in Hj. destruct Hj as [->|Hj]; [|contradiction].
      apply nth_insert_eq. exact Hlen.
Qed.

Lemma sumR_assignAll (indices : list nat) (v : nat -> R) (a : list R) :
  NoDup indices ->
  (forall i, i ∈ indices -> (i < length a)%nat) ->
  (forall i, i ∈ indices -> nth i a 0 = 0) ->
  sumR (assignAll indices v a) = sumR a + sumR (map v indices).
Proof.
  intros Hnd Hlt Hz. unfold assignAll.
  apply (sumR_fold_insert (fun i : nat => i) v indices a).
  - rewrite map_id. exact Hnd.
  - exact Hlt.
  - exact Hz.
Qed.

Lemma elem_of_seq_iff (s n i : nat) : i ∈ seq s n <-> (s <= i < s + n)%nat.
Proof. rewrite list_elem_of_In. apply in_seq. Qed.

Lemma nth_replicate_any {A} (n i : nat) (v : A) :
  nth i (replicate n v) v = v.
Proof.
  revert i. induction n as [|n IH]; intros [|i]; simpl; auto.
Qed.

Lemma nth_replicate_lt {A} (n i : nat) (v d : A) :
  (i < n)%nat -> nth i (replicate n v) d = v.
Proof.
  revert i. induction n as [|n IH]; intros [|i] Hi; simpl; try lia; auto.
  apply IH. lia.
Qed.

(** ** The defender's channels: real ones first, decoys next *)

Lemma nth_blocks {A} (N NR ND : nat) (vr vd : nat -> A) (z : A) (i : nat) :
  (NR + ND <= N)%nat ->
  nth i (assignAll (seq NR ND) vd (assignAll (seq 0 NR) vr (replicate N z))) z
  = if (i <? NR)%nat then vr i
    else if (i <? NR + ND)%nat then vd i else z.
Proof.
  intros Hfit.
  destruct (Nat.ltb_spec i NR) as [Hr|Hr].
  - rewrite nth_assignAll_notin by (rewrite elem_of_seq_iff; lia).
    apply nth_assignAll_in.
    + rewrite elem_of_seq_iff. lia.
    + rewrite length_replicate. lia.
  - destruct (Nat.ltb_spec i (NR + ND)) as [Hd|Hd].
    + apply nth_assignAll_in.
      * rewrite elem_of_seq_iff. lia.
      * rewrite length_assignAll, length_replicate. lia.
    + rewrite !nth_assignAll_notin by (rewrite elem_of_seq_iff; lia).
      apply nth_replicate_any.
Qed.

Lemma nth_blocks_decoys_first {A} (N NR ND : nat) (vr vd : nat -> A) (z : A)
  (i : nat) :
  (NR + ND <= N)%nat ->
  nth i (assignAll (seq 0 NR) vr (assignAll (seq NR ND) vd (replicate N z))) z
  = if (i <? NR)%nat then vr i
    else if (i <? NR + ND)%nat then vd i else z.
Proof.
  intros Hfit.
  destruct (Nat.ltb_spec i NR) as [Hr|Hr].
  - apply nth_assignAll_in.
    + rewrite elem_of_seq_iff. lia.
    + rewrite length_assignAll, length_replicate. lia.
  - rewrite nth_assignAll_notin by (rewrite elem_of_seq_iff; lia).
    destruct (Nat.ltb_spec i (NR + ND)) as [Hd|Hd].
    + apply nth_assignAll_in.
      * rewrite elem_of_seq_iff. lia.
      * rewrite length_replicate. lia.
    + rewrite nth_assignAll_notin by (rewrite elem_of_seq_iff; lia).
      apply nth_replicate_any.
Qed.

Lemma sumR_blocks (N NR ND : nat) (vr vd : nat -> R) :
  (NR + ND <= N)%nat ->
  sumR (assignAll (seq NR ND) vd (assignAll (seq 0 NR) vr (replicate N 0)))
  = sumR (map vr (seq 0 NR)) + sumR (map vd (seq NR ND)).
Proof.
  intros Hfit.
  rewrite sumR_assignAll.
  - rewrite sumR_assignAll.
    + rewrite sumR_replicate_0. lra.
    + apply NoDup_ListNoDup, seq_NoDup.
    + intros i Hi. apply elem_of_seq_iff in Hi.
      rewrite length_replicate. lia.
    + intros i _. apply nth_replicate_0.
  - apply NoDup_ListNoDup, seq_NoDup.
  - intros i Hi. apply elem_of_seq_iff in Hi.
    rewrite length_assignAll, length_replicate. lia.
  - intros i Hi. apply elem_of_seq_iff in Hi.
    rewrite nth_assignAll_notin by (rewrite elem_of_seq_iff; lia).
    apply nth_replicate_0.
Qed.

Lemma sumR_blocks_decoys_first (N NR ND : nat) (vr vd : nat -> R) :
  (NR + ND <= N)%nat ->
  sumR (assignAll (seq 0 NR) vr (assignAll (seq NR ND) vd (replicate N 0)))
  = sumR (map vr (seq 0 NR)) + sumR (map vd (seq NR ND)).
Proof.
  intros Hfit.
  rewrite sumR_assignAll.
  - rewrite sumR_assignAll.
    + rewrite sumR_replicate_0. lra.
    + apply NoDup_ListNoDup, seq_NoDup.
    + intros i Hi. apply elem_of_seq_iff in Hi.
      rewrite length_replicate. lia.
    + intros i _. apply nth_replicate_0.
  - apply NoDup_ListNoDup, seq_NoDup.
  - intros i Hi. apply elem_of_seq_iff in Hi.
    rewrite length_assignAll, length_replicate. lia.
  - intros i Hi. apply elem_of_seq_iff in Hi.
    rewrite nth_assignAll_notin by (rewrite elem_of_seq_iff; lia).
    apply nth_replicate_0.
Qed.

(** The layout every policy produces. *)
Lemma layout_by_index (N NR ND : nat) (l : list ChannelType) :
  (NR + ND <= N)%nat ->
  length l = N ->
  (forall i, nth i l inactive
             = if (i <? NR)%nat then real
               else if (i <? NR + ND)%nat then decoy else inactive) ->
  l = replicate NR real ++ replicate ND decoy
        ++ replicate (N - NR - ND) inactive.
Proof.
  intros Hfit Hlen Hnth.
  apply (nth_ext _ _ inactive inactive).
  - rewrite !length_app, !length_replicate. lia.
  - intros i Hi. rewrite Hnth.
    destruct (Nat.ltb_spec i NR) as [Hr|Hr].
    + rewrite app_nth1 by (rewrite length_replicate; lia).
      symmetry. apply nth_replicate_lt. exact Hr.
    + rewrite app_nth2 by (rewrite length_replicate; lia).
      rewrite length_replicate.
      destruct (Nat.ltb_spec i (NR + ND)) as [Hd|Hd].
      * rewrite app_nth1 by (rewrite length_replicate; lia).
        symmetry. apply nth_replicate_lt. lia.
      * rewrite app_nth2 by (rewrite length_replicate; lia).
        symmetry. apply nth_replicate_any.
Qed.

Lemma policy_layout (params : SimulationParams) (policy : DefenderPolicy) :
  (Sim.NR params + Sim.ND params <= Sim.N params)%nat ->
  snd (match policy with
       | D1 => defenderPolicyD1 params
       | D2 => defenderPolicyD2 params
       | D3 => defenderPolicyD3 params
       end)
  = replicate (Sim.NR params) real ++ replicate (Sim.ND params) decoy
      ++ replicate (Sim.N params - Sim.NR params - Sim.ND params) inactive.
Proof.
  intros Hfit.
  destruct policy; cbn [snd defenderPolicyD1 defenderPolicyD2 defenderPolicyD3];
    (apply layout_by_index;
     [ exact Hfit
     | rewrite !length_assignAll; apply length_replicate
     | intros i ]).
  - apply nth_blocks. exact Hfit.
  - apply nth_blocks. exact Hfit.
  - apply (nth_blocks_decoys_first _ _ _ (fun _ => real) (fun _ => decoy)).
    exact Hfit.
Qed.

Lemma policy_length (params : SimulationParams) (policy : DefenderPolicy) :
  length (fst (match policy with
               | D1 => defenderPolicyD1 params
               | D2 => defenderPolicyD2 params
               | D3 => defenderPolicyD3 params
               end)) = Sim.N params.
Proof.
  destruct policy; cbn [fst defenderPolicyD1 defenderPolicyD2 defenderPolicyD3];
    rewrite !length_assignAll; apply length_replicate.
Qed.

Lemma Rmax_0_left (r : R) : 0 <= r -> Rmax 0 r = r.
Proof. intros H. apply Rmax_right. exact H. Qed.

Lemma policy_sum (params : SimulationParams) (policy : DefenderPolicy) :
  (Sim.NR params + Sim.ND params <= Sim.N params)%nat ->
  INR (Sim.ND params) * Sim.tau params <= Sim.PT params ->
  (1 <= Sim.NR params)%nat ->
  sumR (fst (match policy with
             | D1 => defenderPolicyD1 params
             | D2 => defenderPolicyD2 params
             | D3 => defenderPolicyD3 params
             end)) = Sim.PT params.
Proof.
  intros Hfit Hpow Hreal.
  assert (HNR : 0 < INR (Sim.NR params)) by (apply lt_0_INR; lia).
  destruct policy; cbn [fst defenderPolicyD1 defenderPolicyD2 defenderPolicyD3].
  - rewrite sumR_blocks by exact Hfit.
    rewrite !sumR_map_const, !length_seq.
    destruct (Nat.ltb_spec 0 (Sim.NR params)) as [_|]; [|lia].
    rewrite Rmax_0_left by lra. field. lra.
  - rewrite sumR_blocks by exact Hfit.
    rewrite !sumR_map_const, !length_seq.
    destruct (Nat.ltb_spec 0 (Sim.NR params + Sim.ND params)) as [_|]; [|lia].
    rewrite plus_INR.
    assert (0 <= INR (Sim.ND params)) by apply pos_INR.
    field. lra.
  - rewrite sumR_blocks_decoys_first by exact Hfit.
    rewrite sumR_map_const, length_seq.
    rewrite Rmax_0_left by lra.
    rewrite fold_left_plus_map, Rplus_0_l.
    set (totalH := sumR (map (fun i => nth i (Sim.h params) 0)
                           (seq 0 (Sim.NR params)))).
    destruct (Rgt_dec totalH 0) as [Hpos|Hzero].
    + rewrite (sumR_map_mult_r
                 (fun i => nth i (Sim.h params) 0 / totalH)
                 (Sim.PT params - INR (Sim.ND params) * Sim.tau params)).
      replace (sumR (map (fun i => nth i (Sim.h params) 0 / totalH)
                       (seq 0 (Sim.NR params))))
        with (totalH / totalH).
      * field. lra.
      * unfold totalH at 1. unfold Rdiv.
        symmetry.
        apply (sumR_map_mult_r (fun i => nth i (Sim.h params) 0) (/ totalH)).
    + rewrite sumR_map_const, length_seq. field. lra.
Qed.

(** ** What a run that returns is made of *)

Lemma runSimulation_returned (params : SimulationParams)
  (r : SingleRunResult) :
  runSimulation params = Returned r ->
  let policy := default D1 (Sim.defenderPolicy params) in
  let mode := default J1 (Sim.jammerMode params) in
  let allocation :=
    match policy with
    | D1 => defenderPolicyD1 params
    | D2 => defenderPolicyD2 params
    | D3 => defenderPolicyD3 params
    end in
  ((Sim.NR params + Sim.ND params <= Sim.N params)%nat
   /\ INR (Sim.ND params) * Sim.tau params <= Sim.PT params)
  /\ Sim.x r = fst allocation
  /\ Sim.channelTypes r = snd allocation
  /\ Sim.y r
     = match mode with
       | J1 =>
           jammerModeJ1 (Sim.x r) (Sim.tau params) (Sim.PJ params)
             (Sim.N params)
       | J2 =>
           jammerModeJ2 (Sim.x r) (Sim.g params) (Sim.tau params)
             (Sim.PJ params) (Sim.N params) (default 3%nat (Sim.topK params))
       | J3 =>
           jammerModeJ3 (Sim.x r) (Sim.h params) (Sim.g params)
             (Sim.tau params) (Sim.PJ params) (Sim.sigma2 params)
             (Sim.N params) (bandwidths params)
       end
  /\ Sim.activeSet r = sensedSet (Sim.x r) (Sim.tau params)
  /\ Sim.rates r
     = imap
         (fun i xi =>
            calculateRate xi (nth i (Sim.y r) 0) (nth i (Sim.h params) 0)
              (nth i (Sim.g params) 0) (Sim.sigma2 params)
              (nth i (bandwidths params) 0))
         (Sim.x r)
  /\ Sim.sinr r
     = imap
         (fun i xi =>
            calculateSINR xi (nth i (Sim.y r) 0) (nth i (Sim.h params) 0)
              (nth i (Sim.g params) 0) (Sim.sigma2 params))
         (Sim.x r)
  /\ Sim.U_real r = sumOverType real (Sim.channelTypes r) (Sim.rates r)
  /\ Sim.powerOnDecoys r = sumOverType decoy (Sim.channelTypes r) (Sim.x r).
Proof.
  unfold runSimulation, bandwidths.
  destruct (Z.ltb_spec (Z.of_nat (Sim.N params) - Z.of_nat (Sim.NR params))
              (Z.of_nat (Sim.ND params))) as [Hover|Hfit];
    [discriminate|].
  destruct (Rgt_dec (INR (Sim.ND params) * Sim.tau params) (Sim.PT params))
    as [Hpow|Hpow]; [discriminate|].
  intros Hr. injection Hr as <-.
  cbn [Sim.x Sim.y Sim.channelTypes Sim.activeSet Sim.rates Sim.sinr
       Sim.U_real Sim.powerOnDecoys].
  split; [split; [lia | lra]|].
  destruct (Sim.defenderPolicy params) as [[]|];
    destruct (Sim.jammerMode params) as [[]|];
    cbn [default]; repeat split; reflexivity.
Qed.

Lemma runSimulation_returns (params : SimulationParams) :
  (Sim.NR params + Sim.ND params <= Sim.N params)%nat ->
  INR (Sim.ND params) * Sim.tau params <= Sim.PT params ->
  exists r, runSimulation params = Returned r.
Proof.
  intros Hfit Hpow. unfold runSimulation.
  destruct (Z.ltb_spec (Z.of_nat (Sim.N params) - Z.of_nat (Sim.NR params))
              (Z.of_nat (Sim.ND params))) as [Hover|_]; [lia|].
  destruct (Rgt_dec (INR (Sim.ND params) * Sim.tau params) (Sim.PT params))
    as [Hover|_]; [lra|].
  eexists. reflexivity.
Qed.

Lemma sampleSimulation_returns (policy : option DefenderPolicy)
  (mode : option JammerMode) :
  exists r, runSimulation (sampleSimulation policy mode) = Returned r.
Proof.
  apply runSimulation_returns; cbn [sampleSimulation Sim.N Sim.NR Sim.ND
                                    Sim.tau Sim.PT].
  - lia.
  - simpl INR. lra.
Qed.

Lemma nth_imap_R {A} (f : nat -> A -> R) (l : list A) (i : nat) (d : A) :
  (i < length l)%nat -> nth i (imap f l) 0 = f i (nth i l d).
Proof.
  intros Hi. rewrite !nth_lookup, list_lookup_imap.
  destruct (l !! i) eqn:E; [reflexivity|].
  apply lookup_ge_None in E. lia.
Qed.

Lemma log2_1 : log2 1 = 0.
Proof. unfold log2. rewrite ln_1. unfold Rdiv. apply Rmult_0_l. Qed.

Lemma calculateRate_as_sinr (x_i y_i h_i g_i sigma2 B_i : R) :
  calculateRate x_i y_i h_i g_i sigma2 B_i
  = B_i * log2 (1 + calculateSINR x_i y_i h_i g_i sigma2).
Proof.
  unfold calculateRate, calculateSINR.
  destruct (Rle_dec x_i 0).
  - rewrite Rplus_0_r, log2_1. ring.
  - reflexivity.
Qed.

(** ** Summing over the channels of one type *)

Lemma sumOverType_app (t : ChannelType) (v : list R)
  (l1 l2 : list ChannelType) :
  forall (s : nat) (acc : R),
  fold_left
    (fun sum it =>
       if bool_decide (snd it = t) then sum + nth (fst it) v 0 else sum)
    (combine (seq s (length (l1 ++ l2))) (l1 ++ l2)) acc
  = fold_left
      (fun sum it =>
         if bool_decide (snd it = t) then sum + nth (fst it) v 0 else sum)
      (combine (seq (s + length l1) (length l2)) l2)
      (fold_left
         (fun sum it =>
            if bool_decide (snd it = t) then sum + nth (fst it) v 0 else sum)
         (combine (seq s (length l1)) l1) acc).
Proof.
  induction l1 as [|a l1 IH]; intros s acc.
  - simpl. rewrite Nat.add_0_r. reflexivity.
  - simpl. rewrite IH. replace (S s + length l1)%nat
      with (s + S (length l1))%nat by lia.
    reflexivity.
Qed.

Lemma sumOverType_all (t : ChannelType) (v : list R) (n : nat) :
  forall (s : nat) (acc : R),
  fold_left
    (fun sum it =>
       if bool_decide (snd it = t) then sum + nth (fst it) v 0 else sum)
    (combine (seq s (length (replicate n t))) (replicate n t)) acc
  = acc + sumR (map (fun i => nth i v 0) (seq s n)).
Proof.
  induction n as [|n IH]; intros s acc.
  - simpl. rewrite sumR_nil. lra.
  - simpl. rewrite bool_decide_eq_true_2 by reflexivity.
    rewrite IH, sumR_cons. lra.
Qed.

Lemma sumOverType_none (t t' : ChannelType) (v : list R) (n : nat) :
  t' <> t ->
  forall (s : nat) (acc : R),
  fold_left
    (fun sum it =>
       if bool_decide (snd it = t) then sum + nth (fst it) v 0 else sum)
    (combine (seq s (length (replicate n t'))) (replicate n t')) acc
  = acc.
Proof.
  intros Hne. induction n as [|n IH]; intros s acc.
  - reflexivity.
  - simpl. rewrite bool_decide_eq_false_2 by exact Hne. apply IH.
Qed.

Lemma sumOverType_real (NR ND K : nat) (v : list R) :
  sumOverType real
    (replicate NR real ++ replicate ND decoy ++ replicate K inactive) v
  = sumR (map (fun i => nth i v 0) (seq 0 NR)).
Proof.
  unfold sumOverType.
  rewrite sumOverType_app, sumOverType_all, sumOverType_app.
  rewrite (sumOverType_none real inactive) by discriminate.
  rewrite (sumOverType_none real decoy) by discriminate.
  lra.
Qed.

Lemma sumOverType_decoy (NR ND K : nat) (v : list R) :
  sumOverType decoy
    (replicate NR real ++ replicate ND decoy ++ replicate K inactive) v
  = sumR (map (fun i => nth i v 0) (seq NR ND)).
Proof.
  unfold sumOverType.
  rewrite sumOverType_app, (sumOverType_none decoy real) by discriminate.
  rewrite sumOverType_app.
  rewrite (sumOverType_none decoy inactive) by discriminate.
  rewrite sumOverType_all, length_replicate. simpl. lra.
Qed.

(** ** Properties of one run *)

Lemma sinr_antitone (x_i y_i y_i' h_i g_i sigma2 : R) :
  0 <= h_i -> 0 <= g_i -> 0 < sigma2 -> 0 <= y_i <= y_i' ->
  0 <= calculateSINR x_i y_i' h_i g_i sigma2
    <= calculateSINR x_i y_i h_i g_i sigma2.
Proof.
  intros Hh Hg Hs [Hy Hy']. unfold calculateSINR.
  destruct (Rle_dec x_i 0) as [Hx|Hx]; [lra|].
  assert (Hnum : 0 <= x_i * h_i) by (apply Rmult_le_pos; lra).
  assert (Hd : 0 < sigma2 + y_i * g_i).
  { pose proof (Rmult_le_pos _ _ Hy Hg). lra. }
  assert (Hdd : sigma2 + y_i * g_i <= sigma2 + y_i' * g_i).
  { apply Rplus_le_compat_l, Rmult_le_compat_r; lra. }
  split.
  - apply Rdiv_nonneg; lra.
  - unfold Rdiv. apply Rmult_le_compat_l; [exact Hnum|].
    apply Rinv_le_contravar; lra.
Qed.

(** X15. More jamming power on a channel never raises its SINR or its
    rate, and neither is ever negative, for non-negative gains and
    bandwidth and positive noise. *)
Theorem jamming_never_raises_rate (x_i y_i y_i' h_i g_i sigma2 B_i : R) :
  0 <= h_i -> 0 <= g_i -> 0 <= B_i -> 0 < sigma2 -> 0 <= y_i <= y_i' ->
  0 <= calculateSINR x_i y_i' h_i g_i sigma2
    <= calculateSINR x_i y_i h_i g_i sigma2
  /\ 0 <= calculateRate x_i y_i' h_i g_i sigma2 B_i
       <= calculateRate x_i y_i h_i g_i sigma2 B_i.
Proof.
  intros Hh Hg HB Hs Hy.
  pose proof (sinr_antitone x_i y_i y_i' h_i g_i sigma2 Hh Hg Hs Hy)
    as [Hlo Hhi].
  split; [split; assumption|].
  rewrite !calculateRate_as_sinr.
  set (s' := calculateSINR x_i y_i' h_i g_i sigma2) in *.
  set (s := calculateSINR x_i y_i h_i g_i sigma2) in *.
  pose proof ln_2_pos as H2.
  assert (H0 : 0 <= log2 (1 + s')).
  { unfold log2. apply Rdiv_nonneg; [apply ln_nonneg|]; lra. }
  assert (Hmono : log2 (1 + s') <= log2 (1 + s)).
  { unfold log2, Rdiv. apply Rmult_le_compat_r.
    - left. apply Rinv_0_lt_compat. exact H2.
    - destruct (Req_dec s' s) as [->|Hne]; [lra|].
      left. apply ln_increasing; lra. }
  split.
  - apply Rmult_le_pos; assumption.
  - apply Rmult_le_compat_l; assumption.
Qed.

Lemma jamming_never_raises_rate_witness :
  0 <= calculateSINR 2 3 1 1 1 <= calculateSINR 2 0 1 1 1
  /\ 0 <= calculateRate 2 3 1 1 1 1 <= calculateRate 2 0 1 1 1 1.
Proof.
  apply (jamming_never_raises_rate 2 0 3 1 1 1 1); lra.
Defined.

(** X16. On a parameter object that carries [h] and [g], with one gain
    per channel, a run either throws or returns, and which one is
    decided by the two guards alone: too many decoys for the free
    channels gives the first error, whatever the budget; decoys that
    fit but cost more than the budget give the second; and every other
    such object gives a result. A body without [h] or [g] raises a
    [TypeError] instead and is not covered. *)
Theorem runSimulation_outcome (params : SimulationParams) :
  carriesGains params ->
  (runSimulation params
   = Thrown (InvalidND (Sim.ND params)
               (Z.of_nat (Sim.N params) - Z.of_nat (Sim.NR params)))
   <-> (Sim.N params < Sim.NR params + Sim.ND params)%nat)
  /\ (runSimulation params
      = Thrown (InvalidConfiguration (INR (Sim.ND params) * Sim.tau params)
                  (Sim.PT params))
      <-> (Sim.NR params + Sim.ND params <= Sim.N params)%nat
          /\ INR (Sim.ND params) * Sim.tau params > Sim.PT params)
  /\ ((exists r, runSimulation params = Returned r)
      <-> (Sim.NR params + Sim.ND params <= Sim.N params)%nat
          /\ INR (Sim.ND params) * Sim.tau params <= Sim.PT params).
Proof.
  intros _. unfold runSimulation.
  destruct (Z.ltb_spec (Z.of_nat (Sim.N params) - Z.of_nat (Sim.NR params))
              (Z.of_nat (Sim.ND params))) as [Hover|Hfit].
  - split; [|split]; split; intros H;
      try discriminate; try lia; try reflexivity;
      try (destruct H; discriminate).
  - destruct (Rgt_dec (INR (Sim.ND params) * Sim.tau params) (Sim.PT params))
      as [Hpow|Hpow].
    + split; [|split]; split; intros H;
        try discriminate; try lia; try reflexivity;
        try (destruct H; discriminate).
      * split; [lia | exact Hpow].
      * destruct H as [_ H]. lra.
    + split; [|split]; split; intros H;
        try discriminate; try lia;
        try (destruct H as [_ H]; lra).
      * split; [lia | lra].
      * eexists. reflexivity.
Qed.

Lemma runSimulation_outcome_witness :
  carriesGains (sampleSimulation None None)
  /\ (runSimulation (sampleSimulation None None)
      = Thrown (InvalidND 1 (4 - 2))
      <-> (4 < 2 + 1)%nat)
  /\ (runSimulation (sampleSimulation None None)
      = Thrown (InvalidConfiguration (INR 1 * 1) 10)
      <-> (2 + 1 <= 4)%nat /\ INR 1 * 1 > 10)
  /\ ((exists r, runSimulation (sampleSimulation None None) = Returned r)
      <-> (2 + 1 <= 4)%nat /\ INR 1 * 1 <= 10).
Proof.
  assert (Hgains : carriesGains (sampleSimulation None None)).
  { split; reflexivity. }
  split; [exact Hgains|].
  exact (runSimulation_outcome (sampleSimulation None None) Hgains).
Defined.

(** X17. In a run that returns, the first [NR] channels are real, the
    next [ND] are decoys and the rest are inactive, whatever the policy,
    and every per-channel array has [N] entries. *)
Theorem run_channel_layout (params : SimulationParams)
  (r : SingleRunResult) :
  runSimulation params = Returned r ->
  Sim.channelTypes r
  = replicate (Sim.NR params) real ++ replicate (Sim.ND params) decoy
      ++ replicate (Sim.N params - Sim.NR params - Sim.ND params) inactive
  /\ length (Sim.x r) = Sim.N params
  /\ length (Sim.rates r) = Sim.N params
  /\ length (Sim.sinr r) = Sim.N params.
Proof.
  intros Hr.
  destruct (runSimulation_returned params r Hr)
    as ([Hfit Hpow] & Hx & Hty & _ & _ & Hrates & Hsinr & _).
  rewrite Hrates, Hsinr, !length_imap, Hx, Hty.
  split; [apply policy_layout; exact Hfit|].
  rewrite policy_length. auto.
Qed.

Lemma run_channel_layout_witness :
  exists r,
    runSimulation (sampleSimulation (Some D3) (Some J1)) = Returned r
    /\ Sim.channelTypes r = [real; real; decoy; inactive]
    /\ length (Sim.x r) = 4%nat
    /\ length (Sim.rates r) = 4%nat
    /\ length (Sim.sinr r) = 4%nat.
Proof.
  destruct (sampleSimulation_returns (Some D3) (Some J1)) as [r Hr].
  exists r. split; [exact Hr|].
  exact (run_channel_layout _ r Hr).
Defined.

(** X18. A run that returns with at least one real channel, and a gain
    for each of them, spends the defender's whole budget: the
    allocation sums to [PT] under each of the three policies. *)
Theorem run_spends_defender_budget (params : SimulationParams)
  (r : SingleRunResult) :
  runSimulation params = Returned r ->
  (1 <= Sim.NR params <= length (Sim.h params))%nat ->
  sumR (Sim.x r) = Sim.PT params.
Proof.
  intros Hr [Hreal _].
  destruct (runSimulation_returned params r Hr)
    as ([Hfit Hpow] & Hx & _).
  rewrite Hx. apply policy_sum; assumption.
Qed.

Lemma run_spends_defender_budget_witness :
  exists r,
    runSimulation (sampleSimulation (Some D2) None) = Returned r
    /\ sumR (Sim.x r) = 10.
Proof.
  destruct (sampleSimulation_returns (Some D2) None) as [r Hr].
  exists r. split; [exact Hr|].
  apply (run_spends_defender_budget _ r Hr).
  cbn [sampleSimulation Sim.NR Sim.h length]. lia.
Defined.

(** ** The channels the jammer senses *)

Lemma sensedSet_spec (x : list R) (tau : R) (i : nat) :
  i ∈ sensedSet x tau <-> (i < length x)%nat /\ nth i x 0 >= tau.
Proof.
  unfold sensedSet. rewrite list_elem_of_In, filter_In, in_seq.
  destruct (Rge_dec (nth i x 0) tau); split; intros [H1 H2];
    try discriminate; try contradiction; (split; [lia || auto | auto]).
Qed.

Lemma sensedSet_NoDup (x : list R) (tau : R) : NoDup (sensedSet x tau).
Proof.
  apply NoDup_ListNoDup. unfold sensedSet.
  apply List.NoDup_filter, seq_NoDup.
Qed.

Lemma sensedSet_lt (x : list R) (tau : R) (i : nat) :
  i ∈ sensedSet x tau -> (i < length x)%nat.
Proof. intros Hi. apply sensedSet_spec in Hi. tauto. Qed.

Lemma nonempty_length {A} (l : list A) : l <> [] -> (1 <= length l)%nat.
Proof. destruct l; [congruence | simpl; lia]. Qed.

(** The targets of the top-K mode are distinct sensed channels. *)
Lemma sensed_targets (x g : list R) (tau : R) (n : nat) :
  let scored :=
    map (fun i => {| index := i; score := nth i x 0 * nth i g 0 |})
      (sensedSet x tau) in
  let targets := take n (sortByScore scored) in
  NoDup (map index targets)
  /\ forall t, t ∈ targets ->
               index t ∈ sensedSet x tau
               /\ score t = nth (index t) x 0 * nth (index t) g 0.
Proof.
  intros scored targets.
  assert (Hperm : map index (sortByScore scored) ≡ₚ sensedSet x tau).
  { transitivity (map index scored).
    - apply Permutation_map, sortByScore_Permutation.
    - unfold scored. rewrite map_map. simpl. rewrite map_id. reflexivity. }
  assert (Hsub : map index targets `sublist_of` map index (sortByScore scored)).
  { unfold targets.
    change (map index (take n (sortByScore scored)))
      with (index <$> take n (sortByScore scored)).
    rewrite fmap_take. apply sublist_take. }
  split.
  - eapply sublist_NoDup; [|exact Hsub].
    rewrite Hperm. apply sensedSet_NoDup.
  - intros t Ht.
    assert (Hin : t ∈ scored).
    { rewrite <- (sortByScore_Permutation scored).
      eapply elem_of_sublist; [exact Ht|]. apply sublist_take. }
    unfold scored in Hin.
    change (t ∈ (fun i => {| index := i; score := nth i x 0 * nth i g 0 |})
                  <$> sensedSet x tau) in Hin.
    apply list_elem_of_fmap in Hin. destruct Hin as (i & -> & Hi).
    split; [exact Hi | reflexivity].
Qed.

(** ** The three jammer modes *)

Lemma length_fold_insert_by {T} (key : T -> nat) (val : T -> R)
  (l : list T) :
  forall a : list R,
  length (fold_left (fun acc t => <[key t := val t]> acc) l a) = length a.
Proof.
  induction l as [|t l IH]; intros a; simpl.
  - reflexivity.
  - rewrite IH. apply length_insert.
Qed.

Lemma jammerModeJ1_outside (x : list R) (tau PJ : R) (N j : nat) :
  j ∉ sensedSet x tau -> nth j (jammerModeJ1 x tau PJ N) 0 = 0.
Proof.
  intros Hj. unfold jammerModeJ1.
  destruct (length (sensedSet x tau) =? 0)%nat.
  - apply nth_replicate_0.
  - rewrite nth_assignAll_notin by exact Hj. apply nth_replicate_0.
Qed.

Lemma jammerModeJ2_outside (x g : list R) (tau PJ : R) (N topK j : nat) :
  j ∉ sensedSet x tau -> nth j (jammerModeJ2 x g tau PJ N topK) 0 = 0.
Proof.
  intros Hj. unfold jammerModeJ2.
  destruct (length (sensedSet x tau) =? 0)%nat.
  - apply nth_replicate_0.
  - rewrite nth_fold_insert_other; [apply nth_replicate_0|].
    intros t Ht Heq. apply Hj. rewrite <- Heq.
    apply (proj2 (sensed_targets x g tau _) t Ht).
Qed.

Lemma gradientRounds_outside (x h g : list R) (PJ sigma2 : R) (N : nat)
  (B : list R) (activeSet : list nat) (j : nat) :
  j ∉ activeSet ->
  forall (remaining : nat) (y : list R),
  nth j (gradientRounds remaining x h g PJ sigma2 N B activeSet y) 0
  = nth j y 0.
Proof.
  intros Hj. induction remaining as [|k IH]; intros y; simpl.
  - reflexivity.
  - destruct (gradientRound x h g PJ sigma2 N B activeSet y) as [y'|] eqn:E;
      [|reflexivity].
    rewrite IH. unfold gradientRound in E.
    destruct (Rle_dec _ 0); [discriminate|]. injection E as <-.
    apply nth_assignAll_notin. exact Hj.
Qed.

Lemma jammerModeJ3_outside (x h g : list R) (tau PJ sigma2 : R) (N : nat)
  (B : list R) (j : nat) :
  j ∉ sensedSet x tau -> nth j (jammerModeJ3 x h g tau PJ sigma2 N B) 0 = 0.
Proof.
  intros Hj. unfold jammerModeJ3.
  destruct (length (sensedSet x tau) =? 0)%nat.
  - apply nth_replicate_0.
  - rewrite gradientRounds_outside by exact Hj.
    rewrite nth_assignAll_notin by exact Hj. apply nth_replicate_0.
Qed.

Lemma gradientRounds_length (x h g : list R) (PJ sigma2 : R) (N : nat)
  (B : list R) (activeSet : list nat) :
  forall (remaining : nat) (y : list R),
  length (gradientRounds remaining x h g PJ sigma2 N B activeSet y)
  = length y.
Proof.
  induction remaining as [|k IH]; intros y; simpl.
  - reflexivity.
  - destruct (gradientRound x h g PJ sigma2 N B activeSet y) as [y'|] eqn:E;
      [|reflexivity].
    rewrite IH. unfold gradientRound in E.
    destruct (Rle_dec _ 0); [discriminate|]. injection E as <-.
    apply length_assignAll.
Qed.

Lemma jammer_length (x h g : list R) (tau PJ sigma2 : R) (N topK : nat)
  (B : list R) (mode : JammerMode) :
  length (match mode with
          | J1 => jammerModeJ1 x tau PJ N
          | J2 => jammerModeJ2 x g tau PJ N topK
          | J3 => jammerModeJ3 x h g tau PJ sigma2 N B
          end) = N.
Proof.
  destruct mode.
  - unfold jammerModeJ1. destruct (_ =? _)%nat;
      rewrite ?length_assignAll; apply length_replicate.
  - unfold jammerModeJ2. destruct (_ =? _)%nat; [apply length_replicate|].
    rewrite length_fold_insert_by. apply length_replicate.
  - unfold jammerModeJ3. destruct (_ =? _)%nat; [apply length_replicate|].
    rewrite gradientRounds_length, length_assignAll. apply length_replicate.
Qed.

Lemma nonneg_assignAll (indices : list nat) (v : nat -> R) (a : list R) :
  (forall i, i ∈ indices -> 0 <= v i) ->
  nonneg a -> nonneg (assignAll indices v a).
Proof.
  intros Hv Ha. unfold assignAll.
  apply (nonneg_fold_insert (fun i : nat => i) v); assumption.
Qed.

Lemma nonneg_map_Rmax (l : list R) : nonneg l -> map (Rmax 0) l = l.
Proof.
  induction 1 as [|v l Hv _ IH]; simpl.
  - reflexivity.
  - rewrite IH, Rmax_right by exact Hv. reflexivity.
Qed.

(** A vector that is zero outside a set of indices is what writing its
    entries on that set into a zero vector gives. *)
Lemma supported_as_assignAll (E : list nat) (v : nat -> R) (y : list R) :
  (forall i, i ∈ E -> (i < length y)%nat) ->
  (forall j, j ∉ E -> nth j y 0 = 0) ->
  assignAll E v y = assignAll E v (replicate (length y) 0).
Proof.
  intros Hlt Hout. apply nth_ext_R.
  - rewrite !length_assignAll, length_replicate. reflexivity.
  - intros i _. destruct (decide (i ∈ E)) as [Hi|Hi].
    + rewrite !nth_assignAll_in; auto.
      rewrite length_replicate. auto.
    + rewrite !nth_assignAll_notin by exact Hi.
      rewrite nth_replicate_0. apply Hout. exact Hi.
Qed.

Lemma sumR_assignAll_supported (E : list nat) (v : nat -> R) (y : list R) :
  NoDup E ->
  (forall i, i ∈ E -> (i < length y)%nat) ->
  (forall j, j ∉ E -> nth j y 0 = 0) ->
  sumR (assignAll E v y) = sumR (map v E).
Proof.
  intros Hnd Hlt Hout.
  rewrite supported_as_assignAll by assumption.
  rewrite sumR_assignAll.
  - rewrite sumR_replicate_0. lra.
  - exact Hnd.
  - intros i Hi. rewrite length_replicate. auto.
  - intros i _. apply nth_replicate_0.
Qed.

Lemma jammerModeJ1_sum (x : list R) (tau PJ : R) (N : nat) :
  length x = N ->
  sensedSet x tau <> [] ->
  sumR (jammerModeJ1 x tau PJ N) = PJ.
Proof.
  intros Hlen Hne. unfold jammerModeJ1.
  pose proof (nonempty_length _ Hne) as H1.
  destruct (Nat.eqb_spec (length (sensedSet x tau)) 0) as [H0|_]; [lia|].
  rewrite sumR_assignAll.
  - rewrite sumR_replicate_0, sumR_map_const.
    assert (0 < INR (length (sensedSet x tau))) by (apply lt_0_INR; lia).
    field. lra.
  - apply sensedSet_NoDup.
  - intros i Hi. rewrite length_replicate, <- Hlen.
    eapply sensedSet_lt, Hi.
  - intros i _. apply nth_replicate_0.
Qed.

Lemma jammerModeJ2_sum (x g : list R) (tau PJ : R) (N topK : nat) :
  length x = N ->
  sensedSet x tau <> [] ->
  (1 <= topK)%nat ->
  sumR (jammerModeJ2 x g tau PJ N topK) = PJ.
Proof.
  intros Hlen Hne HK. unfold jammerModeJ2.
  pose proof (nonempty_length _ Hne) as H1.
  destruct (Nat.eqb_spec (length (sensedSet x tau)) 0) as [H0|_]; [lia|].
  set (scored := map _ (sensedSet x tau)).
  set (n := Nat.min topK (length (sortByScore scored))).
  destruct (sensed_targets x g tau n) as [Hkeys Hin].
  fold scored in Hkeys, Hin.
  set (targets := take n (sortByScore scored)) in *.
  rewrite fold_left_plus_map, Rplus_0_l.
  set (total := sumR (map score targets)).
  rewrite (sumR_fold_insert index
             (fun t => if Rgt_dec total 0 then score t / total * PJ
                       else PJ / INR (length targets))).
  - rewrite sumR_replicate_0, Rplus_0_l.
    destruct (Rgt_dec total 0) as [Hgt|_].
    + rewrite (map_ext _ (fun t => score t * (/ total * PJ)))
        by (intros t; unfold Rdiv; lra).
      rewrite sumR_map_mult_r. fold total. field. lra.
    + rewrite sumR_map_const.
      assert (Hlen1 : (1 <= length targets)%nat).
      { unfold targets. rewrite length_take. unfold n.
        rewrite (Permutation_length (sortByScore_Permutation scored)).
        unfold scored. rewrite length_map. lia. }
      assert (0 < INR (length targets)) by (apply lt_0_INR; lia).
      field. lra.
  - exact Hkeys.
  - intros t Ht. rewrite length_replicate, <- Hlen.
    eapply sensedSet_lt. apply (Hin t Ht).
  - intros t _. apply nth_replicate_0.
Qed.

Lemma jammerModeJ1_nonneg (x : list R) (tau PJ : R) (N : nat) :
  0 <= PJ -> nonneg (jammerModeJ1 x tau PJ N).
Proof.
  intros HP. unfold jammerModeJ1.
  destruct (_ =? _)%nat; [apply nonneg_replicate_0|].
  apply nonneg_assignAll; [|apply nonneg_replicate_0].
  intros i _. apply Rdiv_nonneg; [exact HP | apply pos_INR].
Qed.

Lemma jammerModeJ2_nonneg (x g : list R) (tau PJ : R) (N topK : nat) :
  0 <= PJ -> 0 <= tau -> nonneg g ->
  nonneg (jammerModeJ2 x g tau PJ N topK).
Proof.
  intros HP Htau Hg. unfold jammerModeJ2.
  destruct (_ =? _)%nat; [apply nonneg_replicate_0|].
  set (scored := map _ (sensedSet x tau)).
  set (n := Nat.min topK (length (sortByScore scored))).
  destruct (sensed_targets x g tau n) as [_ Hin].
  fold scored in Hin.
  set (targets := take n (sortByScore scored)) in *.
  apply nonneg_fold_insert; [|apply nonneg_replicate_0].
  intros t Ht. destruct (Hin t Ht) as [Hsensed Hscore].
  apply sensedSet_spec in Hsensed. destruct Hsensed as [_ Hx].
  destruct (Rgt_dec _ 0) as [Hgt|_].
  - apply Rmult_le_pos; [|exact HP].
    apply Rdiv_nonneg; [|lra].
    rewrite Hscore. apply Rmult_le_pos; [lra | apply nonneg_nth, Hg].
  - apply Rdiv_nonneg; [exact HP | apply pos_INR].
Qed.

(** One round of the gradient mode keeps the jamming vector a
    non-negative split of the budget over the sensed channels. *)
Lemma gradientRound_invariant (x h g : list R) (PJ sigma2 : R) (N : nat)
  (B : list R) (E : list nat) (y y' : list R) :
  NoDup E ->
  (forall i, i ∈ E -> (i < N)%nat) ->
  0 <= PJ -> 0 < sigma2 ->
  (forall i, i ∈ E -> 0 <= nth i x 0) ->
  nonneg h -> nonneg g -> nonneg B ->
  length y = N -> nonneg y ->
  (forall j, j ∉ E -> nth j y 0 = 0) ->
  gradientRound x h g PJ sigma2 N B E y = Some y' ->
  length y' = N /\ nonneg y'
  /\ (forall j, j ∉ E -> nth j y' 0 = 0)
  /\ sumR y' = PJ.
Proof.
  intros Hnd Hlt HP Hs Hx Hh Hg HB Hlen Hy Hout.
  unfold gradientRound.
  set (f := fun i : nat =>
              let denom := sigma2 + nth i y 0 * nth i g 0 in
              let sinr := nth i x 0 * nth i h 0 / denom in
              nth i B 0 * nth i x 0 * nth i h 0 * nth i g 0
              / (denom * denom * ln 2 * (1 + sinr))).
  set (gradients := assignAll E f (replicate N 0)).
  assert (Hf : forall i, i ∈ E -> 0 <= f i).
  { intros i Hi. unfold f. cbv zeta.
    pose proof (Hx i Hi) as Hxi.
    pose proof (nonneg_nth h i Hh) as Hhi.
    pose proof (nonneg_nth g i Hg) as Hgi.
    pose proof (nonneg_nth B i HB) as HBi.
    pose proof (nonneg_nth y i Hy) as Hyi.
    pose proof ln_2_pos as H2.
    assert (Hd : 0 < sigma2 + nth i y 0 * nth i g 0).
    { pose proof (Rmult_le_pos _ _ Hyi Hgi). lra. }
    assert (Hsinr : 0 <= nth i x 0 * nth i h 0
                         / (sigma2 + nth i y 0 * nth i g 0)).
    { apply Rdiv_nonneg; [apply Rmult_le_pos|]; lra. }
    apply Rdiv_nonneg.
    - repeat apply Rmult_le_pos; assumption.
    - repeat apply Rmult_le_pos; lra. }
  assert (Hgn : nonneg gradients).
  { apply nonneg_assignAll; [exact Hf | apply nonneg_replicate_0]. }
  assert (Hsum : fold_left (fun s gi => s + Rmax 0 gi) gradients 0
                 = sumR (map f E)).
  { rewrite fold_left_plus_map, Rplus_0_l, nonneg_map_Rmax by exact Hgn.
    unfold gradients. rewrite sumR_assignAll.
    - rewrite sumR_replicate_0. lra.
    - exact Hnd.
    - intros i Hi. rewrite length_replicate. auto.
    - intros i _. apply nth_replicate_0. }
  rewrite Hsum.
  destruct (Rle_dec (sumR (map f E)) 0) as [|Hpos]; [discriminate|].
  intros Hy'. injection Hy' as <-.
  assert (Hgi : forall i, i ∈ E -> nth i gradients 0 = f i).
  { intros i Hi. unfold gradients. apply nth_assignAll_in; [exact Hi|].
    rewrite length_replicate. auto. }
  repeat split.
  - rewrite length_assignAll. exact Hlen.
  - apply nonneg_assignAll; [|exact Hy].
    intros i Hi. apply Rmult_le_pos; [|exact HP].
    apply Rdiv_nonneg; [|lra]. rewrite Hgi by exact Hi. auto.
  - intros j Hj. rewrite nth_assignAll_notin by exact Hj. auto.
  - rewrite sumR_assignAll_supported.
    + rewrite (map_ext_in _ (fun i => f i * (/ sumR (map f E) * PJ))).
      * rewrite sumR_map_mult_r. field. lra.
      * intros i Hi. rewrite Hgi by (apply list_elem_of_In; exact Hi).
        unfold Rdiv. lra.
    + exact Hnd.
    + intros i Hi. rewrite Hlen. auto.
    + exact Hout.
Qed.

Lemma gradientRounds_invariant (x h g : list R) (PJ sigma2 : R) (N : nat)
  (B : list R) (E : list nat) :
  NoDup E ->
  (forall i, i ∈ E -> (i < N)%nat) ->
  0 <= PJ -> 0 < sigma2 ->
  (forall i, i ∈ E -> 0 <= nth i x 0) ->
  nonneg h -> nonneg g -> nonneg B ->
  forall (remaining : nat) (y : list R),
  length y = N -> nonneg y ->
  (forall j, j ∉ E -> nth j y 0 = 0) ->
  sumR y = PJ ->
  nonneg (gradientRounds remaining x h g PJ sigma2 N B E y)
  /\ sumR (gradientRounds remaining x h g PJ sigma2 N B E y) = PJ.
Proof.
  intros Hnd Hlt HP Hs Hx Hh Hg HB.
  induction remaining as [|k IH]; intros y Hlen Hy Hout Hsum; simpl.
  - auto.
  - destruct (gradientRound x h g PJ sigma2 N B E y) as [y'|] eqn:Hround;
      [|auto].
    destruct (gradientRound_invariant x h g PJ sigma2 N B E y y')
      as (Hlen' & Hy' & Hout' & Hsum'); auto.
Qed.

Lemma jammerModeJ3_invariant (x h g : list R) (tau PJ sigma2 : R) (N : nat)
  (B : list R) :
  length x = N ->
  0 <= PJ -> 0 < sigma2 -> 0 <= tau ->
  nonneg h -> nonneg g -> nonneg B ->
  nonneg (jammerModeJ3 x h g tau PJ sigma2 N B)
  /\ (sensedSet x tau <> [] ->
      sumR (jammerModeJ3 x h g tau PJ sigma2 N B) = PJ).
Proof.
  intros Hlen HP Hs Htau Hh Hg HB. unfold jammerModeJ3.
  destruct (Nat.eqb_spec (length (sensedSet x tau)) 0) as [H0|H0].
  - split; [apply nonneg_replicate_0|].
    intros Hne. apply nonempty_length in Hne. lia.
  - set (E := sensedSet x tau) in *.
    assert (HE : forall i, i ∈ E -> (i < N)%nat).
    { intros i Hi. rewrite <- Hlen. eapply sensedSet_lt, Hi. }
    assert (Hpos : 0 < INR (length E)) by (apply lt_0_INR; lia).
    destruct (gradientRounds_invariant x h g PJ sigma2 N B E
                (sensedSet_NoDup x tau) HE HP Hs) with
      (remaining := 100%nat)
      (y := assignAll E (fun _ => PJ / INR (length E)) (replicate N 0))
      as [Hnn Hsum]; auto.
    + intros i Hi. apply sensedSet_spec in Hi. lra.
    + rewrite length_assignAll. apply length_replicate.
    + apply nonneg_assignAll; [|apply nonneg_replicate_0].
      intros i _. apply Rdiv_nonneg; lra.
    + intros j Hj. rewrite nth_assignAll_notin by exact Hj.
      apply nth_replicate_0.
    + rewrite sumR_assignAll.
      * rewrite sumR_replicate_0, sumR_map_const. field. lra.
      * apply sensedSet_NoDup.
      * intros i Hi. rewrite length_replicate. auto.
      * intros i _. apply nth_replicate_0.
Qed.

Lemma calculateRate_nonneg (x_i y_i h_i g_i sigma2 B_i : R) :
  0 <= h_i -> 0 <= g_i -> 0 <= B_i -> 0 < sigma2 -> 0 <= y_i ->
  0 <= calculateSINR x_i y_i h_i g_i sigma2
  /\ 0 <= calculateRate x_i y_i h_i g_i sigma2 B_i.
Proof.
  intros Hh Hg HB Hs Hy.
  assert (Hsinr : 0 <= calculateSINR x_i y_i h_i g_i sigma2).
  { apply (sinr_antitone x_i y_i y_i h_i g_i sigma2); lra. }
  split; [exact Hsinr|].
  rewrite calculateRate_as_sinr.
  apply Rmult_le_pos; [exact HB|].
  unfold log2. apply Rdiv_nonneg; [apply ln_nonneg; lra|].
  left. apply ln_2_pos.
Qed.

Lemma policy_nonneg (params : SimulationParams) (policy : DefenderPolicy) :
  0 <= Sim.PT params -> 0 <= Sim.tau params -> nonneg (Sim.h params) ->
  nonneg (fst (match policy with
               | D1 => defenderPolicyD1 params
               | D2 => defenderPolicyD2 params
               | D3 => defenderPolicyD3 params
               end)).
Proof.
  intros HPT Htau Hh.
  assert (Hrem : 0 <= Rmax 0 (Sim.PT params
                              - INR (Sim.ND params) * Sim.tau params))
    by apply Rmax_l.
  destruct policy; cbn [fst defenderPolicyD1 defenderPolicyD2 defenderPolicyD3];
    repeat (apply nonneg_assignAll; [intros i _|]);
    try apply nonneg_replicate_0; try assumption.
  - destruct (_ <? _)%nat; [|lra].
    apply Rdiv_nonneg; [exact Hrem | apply pos_INR].
  - destruct (_ <? _)%nat; [|lra].
    apply Rdiv_nonneg; [exact HPT | apply pos_INR].
  - destruct (_ <? _)%nat; [|lra].
    apply Rdiv_nonneg; [exact HPT | apply pos_INR].
  - destruct (Rgt_dec _ 0) as [Hpos|_].
    + apply Rmult_le_pos; [|exact Hrem].
      apply Rdiv_nonneg; [apply nonneg_nth, Hh | lra].
    + apply Rdiv_nonneg; [exact Hrem | apply pos_INR].
Qed.

Lemma policy_decoy_power (params : SimulationParams)
  (policy : DefenderPolicy) (i : nat) :
  (Sim.NR params + Sim.ND params <= Sim.N params)%nat ->
  policy <> D2 ->
  (Sim.NR params <= i < Sim.NR params + Sim.ND params)%nat ->
  nth i (fst (match policy with
              | D1 => defenderPolicyD1 params
              | D2 => defenderPolicyD2 params
              | D3 => defenderPolicyD3 params
              end)) 0 = Sim.tau params.
Proof.
  intros Hfit Hpol Hi.
  destruct policy; [|congruence|];
    cbn [fst defenderPolicyD1 defenderPolicyD3].
  - rewrite nth_blocks by exact Hfit.
    destruct (Nat.ltb_spec i (Sim.NR params)); [lia|].
    destruct (Nat.ltb_spec i (Sim.NR params + Sim.ND params)); [|lia].
    reflexivity.
  - rewrite (nth_blocks_decoys_first _ _ _ _ (fun _ => Sim.tau params))
      by exact Hfit.
    destruct (Nat.ltb_spec i (Sim.NR params)); [lia|].
    destruct (Nat.ltb_spec i (Sim.NR params + Sim.ND params)); [|lia].
    reflexivity.
Qed.

Lemma run_senses_decoys (params : SimulationParams) (r : SingleRunResult)
  (i : nat) :
  runSimulation params = Returned r ->
  Sim.defenderPolicy params <> Some D2 ->
  (Sim.NR params <= i < Sim.NR params + Sim.ND params)%nat ->
  nth i (Sim.x r) 0 = Sim.tau params /\ i ∈ Sim.activeSet r.
Proof.
  intros Hr Hpol Hi.
  destruct (runSimulation_returned params r Hr)
    as ([Hfit Hpow] & Hx & _ & _ & Hact & _).
  assert (Hxi : nth i (Sim.x r) 0 = Sim.tau params).
  { rewrite Hx. apply policy_decoy_power; [exact Hfit | | exact Hi].
    destruct (Sim.defenderPolicy params) as [[]|]; cbn; congruence. }
  split; [exact Hxi|].
  rewrite Hact. apply sensedSet_spec. split.
  - rewrite Hx, policy_length. lia.
  - rewrite Hxi. lra.
Qed.

Lemma sampleSimulation_wellFormed (policy : option DefenderPolicy)
  (mode : option JammerMode) :
  wellFormed (sampleSimulation policy mode).
Proof.
  unfold wellFormed, bandwidths.
  cbn.
  repeat split; try lra; repeat constructor; lra.
Qed.

(** X19. Under the policies D1 and D3 (and the default) every decoy of
    a run that returns carries exactly the threshold power, so the
    jammer senses it, and the power spent on decoys is [ND * tau]. *)
Theorem decoys_sit_at_threshold (params : SimulationParams)
  (r : SingleRunResult) :
  runSimulation params = Returned r ->
  Sim.defenderPolicy params <> Some D2 ->
  (forall i, (Sim.NR params <= i < Sim.NR params + Sim.ND params)%nat ->
             nth i (Sim.x r) 0 = Sim.tau params /\ i ∈ Sim.activeSet r)
  /\ Sim.powerOnDecoys r = INR (Sim.ND params) * Sim.tau params.
Proof.
  intros Hr Hpol.
  split; [intros i Hi; apply run_senses_decoys; assumption|].
  destruct (runSimulation_returned params r Hr)
    as ([Hfit Hpow] & Hx & Hty & _ & _ & _ & _ & _ & Hdec).
  rewrite Hdec, Hty, policy_layout, sumOverType_decoy by exact Hfit.
  rewrite (map_ext_in _ (fun _ => Sim.tau params)).
  - rewrite sumR_map_const, length_seq. reflexivity.
  - intros i Hi. apply in_seq in Hi.
    apply (run_senses_decoys params r i Hr Hpol). lia.
Qed.

Lemma decoys_sit_at_threshold_witness :
  exists r,
    runSimulation (sampleSimulation (Some D3) (Some J2)) = Returned r
    /\ (forall i, (2 <= i < 3)%nat ->
                  nth i (Sim.x r) 0 = 1 /\ i ∈ Sim.activeSet r)
    /\ Sim.powerOnDecoys r = 1 * 1.
Proof.
  destruct (sampleSimulation_returns (Some D3) (Some J2)) as [r Hr].
  exists r. split; [exact Hr|].
  apply (decoys_sit_at_threshold _ r Hr).
  cbn [sampleSimulation Sim.defenderPolicy]. discriminate.
Defined.

(** X20. The defender's utility of a run is the total rate of its real
    channels; what the decoys and the inactive channels carry is left
    out. *)
Theorem U_real_counts_real_channels (params : SimulationParams)
  (r : SingleRunResult) :
  runSimulation params = Returned r ->
  Sim.U_real r
  = sumR (map (fun i => nth i (Sim.rates r) 0) (seq 0 (Sim.NR params))).
Proof.
  intros Hr.
  destruct (runSimulation_returned params r Hr)
    as ([Hfit Hpow] & Hx & Hty & _ & _ & _ & _ & HU & _).
  rewrite HU, Hty, policy_layout by exact Hfit.
  apply sumOverType_real.
Qed.

Lemma U_real_counts_real_channels_witness :
  exists r,
    runSimulation (sampleSimulation None None) = Returned r
    /\ Sim.U_real r
       = sumR (map (fun i => nth i (Sim.rates r) 0) (seq 0 2)).
Proof.
  destruct (sampleSimulation_returns None None) as [r Hr].
  exists r. split; [exact Hr|].
  exact (U_real_counts_real_channels _ r Hr).
Defined.

(** X21. The jammer of a run never puts power on a channel it does not
    sense: its vector has [N] entries and is zero outside the active
    set, in each of the three modes. *)
Theorem jammer_only_hits_sensed_channels (params : SimulationParams)
  (r : SingleRunResult) :
  runSimulation params = Returned r ->
  length (Sim.y r) = Sim.N params
  /\ forall j, j ∉ Sim.activeSet r -> nth j (Sim.y r) 0 = 0.
Proof.
  intros Hr.
  destruct (runSimulation_returned params r Hr)
    as (_ & _ & _ & Hy & Hact & _).
  rewrite Hy, Hact. split.
  - apply jammer_length.
  - intros j Hj. destruct (default J1 (Sim.jammerMode params)).
    + apply jammerModeJ1_outside. exact Hj.
    + apply jammerModeJ2_outside. exact Hj.
    + apply jammerModeJ3_outside. exact Hj.
Qed.

Lemma jammer_only_hits_sensed_channels_witness :
  exists r,
    runSimulation (sampleSimulation None (Some J3)) = Returned r
    /\ length (Sim.y r) = 4%nat
    /\ forall j, j ∉ Sim.activeSet r -> nth j (Sim.y r) 0 = 0.
Proof.
  destruct (sampleSimulation_returns None (Some J3)) as [r Hr].
  exists r. split; [exact Hr|].
  exact (jammer_only_hits_sensed_channels _ r Hr).
Defined.

(** X22. When the jammer of a well-formed run senses at least one
    channel, it spends its whole budget: the jamming vector sums to
    [PJ], under the uniform mode, the top-K mode with [topK >= 1] and
    the gradient mode. *)
Theorem jammer_spends_budget (params : SimulationParams)
  (r : SingleRunResult) :
  wellFormed params ->
  runSimulation params = Returned r ->
  Sim.activeSet r <> [] ->
  (1 <= default 3%nat (Sim.topK params))%nat ->
  sumR (Sim.y r) = Sim.PJ params.
Proof.
  intros (HPT & HPJ & Hs & Htau & [_ Hh] & [_ Hg] & [_ HB]) Hr Hne HK.
  destruct (runSimulation_returned params r Hr)
    as ([Hfit Hpow] & Hx & _ & Hy & Hact & _).
  rewrite Hact in Hne.
  assert (Hlen : length (Sim.x r) = Sim.N params).
  { rewrite Hx. apply policy_length. }
  rewrite Hy. destruct (default J1 (Sim.jammerMode params)).
  - apply jammerModeJ1_sum; assumption.
  - apply jammerModeJ2_sum; assumption.
  - apply jammerModeJ3_invariant; assumption.
Qed.

Lemma jammer_spends_budget_witness :
  exists r,
    runSimulation (sampleSimulation (Some D1) (Some J3)) = Returned r
    /\ sumR (Sim.y r) = 5.
Proof.
  destruct (sampleSimulation_returns (Some D1) (Some J3)) as [r Hr].
  exists r. split; [exact Hr|].
  apply (jammer_spends_budget _ r (sampleSimulation_wellFormed _ _) Hr).
  - intros Hempty.
    assert (Hin : 2%nat ∈ Sim.activeSet r).
    { apply (run_senses_decoys _ r 2 Hr).
      - cbn [sampleSimulation Sim.defenderPolicy]. discriminate.
      - cbn [sampleSimulation Sim.NR Sim.ND]. lia. }
    rewrite Hempty in Hin. inversion Hin.
  - cbn [sampleSimulation Sim.topK default]. lia.
Defined.

(** X23. A well-formed run that returns has no negative number in it:
    the two allocations, the rates and the SINRs are non-negative, and
    so is the defender's utility. *)
Theorem run_is_nonnegative (params : SimulationParams)
  (r : SingleRunResult) :
  wellFormed params ->
  runSimulation params = Returned r ->
  nonneg (Sim.x r) /\ nonneg (Sim.y r)
  /\ nonneg (Sim.rates r) /\ nonneg (Sim.sinr r)
  /\ 0 <= Sim.U_real r.
Proof.
  intros (HPT & HPJ & Hs & Htau & [_ Hh] & [_ Hg] & [_ HB]) Hr.
  destruct (runSimulation_returned params r Hr)
    as ([Hfit Hpow] & Hx & Hty & Hy & Hact & Hrates & Hsinr & HU & _).
  assert (Hxn : nonneg (Sim.x r)).
  { rewrite Hx. apply policy_nonneg; assumption. }
  assert (Hlen : length (Sim.x r) = Sim.N params).
  { rewrite Hx. apply policy_length. }
  assert (Hyn : nonneg (Sim.y r)).
  { rewrite Hy. destruct (default J1 (Sim.jammerMode params)).
    - apply jammerModeJ1_nonneg. exact HPJ.
    - apply jammerModeJ2_nonneg; assumption.
    - apply jammerModeJ3_invariant; assumption. }
  assert (Hcell : forall i xi,
            0 <= calculateSINR xi (nth i (Sim.y r) 0)
                   (nth i (Sim.h params) 0) (nth i (Sim.g params) 0)
                   (Sim.sigma2 params)
            /\ 0 <= calculateRate xi (nth i (Sim.y r) 0)
                      (nth i (Sim.h params) 0) (nth i (Sim.g params) 0)
                      (Sim.sigma2 params) (nth i (bandwidths params) 0)).
  { intros i xi. apply calculateRate_nonneg; try exact Hs;
      apply nonneg_nth; assumption. }
  assert (Hrn : nonneg (Sim.rates r)).
  { rewrite Hrates. apply Forall_lookup_2. intros i v Hv.
    rewrite list_lookup_imap in Hv.
    destruct (Sim.x r !! i) as [xi|]; [|discriminate].
    injection Hv as <-. apply Hcell. }
  assert (Hsn : nonneg (Sim.sinr r)).
  { rewrite Hsinr. apply Forall_lookup_2. intros i v Hv.
    rewrite list_lookup_imap in Hv.
    destruct (Sim.x r !! i) as [xi|]; [|discriminate].
    injection Hv as <-. apply Hcell. }
  repeat split; try assumption.
  rewrite HU, Hty, policy_layout, sumOverType_real by exact Hfit.
  apply sumR_nonneg, Forall_forall. intros v Hv.
  apply list_elem_of_In, in_map_iff in Hv. destruct Hv as (i & <- & _).
  apply nonneg_nth. exact Hrn.
Qed.

Lemma run_is_nonnegative_witness :
  exists r,
    runSimulation (sampleSimulation (Some D3) (Some J2)) = Returned r
    /\ nonneg (Sim.x r) /\ nonneg (Sim.y r)
    /\ nonneg (Sim.rates r) /\ nonneg (Sim.sinr r)
    /\ 0 <= Sim.U_real r.
Proof.
  destruct (sampleSimulation_returns (Some D3) (Some J2)) as [r Hr].
  exists r. split; [exact Hr|].
  exact (run_is_nonnegative _ r (sampleSimulation_wellFormed _ _) Hr).
Defined.

(** * Sweeps *)

Lemma tryRun_value (params : SimulationParams) (ND : nat) (best : Best) :
  fst (tryRun params ND best) = utilityOrZero (runSimulation params).
Proof.
  unfold tryRun, utilityOrZero.
  destruct (runSimulation params) as [e|result]; [reflexivity|].
  destruct (beats _ _); reflexivity.
Qed.

Lemma sweepND_fold (base : SimulationParams) (l : list nat) :
  forall (NDValues : list nat) (U_realValues : list R) (best : Best),
  fold_left
    (fun st ND =>
       let '(NDValues, U_realValues, best) := st in
       let '(u, best) := tryRun (withND base ND) ND best in
       (NDValues ++ [ND], U_realValues ++ [u], best))
    l (NDValues, U_realValues, best)
  = (NDValues ++ l,
     U_realValues
       ++ map (fun ND => utilityOrZero (runSimulation (withND base ND))) l,
     fold_left (fun best ND => snd (tryRun (withND base ND) ND best)) l best).
Proof.
  induction l as [|ND l IH]; intros NDValues U_realValues best; simpl.
  - rewrite !app_nil_r. reflexivity.
  - destruct (tryRun (withND base ND) ND best) as [u best'] eqn:E.
    rewrite IH, <- !app_assoc. simpl.
    rewrite <- tryRun_value with (ND := ND) (best := best), E.
    reflexivity.
Qed.

Lemma heatmapRow_fold (base : SimulationParams) (overTau : bool)
  (secondary : R) (l : list nat) :
  forall (row : list R) (best : Best),
  fold_left
    (fun st ND =>
       let '(row, best) := st in
       let params :=
         if overTau then withNDTau base ND secondary
         else withNDPJ base ND secondary in
       let '(u, best) := tryRun params ND best in
       (row ++ [u], best))
    l (row, best)
  = (row
       ++ map (fun ND =>
                 utilityOrZero
                   (runSimulation
                      (if overTau then withNDTau base ND secondary
                       else withNDPJ base ND secondary))) l,
     fold_left
       (fun best ND =>
          snd (tryRun (if overTau then withNDTau base ND secondary
                       else withNDPJ base ND secondary) ND best))
       l best).
Proof.
  induction l as [|ND l IH]; intros row best; simpl.
  - rewrite app_nil_r. reflexivity.
  - destruct (tryRun _ ND best) as [u best'] eqn:E.
    rewrite IH, <- app_assoc. simpl.
    rewrite <- tryRun_value with (ND := ND) (best := best), E.
    reflexivity.
Qed.

Lemma plainSeries_fold (base : SimulationParams) (l : list nat) :
  forall st : list nat * list R,
  fold_left
    (fun st ND =>
       match runSimulation (withND base ND) with
       | Returned result =>
           (fst st ++ [ND], snd st ++ [Sim.U_real result])
       | Thrown _ => (fst st ++ [ND], snd st ++ [0])
       end)
    l st
  = (fst st ++ l,
     snd st
       ++ map (fun ND => utilityOrZero (runSimulation (withND base ND))) l).
Proof.
  induction l as [|ND l IH]; intros st; simpl.
  - rewrite !app_nil_r. destruct st; reflexivity.
  - rewrite IH. unfold utilityOrZero at 2.
    destruct (runSimulation (withND base ND)); simpl;
      rewrite <- !app_assoc; reflexivity.
Qed.

(** The running best after one more run. *)
Lemma bestAmong_step (seen : list (SimulationParams * nat))
  (params : SimulationParams) (ND : nat) (best : Best) :
  bestAmong seen best ->
  bestAmong (seen ++ [(params, ND)]) (snd (tryRun params ND best)).
Proof.
  unfold bestAmong, tryRun. intros Hbest.
  destruct (runSimulation params) as [e|result] eqn:Hrun.
  - cbn [snd]. destruct (snd best) as [b|].
    + destruct Hbest as [(run & res & Hin & Hnd & Hres & Hb) Hmax].
      split.
      * exists run, res. repeat split; auto. apply in_or_app. auto.
      * intros run' res' Hin' Hres'. apply in_app_or in Hin'.
        destruct Hin' as [Hin'|[<-|[]]]; [eauto|].
        cbn [fst] in Hres'. congruence.
    + destruct Hbest as [H0 Hall]. split; [exact H0|].
      intros run' Hin'. apply in_app_or in Hin'.
      destruct Hin' as [Hin'|[<-|[]]]; [eauto|].
      exists e. exact Hrun.
  - unfold beats. destruct (snd best) as [b|] eqn:Hb.
    + destruct Hbest as [(run & res & Hin & Hnd & Hres & Hval) Hmax].
      destruct (Rgt_dec (Sim.U_real result) b) as [Hgt|Hle]; cbn [snd fst].
      * split.
        -- exists (params, ND), result. repeat split; auto.
           apply in_or_app. right. left. reflexivity.
        -- intros run' res' Hin' Hres'. apply in_app_or in Hin'.
           destruct Hin' as [Hin'|[<-|[]]].
           ++ pose proof (Hmax run' res' Hin' Hres'). lra.
           ++ cbn [fst] in Hres'. rewrite Hrun in Hres'.
              injection Hres' as <-. lra.
      * rewrite Hb. split.
        -- exists run, res. repeat split; auto. apply in_or_app. auto.
        -- intros run' res' Hin' Hres'. apply in_app_or in Hin'.
           destruct Hin' as [Hin'|[<-|[]]]; [eauto|].
           cbn [fst] in Hres'. rewrite Hrun in Hres'.
           injection Hres' as <-. lra.
    + cbn [snd fst]. split.
      * exists (params, ND), result. repeat split; auto.
        apply in_or_app. right. left. reflexivity.
      * intros run' res' Hin' Hres'. apply in_app_or in Hin'.
        destruct Hbest as [_ Hall].
        destruct Hin' as [Hin'|[<-|[]]].
        -- destruct (Hall run' Hin') as [e He]. congruence.
        -- cbn [fst] in Hres'. rewrite Hrun in Hres'.
           injection Hres' as <-. lra.
Qed.

Lemma bestAmong_scan (p : nat -> SimulationParams) (l : list nat) :
  forall (seen : list (SimulationParams * nat)) (best : Best),
  bestAmong seen best ->
  bestAmong (seen ++ map (fun ND => (p ND, ND)) l)
    (fold_left (fun best ND => snd (tryRun (p ND) ND best)) l best).
Proof.
  induction l as [|ND l IH]; intros seen best Hbest; simpl.
  - rewrite app_nil_r. exact Hbest.
  - replace (seen ++ (p ND, ND) :: map (fun ND0 => (p ND0, ND0)) l)
      with ((seen ++ [(p ND, ND)]) ++ map (fun ND0 => (p ND0, ND0)) l)
      by (rewrite <- app_assoc; reflexivity).
    apply IH, bestAmong_step, Hbest.
Qed.

Lemma bestAmong_nil : bestAmong [] (0%nat, None).
Proof. split; [reflexivity|]. intros run []. Qed.

Lemma heatmapRow_eq (base : SimulationParams) (overTau : bool)
  (NDRange : list nat) (secondary : R) (best : Best) :
  heatmapRow base overTau NDRange secondary best
  = (map (fun ND =>
            utilityOrZero
              (runSimulation
                 (if overTau then withNDTau base ND secondary
                  else withNDPJ base ND secondary))) NDRange,
     fold_left
       (fun best ND =>
          snd (tryRun (if overTau then withNDTau base ND secondary
                       else withNDPJ base ND secondary) ND best))
       NDRange best).
Proof. unfold heatmapRow. rewrite heatmapRow_fold. reflexivity. Qed.

Lemma heatmap_fold (base : SimulationParams) (overTau : bool)
  (NDRange : list nat) (secondaryRange : list R) :
  forall (z : list (list R)) (best : Best)
         (seen : list (SimulationParams * nat)),
  bestAmong seen best ->
  fst (fold_left
         (fun st secondary =>
            let '(row, best) :=
              heatmapRow base overTau NDRange secondary (snd st) in
            (fst st ++ [row], best))
         secondaryRange (z, best))
  = z ++ map (fun secondary =>
                map (fun ND =>
                       utilityOrZero
                         (runSimulation
                            (if overTau then withNDTau base ND secondary
                             else withNDPJ base ND secondary)))
                  NDRange)
          secondaryRange
  /\ bestAmong
       (seen ++ flat_map
                  (fun secondary =>
                     map (fun ND =>
                            (if overTau then withNDTau base ND secondary
                             else withNDPJ base ND secondary, ND)) NDRange)
                  secondaryRange)
       (snd (fold_left
               (fun st secondary =>
                  let '(row, best) :=
                    heatmapRow base overTau NDRange secondary (snd st) in
                  (fst st ++ [row], best))
               secondaryRange (z, best))).
Proof.
  induction secondaryRange as [|s l IH]; intros z best seen Hbest.
  - simpl. rewrite !app_nil_r. auto.
  - cbn [fold_left flat_map map snd fst].
    rewrite heatmapRow_eq.
    set (best' := fold_left _ NDRange best).
    set (row := map _ NDRange).
    specialize (IH (z ++ [row]) best'
                  (seen ++ map (fun ND => (if overTau
                                           then withNDTau base ND s
                                           else withNDPJ base ND s, ND))
                             NDRange)).
    rewrite <- !app_assoc in IH. cbn [app] in IH.
    apply IH. unfold best'.
    apply (bestAmong_scan
             (fun ND => if overTau then withNDTau base ND s
                        else withNDPJ base ND s)).
    exact Hbest.
Qed.

Lemma runSweep_without_secondary (p : SweepParams) :
  default SweepND (sweepType p) = SweepND ->
  secondaryRange p = None ->
  NDValues (runSweep p) = NDRange p
  /\ U_realValues (runSweep p)
     = map (fun ND => utilityOrZero (runSimulation (withND (baseParams p) ND)))
         (NDRange p)
  /\ heatmapData (runSweep p) = None
  /\ bestAmong (competingRuns p) (bestND (runSweep p), bestU_real (runSweep p)).
Proof.
  intros Htype Hsec. unfold runSweep, competingRuns.
  rewrite Htype, Hsec. unfold sweepND. rewrite sweepND_fold.
  cbn [NDValues U_realValues heatmapData bestND bestU_real app].
  repeat split.
  rewrite <- surjective_pairing.
  apply (bestAmong_scan (fun ND => withND (baseParams p) ND) (NDRange p) []).
  apply bestAmong_nil.
Qed.

Lemma runSweep_with_secondary (p : SweepParams) (secondary : list R) :
  secondaryRange p = Some secondary ->
  NDValues (runSweep p) = NDRange p
  /\ U_realValues (runSweep p)
     = map (fun ND => utilityOrZero (runSimulation (withND (baseParams p) ND)))
         (NDRange p)
  /\ heatmapData (runSweep p)
     = Some {| heat_x := NDRange p;
               heat_y := secondary;
               heat_z :=
                 map (fun s =>
                        map (fun ND =>
                               utilityOrZero
                                 (runSimulation (cellParams p s ND)))
                          (NDRange p))
                   secondary;
               xLabel := DecoyChannelsLabel;
               yLabel :=
                 match default SweepND (sweepType p) with
                 | SweepTau => ThresholdLabel
                 | _ => JammerBudgetLabel
                 end |}
  /\ bestAmong (competingRuns p) (bestND (runSweep p), bestU_real (runSweep p)).
Proof.
  intros Hsec.
  set (overTau := match default SweepND (sweepType p) with
                  | SweepTau => true
                  | _ => false
                  end).
  assert (Hcell : forall s ND,
            cellParams p s ND
            = if overTau then withNDTau (baseParams p) ND s
              else withNDPJ (baseParams p) ND s).
  { intros s ND. unfold cellParams, overTau.
    destruct (default SweepND (sweepType p)); reflexivity. }
  pose (final :=
          fold_left
            (fun (st : list (list R) * Best) s =>
               let '(row, best) :=
                 heatmapRow (baseParams p) overTau (NDRange p) s (snd st) in
               (fst st ++ [row], best))
            secondary ([], (0%nat, None))).
  assert (Hrun : runSweep p
                 = {| NDValues := fst (plainSeries (baseParams p) (NDRange p));
                      U_realValues :=
                        snd (plainSeries (baseParams p) (NDRange p));
                      bestND := fst (snd final);
                      bestU_real := snd (snd final);
                      heatmapData :=
                        Some {| heat_x := NDRange p;
                                heat_y := secondary;
                                heat_z := fst final;
                                xLabel := DecoyChannelsLabel;
                                yLabel :=
                                  if overTau then ThresholdLabel
                                  else JammerBudgetLabel |} |}).
  { unfold runSweep. rewrite Hsec. fold overTau.
    assert (Hshape :
              (let '(z, best) := final in
               let '(NDValues, U_realValues) :=
                 plainSeries (baseParams p) (NDRange p) in
               {| NDValues := NDValues;
                  U_realValues := U_realValues;
                  bestND := fst best;
                  bestU_real := snd best;
                  heatmapData :=
                    Some {| heat_x := NDRange p;
                            heat_y := secondary;
                            heat_z := z;
                            xLabel := DecoyChannelsLabel;
                            yLabel :=
                              if overTau then ThresholdLabel
                              else JammerBudgetLabel |} |})
              = {| NDValues := fst (plainSeries (baseParams p) (NDRange p));
                   U_realValues :=
                     snd (plainSeries (baseParams p) (NDRange p));
                   bestND := fst (snd final);
                   bestU_real := snd (snd final);
                   heatmapData :=
                     Some {| heat_x := NDRange p;
                             heat_y := secondary;
                             heat_z := fst final;
                             xLabel := DecoyChannelsLabel;
                             yLabel :=
                               if overTau then ThresholdLabel
                               else JammerBudgetLabel |} |}).
    { destruct final as [z best].
      destruct (plainSeries (baseParams p) (NDRange p)). reflexivity. }
    destruct (default SweepND (sweepType p)); exact Hshape. }
  rewrite Hrun. clear Hrun.
  assert (Hfold : fst final
                  = map (fun s =>
                           map (fun ND =>
                                  utilityOrZero
                                    (runSimulation
                                       (if overTau
                                        then withNDTau (baseParams p) ND s
                                        else withNDPJ (baseParams p) ND s)))
                             (NDRange p))
                      secondary
                  /\ bestAmong
                       (flat_map
                          (fun s =>
                             map (fun ND =>
                                    (if overTau
                                     then withNDTau (baseParams p) ND s
                                     else withNDPJ (baseParams p) ND s, ND))
                               (NDRange p))
                          secondary)
                       (snd final)).
  { exact (heatmap_fold (baseParams p) overTau (NDRange p) secondary
             [] (0%nat, None) [] bestAmong_nil). }
  destruct Hfold as [Hz Hbest]. clearbody final.
  unfold plainSeries. rewrite plainSeries_fold.
  cbn [fst snd app NDValues U_realValues heatmapData bestND bestU_real].
  repeat split.
  - rewrite Hz. f_equal. f_equal.
    + apply map_ext. intros s. apply map_ext. intros ND.
      rewrite Hcell. reflexivity.
    + unfold overTau. destruct (default SweepND (sweepType p)); reflexivity.
  - rewrite <- surjective_pairing. unfold competingRuns. rewrite Hsec.
    erewrite flat_map_ext; [exact Hbest|].
    intros s. apply map_ext. intros ND. rewrite Hcell. reflexivity.
Qed.

(** X24. A sweep records one utility per entry of [NDRange], in order,
    computed on the base parameters with that number of decoys, and [0]
    for a run that threw; a sweep over tau or PJ that was given no
    secondary range runs nothing and returns empty series. *)
Theorem sweep_records_every_decoy_count (p : SweepParams) :
  match default SweepND (sweepType p), secondaryRange p with
  | SweepTau, None | SweepPJ, None =>
      runSweep p
      = {| NDValues := []; U_realValues := []; bestND := 0;
           bestU_real := None; heatmapData := None |}
  | _, _ =>
      NDValues (runSweep p) = NDRange p
      /\ U_realValues (runSweep p)
         = map (fun ND =>
                  utilityOrZero (runSimulation (withND (baseParams p) ND)))
             (NDRange p)
  end.
Proof.
  destruct (secondaryRange p) as [secondary|] eqn:Hsec.
  - pose proof (runSweep_with_secondary p secondary Hsec) as (H1 & H2 & _).
    destruct (default SweepND (sweepType p)); auto.
  - destruct (default SweepND (sweepType p)) eqn:Htype.
    + pose proof (runSweep_without_secondary p Htype Hsec) as (H1 & H2 & _).
      auto.
    + unfold runSweep. rewrite Htype, Hsec. reflexivity.
    + unfold runSweep. rewrite Htype, Hsec. reflexivity.
Qed.

(** X25. The heatmap of a sweep exists exactly when a secondary range
    was given; it has one row per secondary value and one cell per
    entry of [NDRange], each the utility of the run with that number of
    decoys and that tau (sweep type tau) or that jammer budget (any
    other sweep type), or [0] when that run threw. *)
Theorem sweep_heatmap_cells (p : SweepParams) :
  heatmapData (runSweep p)
  = match secondaryRange p with
    | None => None
    | Some secondary =>
        Some {| heat_x := NDRange p;
                heat_y := secondary;
                heat_z :=
                  map (fun s =>
                         map (fun ND =>
                                utilityOrZero
                                  (runSimulation (cellParams p s ND)))
                           (NDRange p))
                    secondary;
                xLabel := DecoyChannelsLabel;
                yLabel :=
                  match default SweepND (sweepType p) with
                  | SweepTau => ThresholdLabel
                  | _ => JammerBudgetLabel
                  end |}
    end.
Proof.
  destruct (secondaryRange p) as [secondary|] eqn:Hsec.
  - apply (runSweep_with_secondary p secondary Hsec).
  - unfold runSweep. rewrite Hsec.
    destruct (default SweepND (sweepType p)); [|reflexivity..].
    destruct (sweepND _ _) as [[? ?] ?]. reflexivity.
Qed.


(** * The validators of the single run and of the sweep *)

Lemma nonNegativeNumber_true (val : JSON) :
  nonNegativeNumber val = true <-> exists q, val = JNumber q /\ (0 <= q)%Q.
Proof.
  unfold nonNegativeNumber. split.
  - destruct val as [| |q| | | |]; try discriminate.
    destruct (Qlt_le_dec q 0); [discriminate|]. eauto.
  - intros (q & -> & Hq).
    destruct (Qlt_le_dec q 0) as [Hlt|]; [|reflexivity].
    exfalso. apply (Qlt_not_le _ _ Hlt). exact Hq.
Qed.

Lemma validateGains_valid (toString : Q -> string) (value : option JSON)
  (name : string) :
  valid (validateGains toString value name) = true
  <-> value = None
      \/ exists items, value = Some (JArray items)
                       /\ (length items <= MAX_N)%nat
                       /\ Forall (fun v => exists q,
                                    v = JNumber q /\ (0 <= q)%Q) items.
Proof.
  unfold validateGains. destruct value as [v|]; [|tauto].
  pose proof (validateArray_valid toString (Some v) name MAX_N) as Harr.
  destruct (valid (validateArray toString (Some v) name MAX_N)) eqn:E;
    cbn [negb].
  - apply proj1 in Harr. destruct (Harr eq_refl) as (items & Hv & Hlen).
    injection Hv as ->.
    destruct (forallb nonNegativeNumber items) eqn:Hall.
    + split; [intros _ | reflexivity]. right. exists items.
      repeat split; auto.
      apply Forall_forall. intros w Hw.
      apply nonNegativeNumber_true.
      apply (proj1 (forallb_forall _ _) Hall).
      apply list_elem_of_In. exact Hw.
    + split; [discriminate|].
      intros [Hnone|(items' & Hv & _ & Hnn)]; [discriminate|].
      injection Hv as <-.
      assert (forallb nonNegativeNumber items = true); [|congruence].
      apply forallb_forall. intros w Hw.
      apply nonNegativeNumber_true.
      apply (proj1 (Forall_forall _ _) Hnn).
      apply list_elem_of_In. exact Hw.
  - rewrite E. split; [discriminate|].
    intros [Hnone|(items & Hv & Hlen & _)]; [discriminate|].
    assert (false = true); [|discriminate].
    apply Harr. eauto.
Qed.

Lemma validateOptionalChoice_valid (allowed : list string)
  (value : option JSON) (msg : string) :
  valid (validateOptionalChoice allowed value msg) = true
  <-> value = None
      \/ exists s, value = Some (JString s) /\ In s allowed.
Proof.
  unfold validateOptionalChoice. destruct value as [v|]; [|tauto].
  pose proof (includes_true allowed (Some v)) as Hinc.
  destruct (includes allowed (Some v)).
  - split; [intros _ | reflexivity]. right. apply Hinc. reflexivity.
  - split; [discriminate|].
    intros [Hnone|Hs]; [discriminate|].
    apply Hinc in Hs. discriminate.
Qed.

(** Destructs, one after the other, the checks of a validator whose
    acceptance has been characterised in the context. *)
Ltac walk_checks :=
  repeat match goal with
         | H : (?b = true <-> ?P) |- context [?b] =>
             let E := fresh "E" in
             destruct b eqn:E; cbn [negb]; cbv beta iota;
             [ apply proj1 in H; specialize (H eq_refl)
             | split;
               [ intros He;
                 first [congruence | cbn [valid invalid] in He; discriminate]
               | intros Hall; decompose [and] Hall;
                 assert (false = true) by (apply H; assumption);
                 discriminate ] ]
         end.

(** X27. The validator of the single run accepts a request exactly when
    it is an object whose seven numeric fields are finite numbers
    within their bounds, whose [h] and [g], when present, are arrays of
    at most a hundred non-negative finite numbers, and whose policy and
    jammer mode, when present, are listed strings. It does not look at
    [topK], [B] or [seed], nor at the agreement of [N] with the lengths
    of [h] and [g]. *)
Theorem validateSimulationParams_accepts_iff (toString : Q -> string)
  (request : JSON) :
  valid (validateSimulationParams toString request) = true
  <-> notAnObject request = false
      /\ numberIn request "N" 1 100
      /\ numberIn request "NR" 0 100
      /\ numberIn request "ND" 0 100
      /\ numberIn request "PT" 0 10000
      /\ numberIn request "PJ" 0 10000
      /\ numberIn request "sigma2" 0.0001 10000
      /\ numberIn request "tau" 0 10000
      /\ optionalGains request "h" 100
      /\ optionalGains request "g" 100
      /\ optionalStringIn request "defenderPolicy" ["D1"; "D2"; "D3"]%string
      /\ optionalStringIn request "jammerMode" ["J1"; "J2"; "J3"]%string.
Proof.
  pose proof (validateNumber_valid toString (property request "N") "N" 1
                (ofNat MAX_N)) as H1.
  pose proof (validateNumber_valid toString (property request "NR") "NR" 0
                (ofNat MAX_N)) as H2.
  pose proof (validateNumber_valid toString (property request "ND") "ND" 0
                (ofNat MAX_N)) as H3.
  pose proof (validateNumber_valid toString (property request "PT") "PT" 0
                MAX_POWER) as H4.
  pose proof (validateNumber_valid toString (property request "PJ") "PJ" 0
                MAX_POWER) as H5.
  pose proof (validateNumber_valid toString (property request "sigma2")
                "sigma2" 0.0001 MAX_POWER) as H6.
  pose proof (validateNumber_valid toString (property request "tau") "tau" 0
                MAX_POWER) as H7.
  pose proof (validateGains_valid toString (property request "h") "h") as H8.
  pose proof (validateGains_valid toString (property request "g") "g") as H9.
  pose proof (validateOptionalChoice_valid ["D1"; "D2"; "D3"]%string
                (property request "defenderPolicy")
                "defenderPolicy must be D1, D2, or D3") as H10.
  pose proof (validateOptionalChoice_valid ["J1"; "J2"; "J3"]%string
                (property request "jammerMode")
                "jammerMode must be J1, J2, or J3") as H11.
  unfold validateSimulationParams.
  destruct (notAnObject request).
  { split; [discriminate | intros [H _]; discriminate]. }
  cbv zeta. cbn [firstInvalid].
  walk_checks.
  split; [intros _ | reflexivity].
  repeat split; assumption.
Qed.

(** X28. The validator of the sweep accepts a request exactly when it
    is an object whose [baseParams] is an object or an array, whose
    [NDRange] is an array of at most fifty items and whose
    [secondaryRange], when present, is one too. It looks neither into
    [baseParams] nor at the items of the ranges nor at [sweepType]. *)
Theorem validateSweepParams_accepts_iff (toString : Q -> string)
  (request : JSON) :
  valid (validateSweepParams toString request) = true
  <-> notAnObject request = false
      /\ objectAt request "baseParams"
      /\ arrayUpTo request "NDRange" 50
      /\ optionalArrayUpTo request "secondaryRange" 50.
Proof.
  pose proof (validateArray_valid toString (property request "NDRange")
                "NDRange" MAX_SWEEP_POINTS) as H1.
  unfold validateSweepParams, objectAt, optionalArrayUpTo.
  destruct (notAnObject request).
  { split; [discriminate | intros [H _]; discriminate]. }
  cbv zeta.
  destruct (property request "baseParams") as [b|] eqn:Hb.
  - destruct (notAnObject b) eqn:Hobj.
    + split; [discriminate|].
      intros (_ & (v & Hv & Hn) & _). congruence.
    + walk_checks.
      destruct (property request "secondaryRange") as [s|] eqn:Hs.
      * pose proof (validateArray_valid toString (Some s) "secondaryRange"
                      MAX_SWEEP_POINTS) as H2.
        destruct (valid (validateArray toString (Some s) "secondaryRange"
                           MAX_SWEEP_POINTS)) eqn:E2; cbn [negb].
        -- split; [intros _ | reflexivity].
           repeat split; eauto. right. unfold arrayUpTo. rewrite Hs.
           apply H2. reflexivity.
        -- rewrite E2. split; [discriminate|].
           intros (_ & _ & _ & [Hnone|Harr]); [discriminate|].
           unfold arrayUpTo in Harr. rewrite Hs in Harr.
           apply H2 in Harr. discriminate.
      * split; [intros _ | reflexivity]. repeat split; eauto.
  - split; [discriminate|].
    intros (_ & (v & Hv & _) & _). discriminate.
Qed.

(** * The request handler *)

Lemma ok_explained : explained ok.
Proof. left. reflexivity. Qed.

Lemma invalid_explained (msg : string) : explained (invalid msg).
Proof. right. exists msg. split; reflexivity. Qed.

Lemma validateNumber_explained (toString : Q -> string)
  (value : option JSON) (name : string) (lo hi : Q) :
  explained (validateNumber toString value name lo hi).
Proof.
  unfold validateNumber.
  destruct value as [[| |q| | | |]|]; try apply invalid_explained.
  destruct (Qlt_le_dec q lo); [apply invalid_explained|].
  destruct (Qlt_le_dec hi q); [apply invalid_explained | apply ok_explained].
Qed.

Lemma validateArray_explained (toString : Q -> string) (arr : option JSON)
  (name : string) (maxLength : nat) :
  explained (validateArray toString arr name maxLength).
Proof.
  unfold validateArray.
  destruct arr as [[| | | | |items|]|]; try apply invalid_explained.
  destruct (_ <? _)%nat; [apply invalid_explained | apply ok_explained].
Qed.

Lemma firstInvalid_explained (checks : list ValidationResult)
  (check : ValidationResult) :
  Forall explained checks ->
  firstInvalid checks = Some check -> explained check.
Proof.
  intros Hall Hf. apply firstInvalid_Some in Hf. destruct Hf as [_ Hin].
  apply (proj1 (Forall_forall _ _) Hall). apply list_elem_of_In. exact Hin.
Qed.

Lemma validateMatrix_explained (toString : Q -> string)
  (value : option JSON) (name who : string) (maxRows : nat) :
  explained (validateMatrix toString value name who maxRows).
Proof.
  unfold validateMatrix.
  destruct value as [[| | | | |rows|]|]; try apply invalid_explained.
  destruct (_ <? _)%nat; [apply invalid_explained|].
  destruct (firstInvalid _) as [check|] eqn:Hf; [|apply ok_explained].
  eapply firstInvalid_explained; [|exact Hf].
  apply Forall_map, Forall_forall. intros row _.
  apply validateArray_explained.
Qed.

Lemma validateGains_explained (toString : Q -> string)
  (value : option JSON) (name : string) :
  explained (validateGains toString value name).
Proof.
  unfold validateGains. destruct value as [v|]; [|apply ok_explained].
  cbv zeta. destruct (valid (validateArray toString (Some v) name MAX_N));
    cbn [negb]; [|apply validateArray_explained].
  destruct v; try apply ok_explained.
  destruct (forallb _ _); [apply ok_explained | apply invalid_explained].
Qed.

Lemma validateOptionalChoice_explained (allowed : list string)
  (value : option JSON) (msg : string) :
  explained (validateOptionalChoice allowed value msg).
Proof.
  unfold validateOptionalChoice. destruct value; [|apply ok_explained].
  destruct (includes _ _); [apply ok_explained | apply invalid_explained].
Qed.

(** Walks down a validator, one check after the other. *)
Ltac explain :=
  repeat first
    [ apply ok_explained
    | apply invalid_explained
    | apply validateNumber_explained
    | apply validateArray_explained
    | apply validateMatrix_explained
    | apply validateGains_explained
    | apply validateOptionalChoice_explained
    | match goal with
      | |- explained (if negb (valid ?c) then _ else _) =>
          destruct (valid c); cbn [negb]
      | |- explained (if negb ?b then _ else _) => destruct b; cbn [negb]
      | |- explained (if ?b then _ else _) => destruct b
      | |- explained (match firstInvalid ?l with _ => _ end) =>
          let Hf := fresh "Hf" in
          destruct (firstInvalid l) eqn:Hf;
          [ eapply firstInvalid_explained; [|exact Hf];
            repeat (apply Forall_cons_2; [apply validateNumber_explained|]);
            apply Forall_nil_2
          | ]
      end ].

Lemma validateSimulationParams_explained (toString : Q -> string)
  (body : JSON) :
  explained (validateSimulationParams toString body).
Proof.
  unfold validateSimulationParams. cbv zeta.
  explain.
Qed.

Lemma validateSweepParams_explained (toString : Q -> string) (body : JSON) :
  explained (validateSweepParams toString body).
Proof.
  unfold validateSweepParams. cbv zeta. explain.
  destruct (property body "secondaryRange"); explain.
Qed.

Lemma validateEquilibriumParams_explained (toString : Q -> string)
  (body : JSON) :
  explained (validateEquilibriumParams toString body).
Proof.
  unfold validateEquilibriumParams. cbv zeta.
  explain.
Qed.

Lemma answer_200 {T} (validation : ValidationResult) (run : option T)
  (wrap : T -> Content) :
  statusCode (answer validation run wrap) = 200%nat
  <-> valid validation = true
      /\ exists result, run = Some result
                        /\ content (answer validation run wrap) = wrap result.
Proof.
  unfold answer. destruct (valid validation); cbn [negb].
  - destruct run as [result|]; cbn.
    + split; [intros _ | reflexivity]. eauto.
    + split; [discriminate|]. intros (_ & result & Hr & _). discriminate.
  - cbn. split; [discriminate|]. intros [H _]. discriminate.
Qed.

Lemma answer_rejection {T} (validation : ValidationResult) (run : option T)
  (wrap : T -> Content) :
  explained validation ->
  statusCode (answer validation run wrap) = 200%nat
  \/ (statusCode (answer validation run wrap) = 400%nat
      /\ exists msg,
           content (answer validation run wrap) = ErrorObject (Some msg)).
Proof.
  unfold answer. intros [Hv|(msg & Hv & Hmsg)]; rewrite Hv; cbn [negb].
  - destruct run; cbn; eauto.
  - cbn. rewrite Hmsg. eauto.
Qed.

(** X29. The handler answers 200 in two cases only: to an OPTIONS
    request, with the text ok, and to a POST request whose body parses,
    passes the validator of its path and makes the engine of its path
    return, with that engine's result. The path [sweep] goes to the
    sweep, [equilibrium] to the equilibrium and every other path to the
    single run. *)
Theorem serve_runs_engine_only_after_validation (toString : Q -> string)
  (simulate : JSON -> option SingleRunResult)
  (sweep : JSON -> option SweepResult)
  (equilibrium : JSON -> option EquilibriumResult)
  (req : Request) :
  let reply := serve toString simulate sweep equilibrium req in
  statusCode reply = 200%nat
  <-> (method req = "OPTIONS"%string /\ content reply = PlainText "ok")
      \/ (method req = "POST"%string
          /\ exists body,
               json req = Some body
               /\ ((path req = "sweep"%string
                    /\ valid (validateSweepParams toString body) = true
                    /\ exists result,
                         sweep body = Some result
                         /\ content reply = SweepJson result)
                   \/ (path req = "equilibrium"%string
                       /\ valid (validateEquilibriumParams toString body)
                          = true
                       /\ exists result,
                            equilibrium body = Some result
                            /\ content reply = EquilibriumJson result)
                   \/ (path req <> "sweep"%string
                       /\ path req <> "equilibrium"%string
                       /\ valid (validateSimulationParams toString body)
                          = true
                       /\ exists result,
                            simulate body = Some result
                            /\ content reply = SimulationJson result))).
Proof.
  intros reply. subst reply. unfold serve.
  destruct (String.eqb_spec (method req) "OPTIONS") as [Hopt|Hopt].
  { cbn. split; [intros _; left; auto | reflexivity]. }
  destruct (String.eqb_spec (method req) "POST") as [Hpost|Hpost]; cbn [negb].
  2:{ cbn. split; [discriminate|].
      intros [[H _]|[H _]]; contradiction. }
  destruct (json req) as [body|].
  2:{ cbn. split; [discriminate|].
      intros [[H _]|(_ & b & Hb & _)]; [contradiction | discriminate]. }
  assert (Hne : "POST"%string <> "OPTIONS"%string) by discriminate.
  destruct (String.eqb_spec (path req) "run") as [Hrun|Hrun];
    [|destruct (String.eqb_spec (path req) "simulate") as [Hsim|Hsim]];
    cbn [orb];
    [| |destruct (String.eqb_spec (path req) "sweep") as [Hsw|Hsw];
        [|destruct (String.eqb_spec (path req) "equilibrium") as [Heq|Heq]]];
    rewrite answer_200;
    (split;
     [ intros [Hv Hres]; right; split; [exact Hpost|];
       exists body; split; [reflexivity|];
       first
         [ left; split; [assumption|]; split; assumption
         | right; left; split; [assumption|]; split; assumption
         | right; right;
           split; [congruence|]; split; [congruence|]; split; assumption ]
     | intros [[H _]|(_ & b & Hb & Hcase)]; [contradiction|];
       injection Hb as <-;
       destruct Hcase as [(Hp & Hv & Hres)|[(Hp & Hv & Hres)
                                           |(Hp1 & Hp2 & Hv & Hres)]];
       first [ split; assumption | congruence ] ]).
Qed.

(** X30. Every other answer of the handler is an error with a message:
    405 exactly when the method is neither OPTIONS nor POST, and 400
    for a body that does not parse, for a request its validator
    rejects, with the validator's message, and for an engine that
    throws. *)
Theorem serve_rejections_carry_a_message (toString : Q -> string)
  (simulate : JSON -> option SingleRunResult)
  (sweep : JSON -> option SweepResult)
  (equilibrium : JSON -> option EquilibriumResult)
  (req : Request) :
  let reply := serve toString simulate sweep equilibrium req in
  (statusCode reply = 200%nat
   \/ ((statusCode reply = 400%nat \/ statusCode reply = 405%nat)
       /\ exists msg, content reply = ErrorObject (Some msg)))
  /\ (statusCode reply = 405%nat
      <-> method req <> "OPTIONS"%string /\ method req <> "POST"%string).
Proof.
  intros reply. subst reply. unfold serve.
  destruct (String.eqb_spec (method req) "OPTIONS") as [Hopt|Hopt].
  { cbn. split; [left; reflexivity|].
    split; [discriminate | intros [H _]; contradiction]. }
  destruct (String.eqb_spec (method req) "POST") as [Hpost|Hpost]; cbn [negb].
  2:{ cbn. split; [right; eauto|]. split; auto. }
  destruct (json req) as [body|].
  2:{ cbn. split; [right; eauto|].
      split; [discriminate | intros [_ H]; contradiction]. }
  assert (H405 : forall T (v : ValidationResult) (run : option T) wrap,
            statusCode (answer v run wrap) <> 405%nat).
  { intros T v run wrap. unfold answer.
    destruct (valid v); cbn [negb]; [destruct run|]; cbn; discriminate. }
  split.
  - destruct (_ || _);
      [|destruct (String.eqb (path req) "sweep");
        [|destruct (String.eqb (path req) "equilibrium")]];
      match goal with
      | |- context [answer ?v ?run ?wrap] =>
          destruct (answer_rejection v run wrap) as [H|[H Hmsg]];
          [ first [ apply validateSimulationParams_explained
                  | apply validateSweepParams_explained
                  | apply validateEquilibriumParams_explained ]
          | left; exact H
          | right; split; [left; exact H | exact Hmsg] ]
      end.
  - split; [|intros [_ H]; contradiction].
    intros H. exfalso. revert H.
    destruct (_ || _);
      [|destruct (String.eqb (path req) "sweep");
        [|destruct (String.eqb (path req) "equilibrium")]];
      apply H405.
Qed.

(** * Random initialisation *)

Lemma combine_maps {A B} (l : list A) :
  forall l' : list B,
  length l = length l' ->
  map fst (combine l l') = l /\ map snd (combine l l') = l'.
Proof.
  induction l as [|a l IH]; intros [|b l'] Hlen; simpl in *;
    try discriminate; [auto|].
  destruct (IH l') as [H1 H2]; [lia|]. rewrite H1, H2. auto.
Qed.

Lemma initDefender_drawn (random : option Z -> nat -> R)
  (params : EquilibriumParams) (d drawn : nat) :
  randomInit params = true ->
  snd (initDefender random params d drawn)
  = (drawn + length (ownedChannels params d))%nat.
Proof.
  intros Hrnd. unfold initDefender. rewrite Hrnd.
  destruct (Nat.ltb_spec 0 (length (ownedChannels params d))); simpl; lia.
Qed.

Lemma initDefenders_fold_drawn (random : option Z -> nat -> R)
  (params : EquilibriumParams) (n : nat) :
  randomInit params = true ->
  forall (a : nat) (st : list (list R) * nat),
  length (fst st) = a ->
  snd st = drawnBefore params a ->
  forall d, (a <= d < a + n)%nat ->
    nth d (fst (fold_left
                  (fun st d =>
                     let '(alloc, drawn) :=
                       initDefender random params d (snd st) in
                     (fst st ++ [alloc], drawn))
                  (seq a n) st)) []
    = fst (initDefender random params d (drawnBefore params d)).
Proof.
  intros Hrnd. induction n as [|n IH]; intros a st Hlen Hdrawn d Hd; [lia|].
  simpl.
  destruct (initDefender random params a (snd st)) as [alloc drawn] eqn:Hi.
  destruct (decide (d = a)) as [->|Hne].
  - destruct (initDefenders_fold_nth random params n (S a)
                (fst st ++ [alloc], drawn)) as [Hlow _].
    { simpl. rewrite length_app. simpl. lia. }
    simpl in Hlow. rewrite Hlow by lia.
    rewrite app_nth2 by lia. rewrite Hlen, Nat.sub_diag. simpl.
    rewrite <- Hdrawn, Hi. reflexivity.
  - apply (IH (S a) (fst st ++ [alloc], drawn)).
    + simpl. rewrite length_app. simpl. lia.
    + simpl.
      pose proof (initDefender_drawn random params a (snd st) Hrnd) as Hs.
      rewrite Hi in Hs. simpl in Hs. rewrite Hs, Hdrawn. reflexivity.
    + lia.
Qed.

Lemma initDefenders_nth_random (random : option Z -> nat -> R)
  (params : EquilibriumParams) (d : nat) :
  randomInit params = true ->
  (d < D params)%nat ->
  nth d (initDefenders random params) []
  = fst (initDefender random params d (drawnBefore params d)).
Proof.
  intros Hrnd Hd. unfold initDefenders.
  apply (initDefenders_fold_drawn random params (D params) Hrnd 0
           ([], 0%nat)); simpl; auto. lia.
Qed.

(** With weights of positive sum, a random start spends the budget. *)
Lemma initDefender_sum_random (random : option Z -> nat -> R)
  (params : EquilibriumParams) (d : nat) :
  validParams params ->
  randomInit params = true ->
  ownedChannels params d <> [] ->
  0 < weightSum random params d ->
  sumR (fst (initDefender random params d (drawnBefore params d)))
  = nth d (PT params) 0.
Proof.
  intros Hv Hrnd Hown Hpos. unfold initDefender. rewrite Hrnd.
  set (owned := ownedChannels params d) in *.
  assert (Hlo : (0 <? length owned)%nat = true).
  { apply Nat.ltb_lt. destruct owned; [congruence | simpl; lia]. }
  rewrite Hlo. cbn [fst].
  fold (weightSum random params d).
  set (weights := map (fun k => random (seed params)
                                 (drawnBefore params d + k)%nat)
                    (seq 0 (length owned))).
  assert (Hlen : length owned = length weights).
  { unfold weights. rewrite length_map, length_seq. reflexivity. }
  destruct (combine_maps owned weights Hlen) as [Hfst Hsnd].
  rewrite (sumR_fold_insert fst
             (fun cw => snd cw / weightSum random params d
                        * nth d (PT params) 0)).
  - rewrite sumR_replicate_0, Rplus_0_l.
    rewrite <- (map_map snd (fun w => w / weightSum random params d
                                      * nth d (PT params) 0)).
    rewrite Hsnd.
    rewrite (map_ext _ (fun w => w * (/ weightSum random params d
                                      * nth d (PT params) 0)))
      by (intros w; unfold Rdiv; lra).
    rewrite sumR_map_mult_r. rewrite map_id.
    change (sumR weights) with (weightSum random params d).
    field. lra.
  - rewrite Hfst. apply ownedChannels_NoDup.
  - intros [ch w] Hcw. simpl.
    apply list_elem_of_In, in_combine_l in Hcw.
    unfold owned, ownedChannels in Hcw.
    apply filter_In in Hcw as [Hcw _]. apply in_seq in Hcw.
    rewrite length_replicate.
    rewrite (valid_channelConfig_length params Hv) in Hcw. lia.
  - intros t _. apply nth_replicate_0.
Qed.

Lemma positiveWeights_without_randomInit (random : option Z -> nat -> R)
  (params : EquilibriumParams) :
  randomInit params = false -> positiveWeights random params.
Proof. intros Hoff Hon. congruence. Qed.

Lemma constantRandom_positiveWeights (params : EquilibriumParams) :
  positiveWeights constantRandom params.
Proof.
  intros _ d _ Hown. unfold weightSum, constantRandom.
  rewrite sumR_map_const, length_seq.
  assert (0 < INR (length (ownedChannels params d))).
  { apply lt_0_INR. destruct (ownedChannels params d);
      [congruence | simpl; lia]. }
  lra.
Qed.

Lemma withRandomInit_valid (params : EquilibriumParams) :
  validParams params -> validParams (withRandomInit params).
Proof. intros Hv. destruct Hv. constructor; assumption. Qed.

(** The weights that [positiveWeights] excludes exist: a generator
    whose first draw is [0] stays in the unit interval, and for a first
    defender that owns a single channel the sum by which its weight is
    divided is then [0]. *)
Lemma zero_first_draw_divides_by_zero :
  unitInterval firstDrawZero
  /\ validParams (withRandomInit belowThresholdParams)
  /\ ownedChannels (withRandomInit belowThresholdParams) 0 = [0%nat]
  /\ weightSum firstDrawZero (withRandomInit belowThresholdParams) 0 = 0
  /\ ~ positiveWeights firstDrawZero (withRandomInit belowThresholdParams).
Proof.
  assert (Hown : ownedChannels (withRandomInit belowThresholdParams) 0
                 = [0%nat]) by reflexivity.
  assert (Hsum : weightSum firstDrawZero (withRandomInit belowThresholdParams)
                   0 = 0).
  { unfold weightSum. rewrite Hown. cbn [length seq map drawnBefore Nat.add].
    unfold firstDrawZero. rewrite sumR_cons, sumR_nil. lra. }
  split; [intros s [|k]; unfold firstDrawZero; lra|].
  split; [apply withRandomInit_valid, belowThresholdParams_valid|].
  split; [exact Hown|]. split; [exact Hsum|].
  intros Hpos.
  assert (Hne : ownedChannels (withRandomInit belowThresholdParams) 0 <> []).
  { rewrite Hown. discriminate. }
  specialize (Hpos eq_refl 0%nat ltac:(cbn; lia) Hne). lra.
Qed.

(** ** Budgets at the start and along the run *)

Lemma initial_defender_budget (random : option Z -> nat -> R)
  (params : EquilibriumParams) (st0 : LoopState) (d : nat) :
  validParams params ->
  positiveWeights random params ->
  initialState random params = Some st0 ->
  (d < D params)%nat ->
  startsOnBudget params d ->
  sumR (nth d (loop_x st0) []) = nth d (PT params) 0.
Proof.
  intros Hv Hw Hinit Hd Hstart.
  destruct (initialState_shape random params st0 Hinit) as (-> & _).
  destruct Hstart as [[Hrnd Hown]|[Hrnd Hreal]].
  - rewrite initDefenders_nth_random by assumption.
    apply initDefender_sum_random; auto.
  - destruct (initDefenders_nth random params d Hd) as [drawn ->].
    apply initDefender_sum; assumption.
Qed.

Lemma defender_stays_on_budget (random : option Z -> nat -> R)
  (params : EquilibriumParams) (st0 : LoopState) (d : nat) :
  validParams params ->
  positiveWeights random params ->
  initialState random params = Some st0 ->
  (d < D params)%nat ->
  startsOnBudget params d ->
  forall k, exists x y,
    afterIterations params k (loop_x st0) (loop_y st0) = Some (x, y)
    /\ sumR (nth d x []) = nth d (PT params) 0.
Proof.
  intros Hv Hw Hinit Hd Hstart.
  apply (reachable_invariant random params st0
           (fun x y => sumR (nth d x []) = nth d (PT params) 0) Hinit).
  - apply (initial_defender_budget random); assumption.
  - intros k x y x' y' e Hx Hy Hrx Hry Hs Hit.
    destruct (iteration_row_sums params k x y x' y' e Hv Hx Hy Hrx Hry Hit)
      as (Hdef & _).
    rewrite (Hdef d Hd), Hs. lra.
Qed.

Lemma initial_attacker_budget (random : option Z -> nat -> R)
  (params : EquilibriumParams) (st0 : LoopState) (m : nat) :
  validParams params ->
  initialState random params = Some st0 ->
  eligibleSet params (getActiveSet (loop_x st0) params) <> [] ->
  (m < M params)%nat ->
  sumR (nth m (loop_y st0) []) = nth m (PJ params) 0.
Proof.
  intros Hv Hinit Hne Hm.
  destruct (initialState_shape random params st0 Hinit)
    as (Hx0 & Hy0 & _ & Hylen & _).
  rewrite <- Hx0 in Hy0. unfold initAttackers in Hy0.
  apply mapM_Some_1 in Hy0.
  assert (Hseq : seq 0 (M params) !! m = Some m).
  { apply lookup_seq_lt. exact Hm. }
  destruct (Forall2_lookup_l _ _ _ _ _ Hy0 Hseq) as (newY & Hrow & Happ).
  rewrite (nth_lookup_Some _ _ [] _ Hrow).
  eapply applyJammerStrategy_sum; [| | exact Hne | | | exact Happ].
  - apply getActiveSet_NoDup.
  - intros i Hi. eapply getActiveSet_lt, Hi.
  - apply nonneg_nth, Hv.
  - apply Hv.
Qed.

Lemma targetsUpTo_earlier (params : EquilibriumParams)
  (x0 y0 : list (list R)) (k : nat) :
  targetsUpTo params x0 y0 (S k) -> targetsUpTo params x0 y0 k.
Proof. intros H j x y Hj. apply H. lia. Qed.

Lemma attacker_stays_on_budget (random : option Z -> nat -> R)
  (params : EquilibriumParams) (st0 : LoopState) :
  validParams params ->
  initialState random params = Some st0 ->
  forall k x y,
    targetsUpTo params (loop_x st0) (loop_y st0) k ->
    afterIterations params k (loop_x st0) (loop_y st0) = Some (x, y) ->
    forall m, (m < M params)%nat ->
      sumR (nth m y []) = nth m (PJ params) 0.
Proof.
  intros Hv Hinit. induction k as [|k IH]; intros x y Htargets Hk m Hm.
  - simpl in Hk. injection Hk as <- <-.
    apply (initial_attacker_budget random); auto.
    apply (Htargets 0%nat (loop_x st0) (loop_y st0)); [lia | reflexivity].
  - pose proof Hk as Hk'. simpl in Hk'.
    destruct (afterIterations params k (loop_x st0) (loop_y st0))
      as [[xk yk]|] eqn:Hprev; [|discriminate].
    destruct (iteration params k xk yk) as [[[x' y'] e]|] eqn:Hit;
      [|discriminate].
    injection Hk' as <- <-.
    destruct (reachable_shape random params st0 k xk yk Hinit Hprev)
      as (Hx & Hy & Hrx & Hry).
    destruct (iteration_row_sums params k xk yk x' y' e Hv Hx Hy Hrx Hry Hit)
      as (_ & Hatt & _).
    rewrite (Hatt m Hm).
    + rewrite (IH xk yk (targetsUpTo_earlier _ _ _ _ Htargets) eq_refl m Hm).
      lra.
    + apply (Htargets (S k) x' y'); [lia | exact Hk].
Qed.

(** ** The history is what the iterations produce *)

Lemma bestResponseLoop_entries (params : EquilibriumParams)
  (x0 y0 : list (list R)) (remaining : nat) :
  forall (iter : nat) (st st' : LoopState),
  afterIterations params iter x0 y0 = Some (loop_x st, loop_y st) ->
  bestResponseLoop params remaining iter st = Some st' ->
  exists new : list ConvergenceEntry,
    loop_history st' = loop_history st ++ new
    /\ forall j e, new !! j = Some e ->
         exists x y x' y',
           afterIterations params (iter + j) x0 y0 = Some (x, y)
           /\ iteration params (iter + j) x y = Some (x', y', e).
Proof.
  induction remaining as [|n IH]; intros iter st st' Hreach Hrun.
  - simpl in Hrun. injection Hrun as <-. exists [].
    rewrite app_nil_r. split; [reflexivity|]. intros j e Hj. discriminate.
  - simpl in Hrun.
    destruct (iteration params iter (loop_x st) (loop_y st))
      as [[[x1 y1] e1]|] eqn:Hit; [|discriminate].
    assert (Hfirst : exists x y x' y',
               afterIterations params (iter + 0) x0 y0 = Some (x, y)
               /\ iteration params (iter + 0) x y = Some (x', y', e1)).
    { rewrite Nat.add_0_r. exists (loop_x st), (loop_y st), x1, y1. auto. }
    destruct (Rlt_dec (Entry.maxChange e1) (epsilon params)).
    + injection Hrun as <-. exists [e1]. split; [reflexivity|].
      intros [|j] e Hj; simpl in Hj; [|destruct j; discriminate].
      injection Hj as <-. exact Hfirst.
    + apply IH in Hrun.
      * destruct Hrun as (new & Hhist & Hnew). simpl in Hhist.
        exists (e1 :: new). split.
        { rewrite Hhist, <- app_assoc. reflexivity. }
        intros [|j] e Hj; simpl in Hj.
        -- injection Hj as <-. exact Hfirst.
        -- replace (iter + S j)%nat with (S iter + j)%nat by lia.
           apply Hnew. exact Hj.
      * simpl. rewrite Hreach, Hit. reflexivity.
Qed.

Lemma runEquilibrium_entries (random : option Z -> nat -> R)
  (params : EquilibriumParams) (st0 : LoopState) (r : EquilibriumResult) :
  initialState random params = Some st0 ->
  runEquilibrium random params = Some r ->
  forall j e, convergenceHistory r !! j = Some e ->
    exists x y x' y',
      afterIterations params j (loop_x st0) (loop_y st0) = Some (x, y)
      /\ iteration params j x y = Some (x', y', e).
Proof.
  intros Hinit Hrun. unfold runEquilibrium in Hrun. rewrite Hinit in Hrun.
  destruct (bestResponseLoop params (maxIter params) 0 st0) as [st|] eqn:Hloop;
    [|discriminate].
  injection Hrun as <-.
  destruct (bestResponseLoop_entries params (loop_x st0) (loop_y st0)
              (maxIter params) 0 st0 st eq_refl Hloop) as (new & Hhist & Hnew).
  destruct (initialState_shape random params st0 Hinit)
    as (_ & _ & _ & _ & Hh0 & _).
  rewrite Hh0 in Hhist. simpl in Hhist.
  change (convergenceHistory (buildResult params st)) with (loop_history st).
  rewrite Hhist. intros j e Hj. exact (Hnew j e Hj).
Qed.



(** * Whole runs

    Every statement below is about a valid parameter object, on which
    each row and entry that the engine reads exists, and about draws of
    the unit interval whose sums are positive, on which the random
    start is a division by a positive number. *)

Lemma randomStartParams_valid : validParams randomStartParams.
Proof. apply withRandomInit_valid, sampleParams_valid. Qed.

Lemma randomStartParams_starts :
  exists st0, initialState constantRandom randomStartParams = Some st0.
Proof. apply initialState_total. cbn. discriminate. Qed.

Lemma sampleParams_starts :
  exists st0, initialState constantRandom sampleParams = Some st0.
Proof. apply initialState_total. cbn. discriminate. Qed.

(** C1, as the code has it. On a valid parameter object whose random
    weights, if any, have positive sums and whose initial allocations
    exist: a defender that draws weights for at least one channel, or
    that without random initialisation owns a real channel, starts with
    a row that sums to [PT[d]]; when a channel is eligible in the
    initial state every attacker starts with a row that sums to
    [PJ[m]]; every iteration moves each row sum towards the budget by
    the damping factor, a defender's row to
    [(1 - alpha) * s + alpha * PT[d]], [s] being its sum when the
    iteration starts, and an attacker's row to
    [(1 - alpha) * s + alpha * PJ[m]] provided some channel is eligible
    after the defenders have moved, so that a row on its budget stays
    on it; with an empty active set the row of an attacker that follows
    its configured strategy sums to [(1 - alpha) * s]; hence a defender
    that starts on its budget is on it before and after every
    iteration, and so is every attacker as long as a channel has been
    eligible in every state so far. *)
Theorem row_sums_follow_damping (random : option Z -> nat -> R)
  (params : EquilibriumParams) (st0 : LoopState) :
  validParams params ->
  unitInterval random ->
  positiveWeights random params ->
  initialState random params = Some st0 ->
  (forall d, (d < D params)%nat -> startsOnBudget params d ->
     sumR (nth d (loop_x st0) []) = nth d (PT params) 0)
  /\ (eligibleSet params (getActiveSet (loop_x st0) params) <> [] ->
      forall m, (m < M params)%nat ->
        sumR (nth m (loop_y st0) []) = nth m (PJ params) 0)
  /\ forall k, exists x y x' y' e,
       afterIterations params k (loop_x st0) (loop_y st0) = Some (x, y)
       /\ iteration params k x y = Some (x', y', e)
       /\ afterIterations params (S k) (loop_x st0) (loop_y st0)
          = Some (x', y')
       /\ (forall d, (d < D params)%nat ->
             sumR (nth d x' [])
             = (1 - alpha params) * sumR (nth d x [])
               + alpha params * nth d (PT params) 0)
       /\ (forall d, (d < D params)%nat ->
             sumR (nth d x []) = nth d (PT params) 0 ->
             sumR (nth d x' []) = nth d (PT params) 0)
       /\ (forall m, (m < M params)%nat ->
             eligibleSet params (getActiveSet x' params) <> [] ->
             sumR (nth m y' [])
             = (1 - alpha params) * sumR (nth m y [])
               + alpha params * nth m (PJ params) 0)
       /\ (forall m, (m < M params)%nat ->
             eligibleSet params (getActiveSet x' params) <> [] ->
             sumR (nth m y []) = nth m (PJ params) 0 ->
             sumR (nth m y' []) = nth m (PJ params) 0)
       /\ (forall m, (m < M params)%nat ->
             getActiveSet x' params = [] ->
             attackerMode params = coordinated
             \/ jammerStrategy params <> J3_optimization ->
             sumR (nth m y' []) = (1 - alpha params) * sumR (nth m y []))
       /\ (forall d, (d < D params)%nat -> startsOnBudget params d ->
             sumR (nth d x []) = nth d (PT params) 0
             /\ sumR (nth d x' []) = nth d (PT params) 0)
       /\ (targetsUpTo params (loop_x st0) (loop_y st0) (S k) ->
           forall m, (m < M params)%nat ->
             sumR (nth m y []) = nth m (PJ params) 0
             /\ sumR (nth m y' []) = nth m (PJ params) 0).
Proof.
  intros Hv _ Hw Hinit.
  split.
  { intros d Hd Hstart. apply (initial_defender_budget random); assumption. }
  split.
  { intros Hne m Hm. apply (initial_attacker_budget random); assumption. }
  intros k.
  destruct (initialState_shape random params st0 Hinit)
    as (_ & _ & Hx0 & Hy0 & _).
  destruct (afterIterations_total params k _ _ Hx0 Hy0)
    as (x & y & Hk & _).
  destruct (reachable_shape random params st0 k x y Hinit Hk)
    as (Hx & Hy & Hrx & Hry).
  destruct (iteration_spec params k x y Hx Hy) as (x' & y' & e & Hit & _).
  destruct (iteration_row_sums params k x y x' y' e Hv Hx Hy Hrx Hry Hit)
    as (Hdef & Hatt & Hnone).
  assert (Hnext : afterIterations params (S k) (loop_x st0) (loop_y st0)
                  = Some (x', y')).
  { simpl. rewrite Hk, Hit. reflexivity. }
  exists x, y, x', y', e.
  split; [exact Hk|]. split; [exact Hit|]. split; [exact Hnext|].
  split; [exact Hdef|]. split.
  { intros d Hd Hs. rewrite (Hdef d Hd), Hs. lra. }
  split; [exact Hatt|]. split.
  { intros m Hm Hne Hs. rewrite (Hatt m Hm Hne), Hs. lra. }
  split; [exact Hnone|]. split.
  - intros d Hd Hstart.
    destruct (defender_stays_on_budget random params st0 d Hv Hw Hinit Hd
                Hstart k) as (x1 & y1 & Hk1 & Hs).
    rewrite Hk in Hk1. injection Hk1 as <- <-.
    split; [exact Hs|]. rewrite (Hdef d Hd), Hs. lra.
  - intros Htargets m Hm. split.
    + apply (attacker_stays_on_budget random params st0 Hv Hinit k x y);
        [apply targetsUpTo_earlier; exact Htargets | exact Hk | exact Hm].
    + apply (attacker_stays_on_budget random params st0 Hv Hinit (S k) x' y');
        [exact Htargets | exact Hnext | exact Hm].
Qed.

Lemma row_sums_follow_damping_witness :
  exists st0 : LoopState,
    initialState constantRandom randomStartParams = Some st0
    /\ (forall d, (d < D randomStartParams)%nat -> startsOnBudget randomStartParams d ->
       sumR (nth d (loop_x st0) []) = nth d (PT randomStartParams) 0)
    /\ (eligibleSet randomStartParams (getActiveSet (loop_x st0) randomStartParams) <> [] ->
        forall m, (m < M randomStartParams)%nat ->
          sumR (nth m (loop_y st0) []) = nth m (PJ randomStartParams) 0)
    /\ forall k, exists x y x' y' e,
         afterIterations randomStartParams k (loop_x st0) (loop_y st0) = Some (x, y)
         /\ iteration randomStartParams k x y = Some (x', y', e)
         /\ afterIterations randomStartParams (S k) (loop_x st0) (loop_y st0)
            = Some (x', y')
         /\ (forall d, (d < D randomStartParams)%nat ->
               sumR (nth d x' [])
               = (1 - alpha randomStartParams) * sumR (nth d x [])
                 + alpha randomStartParams * nth d (PT randomStartParams) 0)
         /\ (forall d, (d < D randomStartParams)%nat ->
               sumR (nth d x []) = nth d (PT randomStartParams) 0 ->
               sumR (nth d x' []) = nth d (PT randomStartParams) 0)
         /\ (forall m, (m < M randomStartParams)%nat ->
               eligibleSet randomStartParams (getActiveSet x' randomStartParams) <> [] ->
               sumR (nth m y' [])
               = (1 - alpha randomStartParams) * sumR (nth m y [])
                 + alpha randomStartParams * nth m (PJ randomStartParams) 0)
         /\ (forall m, (m < M randomStartParams)%nat ->
               eligibleSet randomStartParams (getActiveSet x' randomStartParams) <> [] ->
               sumR (nth m y []) = nth m (PJ randomStartParams) 0 ->
               sumR (nth m y' []) = nth m (PJ randomStartParams) 0)
         /\ (forall m, (m < M randomStartParams)%nat ->
               getActiveSet x' randomStartParams = [] ->
               attackerMode randomStartParams = coordinated
               \/ jammerStrategy randomStartParams <> J3_optimization ->
               sumR (nth m y' []) = (1 - alpha randomStartParams) * sumR (nth m y []))
         /\ (forall d, (d < D randomStartParams)%nat -> startsOnBudget randomStartParams d ->
               sumR (nth d x []) = nth d (PT randomStartParams) 0
               /\ sumR (nth d x' []) = nth d (PT randomStartParams) 0)
         /\ (targetsUpTo randomStartParams (loop_x st0) (loop_y st0) (S k) ->
             forall m, (m < M randomStartParams)%nat ->
               sumR (nth m y []) = nth m (PJ randomStartParams) 0
               /\ sumR (nth m y' []) = nth m (PJ randomStartParams) 0).
Proof.
  destruct randomStartParams_starts as [st0 Hst0].
  exists st0. split; [exact Hst0|].
  exact (row_sums_follow_damping constantRandom randomStartParams st0
           randomStartParams_valid constantRandom_unitInterval
           (constantRandom_positiveWeights randomStartParams) Hst0).
Defined.



(** C10. On a valid parameter object (so [maxIter] is at least one)
    whose random weights, if any, have positive sums, once the initial
    allocations exist the run returns a result whose [iterations] is
    the length of its history, whose [k]-th history entry (from 0) has
    [iter = k + 1], whose top-level [maxChange] is that of the last
    history entry, and whose history is not empty. *)
Theorem history_records_every_iteration (random : option Z -> nat -> R)
  (params : EquilibriumParams) (st0 : LoopState) :
  validParams params ->
  unitInterval random ->
  positiveWeights random params ->
  initialState random params = Some st0 ->
  exists r : EquilibriumResult,
    runEquilibrium random params = Some r
    /\ iterations r = length (convergenceHistory r)
    /\ (forall k e, convergenceHistory r !! k = Some e ->
          Entry.iter e = (k + 1)%nat)
    /\ (exists e, last (convergenceHistory r) = Some e
                  /\ maxChange r = Finite (Entry.maxChange e))
    /\ convergenceHistory r <> [].
Proof.
  intros Hv _ _ Hinit.
  destruct (runEquilibrium_spec random params st0 Hinit)
    as (st & Hrun & Hlen & Hiter & Hnil & Hcons & _ & Hfull & _).
  destruct (initialState_shape random params st0 Hinit)
    as (_ & _ & _ & _ & Hh0 & Hc0 & _).
  exists (buildResult params st). split; [exact Hrun|].
  change (iterations (buildResult params st)) with (loop_iterations st).
  change (maxChange (buildResult params st)) with (loop_maxChange st).
  change (convergenceHistory (buildResult params st)) with (loop_history st).
  assert (Hne : loop_history st <> []).
  { intros Hh. pose proof (Hnil Hh) as Hst. subst st.
    specialize (Hfull Hc0). rewrite Hh0 in Hfull. simpl in Hfull.
    pose proof (valid_maxIter params Hv). lia. }
  destruct (Hcons Hne) as (Hit & e & Hlast & Hmc & _).
  split; [exact Hit|]. split; [exact Hiter|]. split; [|exact Hne].
  exists e. auto.
Qed.

Lemma history_records_every_iteration_witness :
  exists st0 : LoopState,
    initialState constantRandom sampleParams = Some st0
    /\ exists r : EquilibriumResult,
      runEquilibrium constantRandom sampleParams = Some r
      /\ iterations r = length (convergenceHistory r)
      /\ (forall k e, convergenceHistory r !! k = Some e ->
            Entry.iter e = (k + 1)%nat)
      /\ (exists e, last (convergenceHistory r) = Some e
                    /\ maxChange r = Finite (Entry.maxChange e))
      /\ convergenceHistory r <> [].
Proof.
  destruct sampleParams_starts as [st0 Hst0].
  exists st0. split; [exact Hst0|].
  exact (history_records_every_iteration constantRandom sampleParams st0
           sampleParams_valid constantRandom_unitInterval
           (constantRandom_positiveWeights sampleParams) Hst0).
Defined.



(** C6, as the code has it. On a valid parameter object whose random
    weights, if any, have positive sums, and once the initial
    allocations exist, the run returns a result whose flag is true
    exactly when there are at least two defenders and every defender's
    final allocation is within ten times [epsilon] (inclusive) of the
    first defender's in L1 distance; with a single defender it is
    false. *)
Theorem symmetricEquilibrium_flag (random : option Z -> nat -> R)
  (params : EquilibriumParams) (st0 : LoopState) :
  validParams params ->
  unitInterval random ->
  positiveWeights random params ->
  initialState random params = Some st0 ->
  exists r : EquilibriumResult,
    runEquilibrium random params = Some r
    /\ length (defenders r) = D params
    /\ (symmetricEquilibrium (metrics r) = true
        <-> (2 <= D params)%nat
            /\ forall d, (1 <= d < D params)%nat ->
                 l1Distance (allocation (nth d (defenders r) noPlayer))
                   (allocation (nth 0 (defenders r) noPlayer))
                 <= 10 * epsilon params)
    /\ ((D params <= 1)%nat -> symmetricEquilibrium (metrics r) = false).
Proof.
  intros _ _ _ Hinit.
  destruct (runEquilibrium_spec random params st0 Hinit) as (st & Hrun & _).
  destruct (buildResult_lengths params st) as (HD & _).
  exists (buildResult params st). split; [exact Hrun|]. split; [exact HD|].
  rewrite buildResult_symmetric. split.
  - rewrite checkSymmetricEquilibrium_true, HD. reflexivity.
  - intros Hle. apply checkSymmetricEquilibrium_single. rewrite HD. exact Hle.
Qed.

Lemma symmetricEquilibrium_flag_witness :
  exists st0 : LoopState,
    initialState constantRandom sampleParams = Some st0
    /\ exists r : EquilibriumResult,
      runEquilibrium constantRandom sampleParams = Some r
      /\ length (defenders r) = D sampleParams
      /\ (symmetricEquilibrium (metrics r) = true
          <-> (2 <= D sampleParams)%nat
              /\ forall d, (1 <= d < D sampleParams)%nat ->
                   l1Distance (allocation (nth d (defenders r) noPlayer))
                     (allocation (nth 0 (defenders r) noPlayer))
                   <= 10 * epsilon sampleParams)
      /\ ((D sampleParams <= 1)%nat -> symmetricEquilibrium (metrics r) = false).
Proof.
  destruct sampleParams_starts as [st0 Hst0].
  exists st0. split; [exact Hst0|].
  exact (symmetricEquilibrium_flag constantRandom sampleParams st0
           sampleParams_valid constantRandom_unitInterval
           (constantRandom_positiveWeights sampleParams) Hst0).
Defined.



(** X13. On a valid parameter object whose random weights, if any, have
    positive sums, once the initial allocations exist the run returns a
    history of at most [maxIter] entries, the [j]-th of them being the
    record that iteration [j] produces on the state reached after [j]
    iterations, in which every entry but the last has a [maxChange] of
    at least [epsilon]: the loop stops at the first iteration that
    falls below it, and a converged run ends on such an entry. *)
Theorem loop_stops_at_first_convergence (random : option Z -> nat -> R)
  (params : EquilibriumParams) (st0 : LoopState) :
  validParams params ->
  unitInterval random ->
  positiveWeights random params ->
  initialState random params = Some st0 ->
  exists r : EquilibriumResult,
    runEquilibrium random params = Some r
    /\ (forall j e, convergenceHistory r !! j = Some e ->
          exists x y x' y',
            afterIterations params j (loop_x st0) (loop_y st0) = Some (x, y)
            /\ iteration params j x y = Some (x', y', e))
    /\ (length (convergenceHistory r) <= maxIter params)%nat
    /\ (forall j e, convergenceHistory r !! j = Some e ->
          (S j < length (convergenceHistory r))%nat ->
          epsilon params <= Entry.maxChange e)
    /\ (converged r = true ->
        exists e, last (convergenceHistory r) = Some e
                  /\ Entry.maxChange e < epsilon params
                  /\ maxChange r = Finite (Entry.maxChange e)).
Proof.
  intros _ _ _ Hinit.
  destruct (runEquilibrium_spec random params st0 Hinit)
    as (st & Hrun & Hlen & _ & Hnil & Hcons & Hearly & _).
  destruct (initialState_shape random params st0 Hinit)
    as (_ & _ & _ & _ & _ & Hc0 & _).
  exists (buildResult params st). split; [exact Hrun|].
  split; [exact (runEquilibrium_entries random params st0 _ Hinit Hrun)|].
  change (converged (buildResult params st)) with (loop_converged st).
  change (maxChange (buildResult params st)) with (loop_maxChange st).
  change (convergenceHistory (buildResult params st)) with (loop_history st).
  split; [exact Hlen|]. split.
  - intros j e Hj Hlast. apply Rnot_lt_le. exact (Hearly j e Hj Hlast).
  - intros Hc. destruct (loop_history st) as [|e0 hist] eqn:Hh.
    + rewrite (Hnil eq_refl), Hc0 in Hc. discriminate.
    + destruct Hcons as (_ & e & Hlast & Hmc & Hconv); [discriminate|].
      exists e. split; [exact Hlast|]. split; [tauto | exact Hmc].
Qed.

Lemma loop_stops_at_first_convergence_witness :
  exists st0 : LoopState,
    initialState constantRandom randomStartParams = Some st0
    /\ exists r : EquilibriumResult,
      runEquilibrium constantRandom randomStartParams = Some r
      /\ (forall j e, convergenceHistory r !! j = Some e ->
            exists x y x' y',
              afterIterations randomStartParams j (loop_x st0) (loop_y st0) = Some (x, y)
              /\ iteration randomStartParams j x y = Some (x', y', e))
      /\ (length (convergenceHistory r) <= maxIter randomStartParams)%nat
      /\ (forall j e, convergenceHistory r !! j = Some e ->
            (S j < length (convergenceHistory r))%nat ->
            epsilon randomStartParams <= Entry.maxChange e)
      /\ (converged r = true ->
          exists e, last (convergenceHistory r) = Some e
                    /\ Entry.maxChange e < epsilon randomStartParams
                    /\ maxChange r = Finite (Entry.maxChange e)).
Proof.
  destruct randomStartParams_starts as [st0 Hst0].
  exists st0. split; [exact Hst0|].
  exact (loop_stops_at_first_convergence constantRandom randomStartParams
           st0 randomStartParams_valid constantRandom_unitInterval
           (constantRandom_positiveWeights randomStartParams) Hst0).
Defined.

(** X7. When every row and entry that the call reads from [x], the
    gains and the channel configuration exists (a valid parameter
    object, an attacker [m], one row of [N] entries per defender in
    [x], active channels below [N]), a strategy call raises exactly
    when the strategy is the gradient one, [y] has fewer than [M] rows
    and some eligible channel below [N] carries defender power; the
    uniform and top-K strategies then never raise. *)
Theorem applyJammerStrategy_raises_iff (m : nat) (y x : list (list R))
  (params : EquilibriumParams) (activeSet : list nat) :
  strategyCallInRange m x params activeSet ->
  (applyJammerStrategy m y x params activeSet = None
   <-> jammerStrategy params = J3_optimization
       /\ (length y < M params)%nat
       /\ exists i, (i < N params)%nat
                    /\ i ∈ eligibleSet params activeSet
                    /\ 0 < at2 x (owner (config params i)) i).
Proof.
  intros _. unfold applyJammerStrategy.
  destruct (Nat.eqb_spec (length activeSet) 0) as [Hnil|Hne].
  { split; [discriminate|]. intros (_ & _ & i & _ & Hi & _).
    destruct activeSet; [|discriminate]. inversion Hi. }
  destruct (jammerStrategy params) eqn:Hs.
  - destruct (Rgt_dec _ _); split; try discriminate; intros [H _]; discriminate.
  - split; [discriminate | intros [H _]; discriminate].
  - destruct (attackerGradient m x y params activeSet) as [grad|] eqn:Hg.
    + split.
      * destruct (Rgt_dec _ _); discriminate.
      * intros (_ & H).
        apply (proj2 (attackerGradient_raises_iff m x y params activeSet)) in H.
        congruence.
    + split; [|reflexivity]. intros _. split; [reflexivity|].
      apply (proj1 (attackerGradient_raises_iff m x y params activeSet)).
      exact Hg.
Qed.

Lemma applyJammerStrategy_raises_iff_witness :
  strategyCallInRange 0 [[5; 5; 0; 0]] sampleParams [0; 1]%nat
  /\ (applyJammerStrategy 0 [] [[5; 5; 0; 0]] sampleParams [0; 1]%nat = None
      <-> jammerStrategy sampleParams = J3_optimization
          /\ (length (@nil (list R)) < M sampleParams)%nat
          /\ exists i, (i < N sampleParams)%nat
                       /\ i ∈ eligibleSet sampleParams [0; 1]%nat
                       /\ 0 < at2 [[5; 5; 0; 0]]
                                 (owner (config sampleParams i)) i).
Proof.
  assert (Hrange : strategyCallInRange 0 [[5; 5; 0; 0]] sampleParams
                     [0; 1]%nat).
  { split; [exact sampleParams_valid|]. split; [reflexivity|].
    split; [repeat constructor|]. split; [cbn; lia|].
    intros i Hi.
    repeat (apply elem_of_cons in Hi as [->|Hi]; [cbn; lia|]).
    inversion Hi. }
  split; [exact Hrange|].
  exact (applyJammerStrategy_raises_iff 0 [] [[5; 5; 0; 0]] sampleParams
           [0; 1]%nat Hrange).
Defined.
